(** * EpiContactTrace: the temporal contact-tracing engine of [src/trace.cpp]

    A shallow embedding of the contact index ([buildContactsLookup]), of the
    three recursive searches ([doShortestPaths], [doTraceContacts],
    [contactChain]) with [degree], and of the three entry points
    ([shortestPaths], [traceContacts], [networkSummary]).

    Conventions.
    - C [int] values (node ids, timestamps, row ids, distances) are [Z]. The
      code only compares timestamps; row ids, distances and the visited-node
      counter are bounded by the number of rows and of nodes, so no
      arithmetic of the code wraps and none is written out.
    - A [std::vector] is a [list]; an iterator into it is a position ([nat]),
      [v.end()] being [length v].
    - A [std::map<int, V>] is an association list kept in ascending key
      order, which is the order its iterators walk.
    - A [std::set<int>] is a [gset Z].
    - Indexing a vector out of range is undefined in C++; here a read yields
      a default and a write does nothing, and the theorems that depend on it
      assume identifiers in range.
    - Running out of memory is not modelled, with two exceptions that the
      code treats itself: the [malloc] of [buildContactsLookup], whose
      outcome is an input, and a vector sized with a negative count, which
      throws.
    - The recursive searches take a [fuel]: [None] means the fuel ran out,
      and the termination theorems give the fuel that always suffices. *)

From Stdlib Require Import ZArith List Lia Bool String.
From stdpp Require Import base tactics option list gmap sets sorting.

Local Open Scope Z_scope.

(** ** Contacts *)

Record Contact := mkContact {
  rowid : Z;
  identifier : Z;
  t : Z
}.

Abbreviation Contacts := (list Contact).

(** [CompareContact::operator()(const Contact&, int)]. *)
Definition CompareContact_elem_val (c : Contact) (val : Z) : bool := t c <? val.

(** [CompareContact::operator()(int, const Contact&)]. *)
Definition CompareContact_val_elem (val : Z) (c : Contact) : bool := val <? t c.

(** Dereferencing an iterator; past the end the code's behaviour is
    undefined and the embedding yields a zero contact. *)
Definition deref (v : Contacts) (i : nat) : Contact :=
  default (mkContact 0 0 0) (v !! i).

(** ** Binary search of the C++ library

    [std::lower_bound] and [std::upper_bound] are the halving loop of
    [std::partition_point], with [comp(elem, val)] and [!comp(val, elem)]
    as the predicate. The length strictly decreases at every turn, so the
    initial length is fuel enough. *)

Fixpoint partition_point (fuel : nat) (p : Contact → bool) (v : Contacts)
    (first len : nat) : nat :=
  match fuel with
  | O => first
  | S fuel' =>
      if (len =? 0)%nat then first
      else
        let half := Nat.div2 len in
        let middle := (first + half)%nat in
        if p (deref v middle)
        then partition_point fuel' p v (S middle) (len - half - 1)
        else partition_point fuel' p v first half
  end.

Definition lower_bound (v : Contacts) (first last : nat) (val : Z) : nat :=
  partition_point (last - first) (λ c, CompareContact_elem_val c val)
    v first (last - first).

Definition upper_bound (v : Contacts) (first last : nat) (val : Z) : nat :=
  partition_point (last - first) (λ c, negb (CompareContact_val_elem val c))
    v first (last - first).

(** ** Ordered maps ([std::map<int, V>]) *)

Module OMap.
Section omap.
Context {V : Type}.

Fixpoint find (k : Z) (m : list (Z * V)) : option V :=
  match m with
  | [] => None
  | (k', v) :: m' => if k' =? k then Some v else find k m'
  end.

(** [m[k] = f (m.find k)], inserting the key in order when it is new. *)
Fixpoint update (f : option V → V) (k : Z) (m : list (Z * V)) : list (Z * V) :=
  match m with
  | [] => [(k, f None)]
  | (k', v) :: m' =>
      if k <? k' then (k, f None) :: m
      else if k =? k' then (k', f (Some v)) :: m'
      else (k', v) :: update f k m'
  end.

End omap.
End OMap.

(** ** The contact index *)

(** [std::vector<std::map<int, Contacts> >]: node, then neighbour, then the
    contacts between them. *)
Abbreviation ContactsLookup := (list (list (Z * Contacts))).

(** [data[node]]. *)
Definition vec_at (data : ContactsLookup) (node : Z) : list (Z * Contacts) :=
  if node <? 0 then [] else default [] (data !! Z.to_nat node).

(** [lookup[i][k].push_back(c)]. *)
Definition push_back_at (lookup : ContactsLookup) (i k : Z) (c : Contact) : ContactsLookup :=
  if i <? 0 then lookup
  else alter (OMap.update (λ o, default [] o ++ [c]) k) (Z.to_nat i) lookup.

(** [R_orderVector(rowid, len, Rf_lang1(t), FALSE, FALSE)] is R's API: it
    fills [rowid] with the permutation of [0 .. len-1] that puts the keys in
    ascending order, ties in index order (its comparison falls back on the
    indices). Inserting from the right, before the first key that is not
    smaller, computes that permutation. *)
Fixpoint order_insert (key : nat → Z) (j : nat) (l : list nat) : list nat :=
  match l with
  | [] => [j]
  | i :: l' => if key j <=? key i then j :: l else i :: order_insert key j l'
  end.

Definition order_by (key : nat → Z) (l : list nat) : list nat :=
  foldr (order_insert key) [] l.

Definition R_orderVector (ptr_t : list Z) : list nat :=
  order_by (λ j, nth j ptr_t 0) (seq 0 (length ptr_t)).

(** One turn of the loop of [buildContactsLookup]. *)
Definition build_step (ptr_src ptr_dst ptr_t : list Z)
    (acc : ContactsLookup * ContactsLookup) (j : nat) : ContactsLookup * ContactsLookup :=
  let zb_src := nth j ptr_src 0 - 1 in
  let zb_dst := nth j ptr_dst 0 - 1 in
  (push_back_at acc.1 zb_dst zb_src (mkContact (Z.of_nat j) zb_src (nth j ptr_t 0)),
   push_back_at acc.2 zb_src zb_dst (mkContact (Z.of_nat j) zb_dst (nth j ptr_t 0))).

(** [buildContactsLookup]. [malloc_ok] is the outcome of the [malloc] of the
    row-id buffer; when it fails the function returns [-1] before touching
    the two lookups. *)
Definition buildContactsLookup (malloc_ok : bool) (ingoing outgoing : ContactsLookup)
    (src dst ptr_t : list Z) : Z * (ContactsLookup * ContactsLookup) :=
  if negb malloc_ok then (-1, (ingoing, outgoing))
  else
    let rowid := R_orderVector ptr_t in
    (0, fold_left (build_step src dst ptr_t) rowid (ingoing, outgoing)).

(** [std::vector<std::map<int, Contacts> > v(n)]. *)
Definition empty_lookup (n : Z) : ContactsLookup := replicate (Z.to_nat n) [].

(** ** The shared pieces of the three searches *)

(** A loop that threads a state through the elements of a container and
    stops when a turn runs out of fuel. *)
Fixpoint for_each {A St : Type} (body : A → St → option St) (l : list A)
    (s : St) : option St :=
  match l with
  | [] => Some s
  | a :: l' =>
      match body a s with
      | Some s' => for_each body l' s'
      | None => None
      end
  end.

(** [t_begin != it->second.end() && t_begin->t <= tEnd]. *)
Definition in_window (v : Contacts) (t_begin : nat) (tEnd : Z) : bool :=
  negb (t_begin =? length v)%nat && (t (deref v t_begin) <=? tEnd).

(** The window [(t0, t1)] handed to the recursive call; [t_end] is
    [std::upper_bound(t_begin, it->second.end(), tEnd, CompareContact())].
    On a sorted bucket [t_end] lies after [t_begin]. Were it position 0,
    [(t_end - 1)->t] would read before the bucket, which is undefined; the
    embedding then reads position 0. *)
Definition narrow (ingoing : bool) (v : Contacts) (t_begin t_end : nat)
    (tBegin tEnd : Z) : Z * Z :=
  if ingoing then (tBegin, t (deref v (t_end - 1)))
  else (t (deref v t_begin), tEnd).

(** ** Shortest paths *)

(** Key: node. Value: distance, then original row id (one-based). *)
Abbreviation PathMap := (list (Z * (Z * Z))).

(** Lines 200-214: the entry of the neighbour in [result]. *)
Definition record_path (result : PathMap) (first distance : Z) (c : Contact)
    : PathMap :=
  match OMap.find first result with
  | None => OMap.update (λ _, (distance, rowid c + 1)) first result
  | Some (d, _) =>
      if distance <? d
      then OMap.update (λ _, (distance, rowid c + 1)) first result
      else result
  end.

(** The body of the loop of [doShortestPaths] for one neighbour bucket;
    [self] is the recursive call. *)
Definition path_visit
    (self : Z → Z → Z → gset Z → Z → PathMap → option PathMap)
    (tBegin tEnd : Z) (visitedNodes : gset Z) (distance : Z) (ingoing : bool)
    (it : Z * Contacts) (result : PathMap) : option PathMap :=
  if decide (it.1 ∈ visitedNodes) then Some result
  else
    let t_begin := lower_bound it.2 0 (length it.2) tBegin in
    if in_window it.2 t_begin tEnd then
      let result := record_path result it.1 distance (deref it.2 t_begin) in
      let t_end := upper_bound it.2 t_begin (length it.2) tEnd in
      let w := narrow ingoing it.2 t_begin t_end tBegin tEnd in
      self it.1 w.1 w.2 visitedNodes (distance + 1) result
    else Some result.

Fixpoint doShortestPaths (fuel : nat) (data : ContactsLookup) (node tBegin tEnd : Z)
    (visitedNodes : gset Z) (distance : Z) (ingoing : bool)
    (result : PathMap) : option PathMap :=
  match fuel with
  | O => None
  | S fuel' =>
      let visitedNodes := {[node]} ∪ visitedNodes in
      for_each
        (path_visit
           (λ n t0 t1 vs d r, doShortestPaths fuel' data n t0 t1 vs d ingoing r)
           tBegin tEnd visitedNodes distance ingoing)
        (vec_at data node) result
  end.

(** ** Trace contacts *)

(** [resultRowid] and [resultDistance]. *)
Abbreviation Trace := (list Z * list Z)%type.

(** Lines 401-407: the loop from [t_begin] up to [t_end]. *)
Definition record_range (v : Contacts) (t_begin t_end : nat) (distance : Z)
    (res : Trace) : Trace :=
  fold_left
    (λ res iit, (res.1 ++ [rowid (deref v iit) + 1], res.2 ++ [distance]))
    (seq t_begin (t_end - t_begin)) res.

(** [maxDistance > 0 && distance >= maxDistance]. *)
Definition depth_reached (maxDistance distance : Z) : bool :=
  (0 <? maxDistance) && (maxDistance <=? distance).

Definition trace_visit
    (self : Z → Z → Z → gset Z → Z → Trace → option Trace)
    (tBegin tEnd : Z) (visitedNodes : gset Z) (distance : Z) (ingoing : bool)
    (maxDistance : Z) (it : Z * Contacts) (res : Trace) : option Trace :=
  if decide (it.1 ∈ visitedNodes) then Some res
  else
    let t_begin := lower_bound it.2 0 (length it.2) tBegin in
    if in_window it.2 t_begin tEnd then
      let t_end := upper_bound it.2 t_begin (length it.2) tEnd in
      let res := record_range it.2 t_begin t_end distance res in
      if depth_reached maxDistance distance then Some res
      else
        let w := narrow ingoing it.2 t_begin t_end tBegin tEnd in
        self it.1 w.1 w.2 visitedNodes (distance + 1) res
    else Some res.

Fixpoint doTraceContacts (fuel : nat) (data : ContactsLookup) (node tBegin tEnd : Z)
    (visitedNodes : gset Z) (distance : Z) (ingoing : bool)
    (res : Trace) (maxDistance : Z) : option Trace :=
  match fuel with
  | O => None
  | S fuel' =>
      let visitedNodes := {[node]} ∪ visitedNodes in
      for_each
        (trace_visit
           (λ n t0 t1 vs d r,
              doTraceContacts fuel' data n t0 t1 vs d ingoing r maxDistance)
           tBegin tEnd visitedNodes distance ingoing maxDistance)
        (vec_at data node) res
  end.

(** ** Network summary *)

Definition degree (data : ContactsLookup) (node tBegin tEnd : Z) : Z :=
  fold_left
    (λ result it,
       if negb (node =? it.1) then
         let t_begin := lower_bound it.2 0 (length it.2) tBegin in
         if in_window it.2 t_begin tEnd then result + 1 else result
       else result)
    (vec_at data node) 0.

(** The help class [VisitedNodes]. *)
Record VisitedNodes := mkVisitedNodes {
  numberOfVisitedNodes : Z;
  visitedNodes : list (bool * Z)
}.

(** The constructor: a zero counter and [numberOfIdentifiers]
    value-initialised pairs. *)
Definition VisitedNodes_new (numberOfIdentifiers : Z) : VisitedNodes :=
  mkVisitedNodes 0 (replicate (Z.to_nat numberOfIdentifiers) (false, 0)).

Definition N (vn : VisitedNodes) : Z := numberOfVisitedNodes vn.

(** [visitedNodes[node]], read and written. *)
Definition entry (vn : VisitedNodes) (node : Z) : bool * Z :=
  if node <? 0 then (false, 0)
  else default (false, 0) (visitedNodes vn !! Z.to_nat node).

Definition set_entry (vn : VisitedNodes) (node : Z) (e : bool * Z)
    : list (bool * Z) :=
  if node <? 0 then visitedNodes vn
  else <[Z.to_nat node := e]> (visitedNodes vn).

Definition Update (vn : VisitedNodes) (node tBegin tEnd : Z) (ingoing : bool)
    : VisitedNodes :=
  if (entry vn node).1 then
    if ingoing then
      if tEnd >? (entry vn node).2
      then mkVisitedNodes (numberOfVisitedNodes vn) (set_entry vn node (true, tEnd))
      else vn
    else if tBegin <? (entry vn node).2
      then mkVisitedNodes (numberOfVisitedNodes vn) (set_entry vn node (true, tBegin))
      else vn
  else
    mkVisitedNodes (numberOfVisitedNodes vn + 1)
      (set_entry vn node (true, if ingoing then tEnd else tBegin)).

Definition Visit (vn : VisitedNodes) (node tBegin tEnd : Z) (ingoing : bool)
    : bool :=
  if (entry vn node).1 then
    if ingoing then
      if tEnd <=? (entry vn node).2 then false else true
    else if tBegin >=? (entry vn node).2 then false else true
  else true.

(** What the loop of [contactChain] decides for one neighbour bucket: the
    window of the recursive call it makes, if it makes one. *)
Definition chain_descent (vn : VisitedNodes) (tBegin tEnd : Z) (ingoing : bool)
    (it : Z * Contacts) : option (Z * Z) :=
  if Visit vn it.1 tBegin tEnd ingoing then
    let t_begin := lower_bound it.2 0 (length it.2) tBegin in
    if in_window it.2 t_begin tEnd then
      let t_end := upper_bound it.2 t_begin (length it.2) tEnd in
      Some (narrow ingoing it.2 t_begin t_end tBegin tEnd)
    else None
  else None.

Definition chain_visit
    (self : Z → Z → Z → VisitedNodes → option VisitedNodes)
    (tBegin tEnd : Z) (ingoing : bool)
    (it : Z * Contacts) (vn : VisitedNodes) : option VisitedNodes :=
  match chain_descent vn tBegin tEnd ingoing it with
  | Some w => self it.1 w.1 w.2 vn
  | None => Some vn
  end.

Fixpoint contactChain (fuel : nat) (data : ContactsLookup) (node tBegin tEnd : Z)
    (vn : VisitedNodes) (ingoing : bool) : option VisitedNodes :=
  match fuel with
  | O => None
  | S fuel' =>
      let vn := Update vn node tBegin tEnd ingoing in
      for_each
        (chain_visit
           (λ n t0 t1 s, contactChain fuel' data n t0 t1 s ingoing)
           tBegin tEnd ingoing)
        (vec_at data node) vn
  end.

(** ** The R values the entry points receive *)

(** [NULL], an integer vector, or a vector of another type, of which the
    code only reads the length and what [Rf_asInteger] makes of it. *)
Inductive SEXP :=
  | R_NilValue
  | IntegerVector (xs : list Z)
  | OtherVector (len : nat) (as_integer : Z).

Definition Rf_isNull (x : SEXP) : bool :=
  match x with R_NilValue => true | _ => false end.

Definition Rf_isInteger (x : SEXP) : bool :=
  match x with IntegerVector _ => true | _ => false end.

Definition Rf_xlength (x : SEXP) : nat :=
  match x with
  | R_NilValue => 0
  | IntegerVector xs => length xs
  | OtherVector len _ => len
  end.

(** [INTEGER(x)]; only applied to integer vectors by a caller that passed
    [check_arguments] and handed integer event columns. *)
Definition INTEGER (x : SEXP) : list Z :=
  match x with IntegerVector xs => xs | _ => [] end.

Definition NA_INTEGER : Z := - 2 ^ 31.

Definition Rf_asInteger (x : SEXP) : Z :=
  match x with
  | IntegerVector (n :: _) => n
  | OtherVector (S _) as_integer => as_integer
  | _ => NA_INTEGER
  end.

Definition check_arguments
    (src dst ptr_t root inBegin inEnd outBegin outEnd numberOfIdentifiers : SEXP)
    : Z :=
  if Rf_isNull root || Rf_isNull inBegin || Rf_isNull inEnd
     || Rf_isNull outBegin || Rf_isNull outEnd || Rf_isNull numberOfIdentifiers
     || negb (Rf_isInteger root) || negb (Rf_isInteger inBegin)
     || negb (Rf_isInteger inEnd) || negb (Rf_isInteger outBegin)
     || negb (Rf_isInteger outEnd) || negb (Rf_isInteger numberOfIdentifiers)
     || negb (Rf_xlength numberOfIdentifiers =? 1)%nat
  then 1 else 0.

(** What a call of an entry point comes to. *)
Inductive Outcome (A : Type) :=
  | Returned (a : A)
  | Rf_error (msg : string)
  | Throws (what : string)
  | OutOfFuel.
Arguments Returned {A} a.
Arguments Rf_error {A} msg.
Arguments Throws {A} what.
Arguments OutOfFuel {A}.

Definition run {A : Type} (o : option A) : Outcome A :=
  match o with Some a => Returned a | None => OutOfFuel end.

(** The recursion of the three searches never nests deeper than the number
    of identifiers (see the termination theorems); the entry points hand
    that much fuel, and one more. *)
Definition search_fuel (numberOfIdentifiers : Z) : nat :=
  S (Z.to_nat numberOfIdentifiers).

(** The first statements of every entry point:
    [std::vector<std::map<int, Contacts> > ingoing(Rf_asInteger(numberOfIdentifiers))]
    and the same for [outgoing], before the arguments are checked. The
    count is converted to [size_t]; a negative one (also [NA_INTEGER], which
    [Rf_asInteger] gives for [NULL]) becomes larger than the vector can be
    and the constructor throws [std::length_error]. *)
Definition new_lookups (n : Z) : option (ContactsLookup * ContactsLookup) :=
  if n <? 0 then None else Some (empty_lookup n, empty_lookup n).

(** ** [shortestPaths] *)

Record PathColumns := mkPathColumns {
  pcDistance : list Z;
  pcRowid : list Z;
  pcIndex : list Z
}.

(** The three [kv_push] of lines 302-309 and 320-327, over the map in key
    order. *)
Definition push_paths (i : nat) (paths : PathMap) (cols : PathColumns)
    : PathColumns :=
  fold_left
    (λ cols it,
       mkPathColumns (pcDistance cols ++ [it.2.1]) (pcRowid cols ++ [it.2.2])
         (pcIndex cols ++ [Z.of_nat i + 1]))
    paths cols.

Definition shortestPaths_root (fuel : nat) (ingoing outgoing : ContactsLookup)
    (root inBegin inEnd outBegin outEnd : list Z)
    (i : nat) (acc : PathColumns * PathColumns)
    : option (PathColumns * PathColumns) :=
  match doShortestPaths fuel ingoing (nth i root 0 - 1)
          (nth i inBegin 0) (nth i inEnd 0) ∅ 1 true [] with
  | None => None
  | Some ingoingShortestPaths =>
      match doShortestPaths fuel outgoing (nth i root 0 - 1)
              (nth i outBegin 0) (nth i outEnd 0) ∅ 1 false [] with
      | None => None
      | Some outgoingShortestPaths =>
          Some (push_paths i ingoingShortestPaths acc.1,
                push_paths i outgoingShortestPaths acc.2)
      end
  end.

(** [shortestPaths]: the ingoing columns [inDistance], [inRowid], [inIndex]
    and the outgoing ones. The two lookups are sized first, then the
    arguments are checked. The return value of [buildContactsLookup] is
    not looked at. *)
Definition shortestPaths (malloc_ok : bool)
    (src dst ptr_t root inBegin inEnd outBegin outEnd numberOfIdentifiers : SEXP)
    : Outcome (PathColumns * PathColumns) :=
  let n := Rf_asInteger numberOfIdentifiers in
  match new_lookups n with
  | None => Throws "std::length_error"
  | Some empty =>
      if negb (check_arguments src dst ptr_t root inBegin inEnd outBegin outEnd
                 numberOfIdentifiers =? 0)
      then Rf_error "Unable to calculate shortest paths"
      else
        let lookups :=
          (buildContactsLookup malloc_ok empty.1 empty.2
             (INTEGER src) (INTEGER dst) (INTEGER ptr_t)).2 in
        run (for_each
               (shortestPaths_root (search_fuel n) lookups.1 lookups.2
                  (INTEGER root) (INTEGER inBegin) (INTEGER inEnd)
                  (INTEGER outBegin) (INTEGER outEnd))
               (seq 0 (Rf_xlength root))
               (mkPathColumns [] [] [], mkPathColumns [] [] []))
  end.

(** ** [traceContacts] *)

Definition traceContacts_root (fuel : nat) (ingoing outgoing : ContactsLookup)
    (root inBegin inEnd outBegin outEnd : list Z) (maxDistance : Z)
    (i : nat) (result : list (list Z)) : option (list (list Z)) :=
  match doTraceContacts fuel ingoing (nth i root 0 - 1)
          (nth i inBegin 0) (nth i inEnd 0) ∅ 1 true ([], []) maxDistance with
  | None => None
  | Some tin =>
      match doTraceContacts fuel outgoing (nth i root 0 - 1)
              (nth i outBegin 0) (nth i outEnd 0) ∅ 1 false ([], [])
              maxDistance with
      | None => None
      | Some tout => Some (result ++ [tin.1; tin.2; tout.1; tout.2])
      end
  end.

(** [traceContacts]: a list of [4 * length root] vectors; for the root of
    index [i], the ingoing row ids at [4 * i], the ingoing distances, the
    outgoing row ids and the outgoing distances. *)
Definition traceContacts (malloc_ok : bool)
    (src dst ptr_t root inBegin inEnd outBegin outEnd numberOfIdentifiers
       maxDistance : SEXP)
    : Outcome (list (list Z)) :=
  let n := Rf_asInteger numberOfIdentifiers in
  match new_lookups n with
  | None => Throws "std::length_error"
  | Some empty =>
      if negb (check_arguments src dst ptr_t root inBegin inEnd outBegin outEnd
                 numberOfIdentifiers =? 0)
      then Rf_error "Unable to trace contacts"
      else
        let lookups :=
          (buildContactsLookup malloc_ok empty.1 empty.2
             (INTEGER src) (INTEGER dst) (INTEGER ptr_t)).2 in
        run (for_each
               (traceContacts_root (search_fuel n) lookups.1 lookups.2
                  (INTEGER root) (INTEGER inBegin) (INTEGER inEnd)
                  (INTEGER outBegin) (INTEGER outEnd)
                  (nth 0 (INTEGER maxDistance) 0))
               (seq 0 (Rf_xlength root)) [])
  end.

(** ** [networkSummary] *)

Record Summary := mkSummary {
  inDegree : list Z;
  outDegree : list Z;
  ingoingContactChain : list Z;
  outgoingContactChain : list Z
}.

Definition networkSummary_root (fuel : nat) (numberOfIdentifiers : Z)
    (ingoing outgoing : ContactsLookup)
    (root inBegin inEnd outBegin outEnd : list Z)
    (i : nat) (acc : Summary) : option Summary :=
  match contactChain fuel ingoing (nth i root 0 - 1)
          (nth i inBegin 0) (nth i inEnd 0)
          (VisitedNodes_new numberOfIdentifiers) true with
  | None => None
  | Some visitedNodesIngoing =>
      match contactChain fuel outgoing (nth i root 0 - 1)
              (nth i outBegin 0) (nth i outEnd 0)
              (VisitedNodes_new numberOfIdentifiers) false with
      | None => None
      | Some visitedNodesOutgoing =>
          Some (mkSummary
                  (inDegree acc ++
                     [degree ingoing (nth i root 0 - 1)
                        (nth i inBegin 0) (nth i inEnd 0)])
                  (outDegree acc ++
                     [degree outgoing (nth i root 0 - 1)
                        (nth i outBegin 0) (nth i outEnd 0)])
                  (ingoingContactChain acc ++ [N visitedNodesIngoing - 1])
                  (outgoingContactChain acc ++ [N visitedNodesOutgoing - 1]))
      end
  end.

Definition networkSummary (malloc_ok : bool)
    (src dst ptr_t root inBegin inEnd outBegin outEnd numberOfIdentifiers : SEXP)
    : Outcome Summary :=
  let n := Rf_asInteger numberOfIdentifiers in
  match new_lookups n with
  | None => Throws "std::length_error"
  | Some empty =>
      if negb (check_arguments src dst ptr_t root inBegin inEnd outBegin outEnd
                 numberOfIdentifiers =? 0)
      then Rf_error "Unable to calculate network summary"
      else
        let built :=
          buildContactsLookup malloc_ok empty.1 empty.2
            (INTEGER src) (INTEGER dst) (INTEGER ptr_t) in
        if negb (built.1 =? 0)
        then Rf_error "Unable to calculate network summary"
        else
          run (for_each
                 (networkSummary_root (search_fuel n)
                    (nth 0 (INTEGER numberOfIdentifiers) 0) built.2.1 built.2.2
                    (INTEGER root) (INTEGER inBegin) (INTEGER inEnd)
                    (INTEGER outBegin) (INTEGER outEnd))
                 (seq 0 (Rf_xlength root)) (mkSummary [] [] [] []))
  end.

(** ** The example of the specification, run *)

Definition ex_src : list Z := [1; 2; 1].
Definition ex_dst : list Z := [2; 3; 3].
Definition ex_t : list Z := [10; 20; 5].

(** ** Vocabulary of the statements *)

(** A bucket is non-decreasing in timestamp. *)
Definition time_sorted (v : Contacts) : Prop :=
  StronglySorted (λ a b, t a ≤ t b) v.

(** The linear scan: the position of the first element at which [p] fails,
    the length when there is none. *)
Fixpoint first_not (p : Contact → bool) (v : Contacts) : nat :=
  match v with
  | [] => 0%nat
  | c :: v' => if p c then S (first_not p v') else 0%nat
  end.

(** The linear scan for the first event with [t >= tBegin]. *)
Definition scan_lower (v : Contacts) (tBegin : Z) : nat :=
  first_not (λ c, t c <? tBegin) v.

(** The linear scan for the first event with [t > tEnd]. *)
Definition scan_upper (v : Contacts) (tEnd : Z) : nat :=
  first_not (λ c, t c <=? tEnd) v.

(** [p] never turns true again once it has failed. *)
Definition downward (p : Contact → bool) (v : Contacts) : Prop :=
  ∀ i j a b, (i ≤ j)%nat →
    v !! i = Some a → v !! j = Some b → p b = true → p a = true.

(** The events of a bucket inside a window, by a scan of the whole bucket. *)
Definition events_within (v : Contacts) (tBegin tEnd : Z) : Contacts :=
  filter (λ c, tBegin ≤ t c ≤ tEnd) v.

(** The first event of a bucket with [t >= tBegin] and the last one with
    [t <= tEnd], by a scan of the whole bucket. *)
Definition first_from (v : Contacts) (tBegin : Z) : option Contact :=
  head (filter (λ c, tBegin ≤ t c) v).

Definition last_upto (v : Contacts) (tEnd : Z) : option Contact :=
  last (filter (λ c, t c ≤ tEnd) v).

(** Every (neighbour, bucket) entry of every node satisfies [Q]. *)
Definition all_buckets (Q : Z * Contacts → Prop) (data : ContactsLookup) : Prop :=
  Forall (Forall Q) data.

(** The event columns a caller hands: three columns of one length, with
    one-based identifiers up to [numberOfIdentifiers]. *)
Definition valid_events (numberOfIdentifiers : Z) (src dst ptr_t : list Z)
    : Prop :=
  length src = length ptr_t ∧ length dst = length ptr_t ∧
  Forall (λ x, 1 ≤ x ≤ numberOfIdentifiers) src ∧
  Forall (λ x, 1 ≤ x ≤ numberOfIdentifiers) dst.

(** The shape of a lookup built from such columns: one map per identifier,
    each with strictly ascending neighbour keys in range and buckets sorted
    by time that hold row indices below [len]. *)
Record wf_lookup (numberOfIdentifiers : Z) (len : nat) (data : ContactsLookup)
    : Prop := mk_wf_lookup {
  wf_size : length data = Z.to_nat numberOfIdentifiers;
  wf_keys : Forall (λ m, StronglySorted Z.lt m.*1) data;
  wf_range : all_buckets (λ it, 0 ≤ it.1 < numberOfIdentifiers) data;
  wf_sorted : all_buckets (λ it, time_sorted it.2) data;
  wf_rowid : all_buckets (λ it, Forall (λ c, 0 ≤ rowid c < Z.of_nat len) it.2) data
}.

(** The two lookups the entry points search. *)
Definition built_lookups (numberOfIdentifiers : Z) (src dst ptr_t : list Z)
    : ContactsLookup * ContactsLookup :=
  (buildContactsLookup true (empty_lookup numberOfIdentifiers)
     (empty_lookup numberOfIdentifiers) src dst ptr_t).2.

(** No entry of [result] is lost in [result'], and an entry that differs
    has a strictly smaller distance. *)
Definition only_closer (result result' : PathMap) : Prop :=
  ∀ k d r, OMap.find k result = Some (d, r) →
    ∃ d' r', OMap.find k result' = Some (d', r') ∧ (d' < d ∨ (d', r') = (d, r)).

(** [res'] is [res] with row ids that satisfy [P] and as many distances
    that satisfy [D] appended. *)
Definition trace_appended (P D : Z → Prop) (res res' : Trace) : Prop :=
  ∃ rows dists,
    res' = (res.1 ++ rows, res.2 ++ dists) ∧ length rows = length dists ∧
    Forall P rows ∧ Forall D dists.

(** The identifiers [0 .. numberOfIdentifiers - 1]. *)
Definition identifiers (numberOfIdentifiers : Z) : gset Z :=
  list_to_set (seqZ 0 numberOfIdentifiers).

(** The bound a visited node records and the bound a window would record,
    read so that larger is further: the end of the window when the search
    is ingoing, the beginning counted downwards when it is outgoing. *)
Definition brank (ingoing : bool) (b : Z) : Z := if ingoing then b else - b.

Definition wrank (ingoing : bool) (tBegin tEnd : Z) : Z :=
  if ingoing then tEnd else - tBegin.

(** The nodes marked visited. *)
Definition marked (vn : VisitedNodes) : gset Z :=
  filter (λ k, (entry vn k).1 = true)
    (identifiers (Z.of_nat (length (visitedNodes vn)))).

(** The nodes that [Visit] lets a window of rank [r] through to. *)
Definition open_to (ingoing : bool) (r : Z) (vn : VisitedNodes) : gset Z :=
  filter (λ k, (entry vn k).1 = false ∨ brank ingoing (entry vn k).2 < r)
    (identifiers (Z.of_nat (length (visitedNodes vn)))).

(** [vn'] comes after [vn]: marks stay and recorded bounds only move
    further. *)
Definition grows (ingoing : bool) (vn vn' : VisitedNodes) : Prop :=
  length (visitedNodes vn') = length (visitedNodes vn) ∧
  ∀ k, (entry vn k).1 = true →
       (entry vn' k).1 = true ∧
       brank ingoing (entry vn k).2 ≤ brank ingoing (entry vn' k).2.

(** The counter is the number of marked nodes. *)
Definition counted (vn : VisitedNodes) : Prop :=
  N vn = Z.of_nat (size (marked vn)).

(** Three events, [2 -> 1] at 50, [3 -> 1] at 60 and [2 -> 3] at 10, and
    the ingoing lookup built from them. *)
Definition revisit_src : list Z := [2; 3; 2].
Definition revisit_dst : list Z := [1; 1; 3].
Definition revisit_t : list Z := [50; 60; 10].

Definition revisit_ingoing : ContactsLookup :=
  [[(1, [mkContact 0 1 50]); (2, [mkContact 1 2 60])];
   [];
   [(1, [mkContact 2 1 10])]].

(** The list that [traceContacts] returns is made of one group of four
    arrays per root; in every group the row ids and the distances of a
    direction have the same length and the row ids lie in [1 .. len]. *)
Definition trace_group (g : Trace * Trace) : list (list Z) :=
  [g.1.1; g.1.2; g.2.1; g.2.2].

Definition trace_group_ok (len : Z) (g : Trace * Trace) : Prop :=
  length g.1.1 = length g.1.2 ∧ length g.2.1 = length g.2.2 ∧
  Forall (λ r, 1 ≤ r ≤ len) g.1.1 ∧ Forall (λ r, 1 ≤ r ≤ len) g.2.1.

Definition trace_columns_ok (len : Z) (roots : nat) (result : list (list Z))
    : Prop :=
  ∃ groups, result = concat (map trace_group groups) ∧
            length groups = roots ∧ Forall (trace_group_ok len) groups.

(** The neighbours of a node, other than the node itself, with an event in
    the window: the nodes reachable at hop 1. *)
Definition hop1 (data : ContactsLookup) (node tBegin tEnd : Z) : list Z :=
  (filter (λ it, it.1 ≠ node ∧ (0 < length (events_within it.2 tBegin tEnd))%nat)
     (vec_at data node)).*1.

(** The chain size that [networkSummary] pushes for a root and a
    direction. *)
Definition chain_size (numberOfIdentifiers : Z) (data : ContactsLookup)
    (node tBegin tEnd : Z) (ingoing : bool) : option Z :=
  match contactChain (search_fuel numberOfIdentifiers) data node tBegin tEnd
          (VisitedNodes_new numberOfIdentifiers) ingoing with
  | Some visitedNodes => Some (N visitedNodes - 1)
  | None => None
  end.

(** The rows that are not self-loops, and the columns restricted to them:
    the input with every self-loop event removed. *)
Definition kept_rows (src dst ptr_t : list Z) : list nat :=
  filter (λ j, nth j src 0 ≠ nth j dst 0) (seq 0 (length ptr_t)).

Definition select_rows (rows : list nat) (col : list Z) : list Z :=
  map (λ j, nth j col 0) rows.

(** A lookup without the bucket that a node has for itself. *)
Definition strip (data : ContactsLookup) : ContactsLookup :=
  imap (λ i m, filter (λ it : Z * Contacts, it.1 ≠ Z.of_nat i) m) data.

(** A lookup with the row ids forgotten. *)
Definition erase_contact (c : Contact) : Contact :=
  mkContact 0 (identifier c) (t c).

Definition erase (data : ContactsLookup) : ContactsLookup :=
  map (map (λ it : Z * Contacts, (it.1, map erase_contact it.2))) data.

(** The window that a search hands down from a bucket, in the words of
    the specification: none when the bucket has no event inside the
    window; otherwise, ingoing, from [tBegin] to the time of the last event
    of the bucket with [t <= tEnd], and outgoing, from the time of the
    first event of the bucket with [t >= tBegin] to [tEnd]. *)
Definition child_window (ingoing : bool) (v : Contacts) (tBegin tEnd : Z)
    : option (Z * Z) :=
  match events_within v tBegin tEnd with
  | [] => None
  | _ :: _ =>
      if ingoing then (λ c, (tBegin, t c)) <$> last_upto v tEnd
      else (λ c, (t c, tEnd)) <$> first_from v tBegin
  end.

(** What a search that carries its path comes across. From a call at
    [node] with the window [tBegin, tEnd], the path [visited] and the
    distance [distance], the search discovers the bucket [it] of a
    neighbour, in the window [tB, tE] and at the distance [d], when

    - [it] is a bucket of [node] for a neighbour that is neither [node]
      nor on the path, it has an event inside the window of the call, and
      [tB, tE] is that window and [d] that distance; or
    - a bucket of [node] with these properties hands down a window, the
      distance has not reached a positive [maxDistance], and the call at
      its neighbour with the window handed down, the path with [node]
      added and the distance plus one discovers [it] in [tB, tE] at [d].

    [maxDistance = 0] sets no limit. *)
Inductive discovers (data : ContactsLookup) (ingoing : bool) (maxDistance : Z)
    : Z → Z → Z → gset Z → Z → Z * Contacts → Z → Z → Z → Prop :=
  | discovers_here node tBegin tEnd visited distance it :
      it ∈ vec_at data node →
      (it.1 ∉ {[node]} ∪ visited) →
      events_within it.2 tBegin tEnd ≠ [] →
      discovers data ingoing maxDistance node tBegin tEnd visited distance
        it tBegin tEnd distance
  | discovers_on node tBegin tEnd visited distance it w it' tB tE d :
      it ∈ vec_at data node →
      (it.1 ∉ {[node]} ∪ visited) →
      child_window ingoing it.2 tBegin tEnd = Some w →
      (0 < maxDistance → distance < maxDistance) →
      discovers data ingoing maxDistance it.1 w.1 w.2 ({[node]} ∪ visited)
        (distance + 1) it' tB tE d →
      discovers data ingoing maxDistance node tBegin tEnd visited distance
        it' tB tE d.

(** Every entry of [result'] is the entry that [result] has for the node,
    or the pair of a discovery of the node, its distance and the row id
    (one-based) of the first event of the bucket in the window of the
    discovery, with a distance strictly below the one that [result] has
    for the node, if it has one. *)
Definition entries_from (found : Z * Contacts → Z → Z → Z → Prop)
    (result result' : PathMap) : Prop :=
  ∀ k, OMap.find k result' = OMap.find k result ∨
       ∃ it tB tE d c,
         found it tB tE d ∧ it.1 = k ∧ first_from it.2 tB = Some c ∧
         OMap.find k result' = Some (d, rowid c + 1) ∧
         ∀ d0 r0, OMap.find k result = Some (d0, r0) → d < d0.

(** The gate of a revisit, in the words of the code: the neighbour is not
    marked, or the window of the calling node reaches beyond the bound
    that the neighbour records (ingoing: a later [tEnd]; outgoing: an
    earlier [tBegin]). *)
Definition gate_open (vn : VisitedNodes) (neighbour tBegin tEnd : Z)
    (ingoing : bool) : bool :=
  negb (entry vn neighbour).1
  || (if ingoing then (entry vn neighbour).2 <? tEnd
      else tBegin <? (entry vn neighbour).2).

(** Three events, [1 -> 2] at 10, [2 -> 3] at 7 and [2 -> 3] at 20: from
    node 1 the event at 7 lies in the window [6, 100] of a query, but
    before the contact that leads to node 2. *)
Definition narrowing_src : list Z := [1; 2; 2].
Definition narrowing_dst : list Z := [2; 3; 3].
Definition narrowing_t : list Z := [10; 7; 20].

(** Four events [1 -> 2], at 30, 10, 20 and 10. *)
Definition ties_src : list Z := [1; 1; 1; 1].
Definition ties_dst : list Z := [2; 2; 2; 2].
Definition ties_t : list Z := [30; 10; 20; 10].

(** * Theorems *)

(** ** The binary searches on a sorted bucket *)

Section binary_search.
Local Open Scope nat_scope.
Variable p : Contact → bool.

Lemma partition_point_S fuel (v : Contacts) first len :
  partition_point (S fuel) p v first len =
  if len =? 0 then first
  else if p (deref v (first + Nat.div2 len))
       then partition_point fuel p v (S (first + Nat.div2 len))
              (len - Nat.div2 len - 1)
       else partition_point fuel p v first (Nat.div2 len).
Proof. reflexivity. Qed.

Lemma partition_point_spec fuel (v : Contacts) first len k :
  len ≤ fuel → first ≤ k ≤ first + len → first + len ≤ length v →
  (∀ i c, first ≤ i < k → v !! i = Some c → p c = true) →
  (∀ i c, k ≤ i < first + len → v !! i = Some c → p c = false) →
  partition_point fuel p v first len = k.
Proof.
  revert first len. induction fuel as [|fuel IH]; intros first len Hf Hk Hl Ht Hn.
  - simpl. lia.
  - rewrite partition_point_S.
    destruct (Nat.eqb_spec len 0) as [->|Hlen]; [lia|].
    pose proof (Nat.div2_div len) as Hd.
    assert (Nat.div2 len < len) by (rewrite Hd; apply Nat.div_lt; lia).
    destruct (lookup_lt_is_Some_2 v (first + Nat.div2 len)) as [c Hc]; [lia|].
    unfold deref. rewrite Hc. simpl.
    destruct (p c) eqn:Hp.
    + assert (first + Nat.div2 len < k).
      { destruct (decide (first + Nat.div2 len < k)); [done|].
        rewrite (Hn (first + Nat.div2 len) c) in Hp; [done|lia|done]. }
      apply IH; [lia|lia|lia| |].
      * intros i c' Hi. apply Ht. lia.
      * intros i c' Hi. apply Hn. lia.
    + assert (k ≤ first + Nat.div2 len).
      { destruct (decide (k ≤ first + Nat.div2 len)); [done|].
        rewrite (Ht (first + Nat.div2 len) c) in Hp; [done|lia|done]. }
      apply IH; [lia|lia|lia| |].
      * intros i c' Hi. apply Ht. lia.
      * intros i c' Hi. apply Hn. lia.
Qed.

Lemma first_not_le (v : Contacts) : first_not p v ≤ length v.
Proof. induction v as [|c v IH]; simpl; [lia|]. destruct (p c); simpl; lia. Qed.

Lemma first_not_before (v : Contacts) i c :
  i < first_not p v → v !! i = Some c → p c = true.
Proof.
  revert i. induction v as [|a v IH]; intros i; simpl; [lia|].
  destruct (p a) eqn:Ha; [|lia].
  destruct i as [|i]; simpl; [naive_solver|]. intros ?. apply IH. lia.
Qed.

Lemma first_not_at (v : Contacts) c :
  v !! first_not p v = Some c → p c = false.
Proof.
  induction v as [|a v IH]; simpl; [done|].
  destruct (p a) eqn:Ha; simpl; [done|]. naive_solver.
Qed.

Lemma first_not_after (v : Contacts) i c :
  downward p v → first_not p v ≤ i → v !! i = Some c → p c = false.
Proof.
  intros Hd Hi Hc.
  destruct (lookup_lt_is_Some_2 v (first_not p v)) as [a Ha].
  { apply lookup_lt_Some in Hc. lia. }
  destruct (p c) eqn:Hp; [|done].
  pose proof (first_not_at _ _ Ha) as Hna.
  rewrite (Hd _ _ _ _ Hi Ha Hc Hp) in Hna. done.
Qed.

(** The halving loop started at [first] stops where the linear scan does,
    or at [first] when the scan stops earlier. *)
Lemma partition_point_scan (v : Contacts) first :
  downward p v → first ≤ length v →
  partition_point (length v - first) p v first (length v - first)
  = first `max` first_not p v.
Proof.
  intros Hd Hf. pose proof (first_not_le v).
  apply partition_point_spec; [lia|lia|lia| |].
  - intros i c Hi. apply first_not_before. lia.
  - intros i c Hi. apply first_not_after; [done|lia].
Qed.

End binary_search.

(** ** Sorted buckets *)

Section filters.
Context {A : Type} (P : A → Prop) `{!∀ x, Decision (P x)}.

Lemma filter_Forall_all (l : list A) : Forall P l → filter P l = l.
Proof.
  induction 1 as [|x l Hx _ IH]; [done|].
  by rewrite filter_cons_True, IH.
Qed.

Lemma filter_Forall_none (l : list A) : Forall (λ x, ¬ P x) l → filter P l = [].
Proof.
  induction 1 as [|x l Hx _ IH]; [done|].
  by rewrite filter_cons_False.
Qed.

End filters.

Lemma time_sorted_lookup (v : Contacts) i j a b :
  time_sorted v → (i ≤ j)%nat → v !! i = Some a → v !! j = Some b → t a ≤ t b.
Proof.
  intros Hs. revert i j. induction Hs as [|c v Hs IH Hc]; intros i j Hij Ha Hb.
  - done.
  - destruct i as [|i], j as [|j]; simpl in *; simplify_eq; try lia.
    + rewrite Forall_lookup in Hc. eauto.
    + eapply IH; [|done..]. lia.
Qed.

Lemma time_sorted_downward_lower (v : Contacts) val :
  time_sorted v → downward (λ c, CompareContact_elem_val c val) v.
Proof.
  intros Hs i j a b Hij Ha Hb. unfold CompareContact_elem_val.
  pose proof (time_sorted_lookup _ _ _ _ _ Hs Hij Ha Hb). lia.
Qed.

Lemma time_sorted_downward_upper (v : Contacts) val :
  time_sorted v → downward (λ c, negb (CompareContact_val_elem val c)) v.
Proof.
  intros Hs i j a b Hij Ha Hb. unfold CompareContact_val_elem.
  pose proof (time_sorted_lookup _ _ _ _ _ Hs Hij Ha Hb).
  rewrite !negb_true_iff. lia.
Qed.

Lemma first_not_ext (p q : Contact → bool) (v : Contacts) :
  (∀ c, p c = q c) → first_not p v = first_not q v.
Proof. intros E. induction v as [|c v IH]; simpl; [done|]. by rewrite E, IH. Qed.

(** On a sorted bucket [std::lower_bound] over the whole bucket is the
    linear scan. *)
Lemma lower_bound_scan (v : Contacts) tBegin :
  time_sorted v → lower_bound v 0 (length v) tBegin = scan_lower v tBegin.
Proof.
  intros Hs. unfold lower_bound.
  rewrite partition_point_scan by (auto using time_sorted_downward_lower; lia).
  unfold scan_lower, CompareContact_elem_val. lia.
Qed.

Lemma upper_bound_scan (v : Contacts) first tEnd :
  time_sorted v → (first ≤ length v)%nat →
  upper_bound v first (length v) tEnd = (first `max` scan_upper v tEnd)%nat.
Proof.
  intros Hs Hf. unfold upper_bound.
  rewrite partition_point_scan by auto using time_sorted_downward_upper.
  unfold scan_upper. f_equal. apply first_not_ext. intros c.
  unfold CompareContact_val_elem. lia.
Qed.

Lemma scan_lower_le (v : Contacts) tBegin : (scan_lower v tBegin ≤ length v)%nat.
Proof. apply first_not_le. Qed.

Lemma scan_upper_le (v : Contacts) tEnd : (scan_upper v tEnd ≤ length v)%nat.
Proof. apply first_not_le. Qed.

Lemma scan_lower_take (v : Contacts) tBegin :
  Forall (λ c, t c < tBegin) (take (scan_lower v tBegin) v).
Proof.
  apply Forall_lookup. intros i c [Hc Hi]%lookup_take_Some.
  pose proof (first_not_before _ _ _ _ Hi Hc) as H. simpl in H. lia.
Qed.

Lemma scan_lower_drop (v : Contacts) tBegin :
  time_sorted v → Forall (λ c, tBegin ≤ t c) (drop (scan_lower v tBegin) v).
Proof.
  intros Hs. apply Forall_lookup. intros i c Hc. rewrite lookup_drop in Hc.
  apply (first_not_after _ _ _ _ (time_sorted_downward_lower _ tBegin Hs)) in Hc.
  - unfold CompareContact_elem_val in Hc. lia.
  - unfold scan_lower, CompareContact_elem_val. lia.
Qed.

Lemma scan_upper_take (v : Contacts) tEnd :
  Forall (λ c, t c ≤ tEnd) (take (scan_upper v tEnd) v).
Proof.
  apply Forall_lookup. intros i c [Hc Hi]%lookup_take_Some.
  pose proof (first_not_before _ _ _ _ Hi Hc) as H. simpl in H. lia.
Qed.

Lemma scan_upper_drop (v : Contacts) tEnd :
  time_sorted v → Forall (λ c, tEnd < t c) (drop (scan_upper v tEnd) v).
Proof.
  intros Hs. apply Forall_lookup. intros i c Hc. rewrite lookup_drop in Hc.
  apply (first_not_after _ _ _ _ (time_sorted_downward_upper _ tEnd Hs)) in Hc.
  - unfold CompareContact_val_elem in Hc. rewrite negb_false_iff in Hc. lia.
  - rewrite (first_not_ext _ (λ c, t c <=? tEnd)).
    + unfold scan_upper. lia.
    + intros c'. unfold CompareContact_val_elem. lia.
Qed.

Lemma deref_lookup (v : Contacts) i c : v !! i = Some c → deref v i = c.
Proof. unfold deref. by intros ->. Qed.

Lemma in_window_true (v : Contacts) i tEnd :
  in_window v i tEnd = true → (i ≤ length v)%nat →
  ∃ c, v !! i = Some c ∧ t c ≤ tEnd.
Proof.
  unfold in_window. intros [Hi Ht]%andb_true_iff Hle.
  apply negb_true_iff, Nat.eqb_neq in Hi.
  destruct (lookup_lt_is_Some_2 v i) as [c Hc]; [lia|].
  exists c. split; [done|]. rewrite (deref_lookup _ _ _ Hc) in Ht. lia.
Qed.

(** What the two searches find in a sorted bucket that holds an event of the
    window. *)
Lemma qualifying_sorted (v : Contacts) tBegin tEnd :
  time_sorted v →
  in_window v (lower_bound v 0 (length v) tBegin) tEnd = true →
  ∃ i j ci cj,
    lower_bound v 0 (length v) tBegin = i ∧ i = scan_lower v tBegin ∧
    upper_bound v i (length v) tEnd = j ∧ j = scan_upper v tEnd ∧
    (i < j ≤ length v)%nat ∧
    v !! i = Some ci ∧ v !! (j - 1)%nat = Some cj ∧
    tBegin ≤ t ci ∧ t ci ≤ t cj ∧ t cj ≤ tEnd.
Proof.
  intros Hs Hw. rewrite lower_bound_scan in Hw |- * by done.
  pose proof (scan_lower_le v tBegin) as Hi.
  pose proof (scan_upper_le v tEnd) as Hj.
  destruct (in_window_true _ _ _ Hw Hi) as (ci & Hci & Hle).
  assert (scan_lower v tBegin < scan_upper v tEnd)%nat as Hij.
  { destruct (decide (scan_lower v tBegin < scan_upper v tEnd)%nat); [done|].
    pose proof (scan_upper_drop v tEnd Hs) as Hd.
    rewrite Forall_lookup in Hd.
    specialize (Hd (scan_lower v tBegin - scan_upper v tEnd)%nat ci).
    rewrite lookup_drop in Hd.
    replace (scan_upper v tEnd + (scan_lower v tBegin - scan_upper v tEnd))%nat
      with (scan_lower v tBegin) in Hd by lia.
    specialize (Hd Hci). lia. }
  destruct (lookup_lt_is_Some_2 v (scan_upper v tEnd - 1)) as [cj Hcj]; [lia|].
  exists (scan_lower v tBegin), (scan_upper v tEnd), ci, cj.
  rewrite upper_bound_scan by (done || lia).
  repeat split; try done; try lia.
  - pose proof (scan_lower_drop v tBegin Hs) as Hd.
    rewrite Forall_lookup in Hd. apply (Hd 0%nat).
    rewrite lookup_drop. by rewrite Nat.add_0_r.
  - eapply (time_sorted_lookup v); [done| |done..]. lia.
  - pose proof (scan_upper_take v tEnd) as Hd.
    rewrite Forall_lookup in Hd. apply (Hd (scan_upper v tEnd - 1)%nat).
    apply lookup_take_Some. split; [done|lia].
Qed.

(** The events of the window are the range between the two scans. *)
Lemma events_within_range (v : Contacts) tBegin tEnd :
  time_sorted v →
  events_within v tBegin tEnd
  = drop (scan_lower v tBegin) (take (scan_upper v tEnd) v).
Proof.
  intros Hs. unfold events_within.
  set (i := scan_lower v tBegin). set (j := scan_upper v tEnd).
  rewrite <-(take_drop j v) at 1. rewrite filter_app.
  rewrite (filter_Forall_none _ (drop j v)).
  2:{ eapply Forall_impl; [apply scan_upper_drop; done|]. simpl. lia. }
  rewrite app_nil_r.
  rewrite <-(take_drop i (take j v)) at 1. rewrite filter_app.
  rewrite (filter_Forall_none _ (take i (take j v))).
  2:{ rewrite take_take. apply Forall_lookup.
      intros k c [Hc Hk]%lookup_take_Some.
      pose proof (scan_lower_take v tBegin) as Hd. rewrite Forall_lookup in Hd.
      assert (t c < tBegin); [|lia].
      apply (Hd k). apply lookup_take_Some. split; [done|]. fold i. lia. }
  simpl. apply filter_Forall_all. apply Forall_lookup. intros k c Hc.
  rewrite lookup_drop in Hc. apply lookup_take_Some in Hc as [Hc Hk].
  split.
  - pose proof (scan_lower_drop v tBegin Hs) as Hd. rewrite Forall_lookup in Hd.
    apply (Hd k). by rewrite lookup_drop.
  - pose proof (scan_upper_take v tEnd) as Hd. rewrite Forall_lookup in Hd.
    apply (Hd (i + k)%nat). apply lookup_take_Some. done.
Qed.

Lemma first_from_scan (v : Contacts) tBegin :
  time_sorted v → first_from v tBegin = v !! scan_lower v tBegin.
Proof.
  intros Hs. unfold first_from.
  rewrite <-(take_drop (scan_lower v tBegin) v) at 1. rewrite filter_app.
  rewrite filter_Forall_none.
  2:{ eapply Forall_impl; [apply scan_lower_take|]. simpl. lia. }
  rewrite filter_Forall_all by (by apply scan_lower_drop).
  simpl. rewrite head_lookup, lookup_drop. by rewrite Nat.add_0_r.
Qed.

Lemma last_upto_scan (v : Contacts) tEnd :
  time_sorted v → last_upto v tEnd = v !! (scan_upper v tEnd - 1)%nat
  ∨ scan_upper v tEnd = 0%nat.
Proof.
  intros Hs. destruct (decide (scan_upper v tEnd = 0%nat)) as [|Hn]; [by right|].
  left. unfold last_upto.
  rewrite <-(take_drop (scan_upper v tEnd) v) at 1. rewrite filter_app.
  rewrite (filter_Forall_none _ (drop _ v)).
  2:{ eapply Forall_impl; [by apply scan_upper_drop|]. simpl. lia. }
  rewrite filter_Forall_all by apply scan_upper_take.
  rewrite app_nil_r, last_lookup, length_take_le by apply scan_upper_le.
  rewrite lookup_take_lt by lia. f_equal. lia.
Qed.

Lemma record_range_eq (v : Contacts) i j distance (res : Trace) :
  (i ≤ j ≤ length v)%nat →
  record_range v i j distance res
  = (res.1 ++ map (λ c, rowid c + 1) (drop i (take j v)),
     res.2 ++ replicate (j - i) distance).
Proof.
  intros Hij. unfold record_range.
  replace (drop i (take j v)) with (take (j - i) (drop i v)).
  2:{ rewrite take_drop_commute. do 2 f_equal. lia. }
  assert (i + (j - i) ≤ length v)%nat as Hn by lia.
  revert Hn. generalize (j - i)%nat as n. clear Hij. intros n.
  revert i res. induction n as [|n IH]; intros i res Hn.
  - simpl. rewrite !app_nil_r. by destruct res.
  - destruct (lookup_lt_is_Some_2 v i) as [c Hc]; [lia|].
    simpl. rewrite IH by lia. simpl.
    rewrite (drop_S _ _ _ Hc), (deref_lookup _ _ _ Hc). simpl.
    by rewrite <-!app_assoc.
Qed.

(** ** Ordered maps *)

Section omap_facts.
Context {V : Type}.
Implicit Types (m : list (Z * V)) (f : option V → V).

Lemma find_elem_of k m v : OMap.find k m = Some v → (k, v) ∈ m.
Proof.
  induction m as [|[k' v'] m IH]; simpl; [done|].
  destruct (Z.eqb_spec k' k) as [->|]; [|set_solver].
  intros [= ->]. set_solver.
Qed.

Lemma update_Forall_impl (P Q : Z * V → Prop) f k m :
  Forall P m → (∀ x, P x → Q x) →
  Q (k, f None) → (∀ v, P (k, v) → Q (k, f (Some v))) →
  Forall Q (OMap.update f k m).
Proof.
  intros Hm HPQ Hn Hs. induction Hm as [|[k' v'] m Hx Hm IH]; simpl.
  - by constructor.
  - destruct (Z.ltb_spec k k').
    { constructor; [done|]. constructor; [auto|]. by eapply Forall_impl. }
    destruct (Z.eqb_spec k k') as [->|]; constructor; auto.
    by eapply Forall_impl.
Qed.

Lemma update_keys_Forall (Q : Z → Prop) f k m :
  Q k → Forall Q m.*1 → Forall Q (OMap.update f k m).*1.
Proof.
  intros Hk. induction m as [|[k' v'] m IH]; simpl; intros Hm.
  - by constructor.
  - apply Forall_cons in Hm as [Hk' Hm].
    destruct (Z.ltb_spec k k'); [by repeat constructor|].
    destruct (Z.eqb_spec k k') as [->|]; constructor; auto.
Qed.

Lemma update_keys_sorted f k m :
  StronglySorted Z.lt m.*1 → StronglySorted Z.lt (OMap.update f k m).*1.
Proof.
  induction m as [|[k' v'] m IH]; simpl; intros Hm.
  - repeat constructor.
  - apply StronglySorted_inv in Hm as [Hm Hk'].
    destruct (Z.ltb_spec k k').
    + constructor; [by constructor|]. constructor; [done|].
      eapply Forall_impl; [done|]. simpl. lia.
    + destruct (Z.eqb_spec k k') as [->|]; simpl; constructor; auto.
      apply update_keys_Forall; [lia|done].
Qed.

End omap_facts.

(** ** The index that [buildContactsLookup] builds *)

Lemma push_back_at_all_buckets_impl (P Q : Z * Contacts → Prop) data i k c :
  all_buckets P data → (∀ x, P x → Q x) →
  Q (k, [c]) → (∀ v, P (k, v) → Q (k, v ++ [c])) →
  all_buckets Q (push_back_at data i k c).
Proof.
  intros Hd HPQ Hn Hs. unfold push_back_at.
  assert (all_buckets Q data) as HdQ.
  { eapply Forall_impl; [done|]. intros m Hm. by eapply Forall_impl. }
  destruct (i <? 0); [done|].
  apply Forall_lookup. intros j m. rewrite list_lookup_alter. case_decide.
  - subst j. intros Hm. destruct (data !! Z.to_nat i) as [m'|] eqn:Hm';
      simplify_eq/=.
    eapply update_Forall_impl; eauto.
    eapply (Forall_lookup_1 _ data); eauto.
  - intros Hm. eapply (Forall_lookup_1 _ data); eauto.
Qed.

Lemma push_back_at_all_buckets (Q : Z * Contacts → Prop) data i k c :
  all_buckets Q data → Q (k, [c]) → (∀ v, Q (k, v) → Q (k, v ++ [c])) →
  all_buckets Q (push_back_at data i k c).
Proof. intros. by eapply push_back_at_all_buckets_impl. Qed.

Lemma push_back_at_keys data i k c :
  Forall (λ m, StronglySorted Z.lt m.*1) data →
  Forall (λ m, StronglySorted Z.lt m.*1) (push_back_at data i k c).
Proof.
  intros Hd. unfold push_back_at. destruct (i <? 0); [done|].
  apply Forall_alter; [done|]. intros m _ Hm. by apply update_keys_sorted.
Qed.

Lemma push_back_at_length data i k c :
  length (push_back_at data i k c) = length data.
Proof. unfold push_back_at. destruct (i <? 0); [done|]. apply length_alter. Qed.

Section ordering.
Variable key : nat → Z.

Lemma order_insert_elem j l x : x ∈ order_insert key j l ↔ x = j ∨ x ∈ l.
Proof.
  induction l as [|i l IH]; simpl; [set_solver|].
  destruct (key j <=? key i); set_solver.
Qed.

Lemma order_by_elem l x : x ∈ order_by key l ↔ x ∈ l.
Proof.
  induction l as [|i l IH]; simpl; [done|].
  rewrite order_insert_elem. set_solver.
Qed.

Lemma order_insert_sorted j l :
  StronglySorted (λ a b, key a ≤ key b) l →
  StronglySorted (λ a b, key a ≤ key b) (order_insert key j l).
Proof.
  induction 1 as [|i l Hl IH Hi]; simpl; [repeat constructor|].
  destruct (Z.leb_spec (key j) (key i)).
  - constructor; [by constructor|]. constructor; [done|].
    eapply Forall_impl; [done|]. simpl. lia.
  - constructor; [done|]. apply Forall_forall. intros x.
    rewrite order_insert_elem. rewrite Forall_forall in Hi.
    intros [->|?]; [lia|auto].
Qed.

Lemma order_by_sorted l : StronglySorted (λ a b, key a ≤ key b) (order_by key l).
Proof.
  induction l as [|i l IH]; simpl; [constructor|]. by apply order_insert_sorted.
Qed.

End ordering.

Section build.
Variables (src dst ptr_t : list Z).

Let key (j : nat) : Z := nth j ptr_t 0.

Lemma build_step_all_buckets (Q : Z * Contacts → Prop) acc j :
  all_buckets Q acc.1 → all_buckets Q acc.2 →
  (∀ k c, t c = key j → rowid c = Z.of_nat j →
     (k = nth j src 0 - 1 ∨ k = nth j dst 0 - 1) →
     Q (k, [c]) ∧ ∀ v, Q (k, v) → Q (k, v ++ [c])) →
  all_buckets Q (build_step src dst ptr_t acc j).1 ∧
  all_buckets Q (build_step src dst ptr_t acc j).2.
Proof.
  intros H1 H2 HQ. unfold build_step. simpl. split.
  - apply push_back_at_all_buckets; [done|apply HQ; auto..].
  - apply push_back_at_all_buckets; [done|apply HQ; auto..].
Qed.

(** An invariant of the buckets that every [push_back] of the loop keeps
    holds of the lookups it builds. *)
Lemma build_fold_all_buckets (Q : Z * Contacts → Prop) l acc :
  all_buckets Q acc.1 → all_buckets Q acc.2 →
  (∀ j k c, j ∈ l → t c = key j → rowid c = Z.of_nat j →
     (k = nth j src 0 - 1 ∨ k = nth j dst 0 - 1) →
     Q (k, [c]) ∧ ∀ v, Q (k, v) → Q (k, v ++ [c])) →
  all_buckets Q (fold_left (build_step src dst ptr_t) l acc).1 ∧
  all_buckets Q (fold_left (build_step src dst ptr_t) l acc).2.
Proof.
  revert acc. induction l as [|j l IH]; intros acc H1 H2 HQ; simpl; [done|].
  destruct (build_step_all_buckets Q acc j H1 H2) as [H1' H2'].
  { intros k c. apply HQ. set_solver. }
  apply IH; [done..|]. intros j' k c Hj'. apply HQ. set_solver.
Qed.

Lemma build_fold_keys l acc :
  Forall (λ m, StronglySorted Z.lt m.*1) acc.1 →
  Forall (λ m, StronglySorted Z.lt m.*1) acc.2 →
  Forall (λ m, StronglySorted Z.lt m.*1)
    (fold_left (build_step src dst ptr_t) l acc).1 ∧
  Forall (λ m, StronglySorted Z.lt m.*1)
    (fold_left (build_step src dst ptr_t) l acc).2.
Proof.
  revert acc. induction l as [|j l IH]; intros acc H1 H2; simpl; [done|].
  apply IH; simpl; by apply push_back_at_keys.
Qed.

Lemma build_fold_length l acc :
  length (fold_left (build_step src dst ptr_t) l acc).1 = length acc.1 ∧
  length (fold_left (build_step src dst ptr_t) l acc).2 = length acc.2.
Proof.
  revert acc. induction l as [|j l IH]; intros acc; simpl; [done|].
  destruct (IH (build_step src dst ptr_t acc j)) as [-> ->].
  simpl. by rewrite !push_back_at_length.
Qed.

(** Pushing in an order that is ascending in time leaves every bucket
    ascending in time. *)
Lemma build_fold_sorted l acc :
  StronglySorted (λ a b, key a ≤ key b) l →
  all_buckets
    (λ it, time_sorted it.2 ∧ ∀ j, j ∈ l → Forall (λ c, t c ≤ key j) it.2) acc.1 →
  all_buckets
    (λ it, time_sorted it.2 ∧ ∀ j, j ∈ l → Forall (λ c, t c ≤ key j) it.2) acc.2 →
  all_buckets (λ it, time_sorted it.2)
    (fold_left (build_step src dst ptr_t) l acc).1 ∧
  all_buckets (λ it, time_sorted it.2)
    (fold_left (build_step src dst ptr_t) l acc).2.
Proof.
  revert acc. induction l as [|j l IH]; intros acc Hl H1 H2; simpl.
  { split; (eapply Forall_impl; [done|]); intros m Hm;
      (eapply Forall_impl; [done|]); naive_solver. }
  apply StronglySorted_inv in Hl as [Hl Hj]. rewrite Forall_forall in Hj.
  assert (∀ data i k,
    all_buckets (λ it, time_sorted it.2 ∧
      ∀ j', j' ∈ j :: l → Forall (λ c, t c ≤ key j') it.2) data →
    all_buckets (λ it, time_sorted it.2 ∧
      ∀ j', j' ∈ l → Forall (λ c, t c ≤ key j') it.2)
      (push_back_at data i k (mkContact (Z.of_nat j) k (key j)))) as Hstep.
  { intros data i k Hd. eapply push_back_at_all_buckets_impl; [done|..].
    - intros x [? Hx]. split; [done|]. intros j' ?. apply Hx. set_solver.
    - simpl. split; [repeat constructor|].
      intros j' ?. repeat constructor. simpl. auto.
    - simpl. intros v [Hv Hb]. split.
      + apply StronglySorted_app. repeat split; [|done|repeat constructor].
        intros a b Ha ->%list_elem_of_singleton. simpl.
        specialize (Hb j ltac:(set_solver)). rewrite Forall_forall in Hb. auto.
      + intros j' ?. apply Forall_app. split; [apply Hb; set_solver|].
        repeat constructor. simpl. auto. }
  apply IH; [done|simpl; by apply Hstep..].
Qed.

End build.

Lemma all_buckets_empty (Q : Z * Contacts → Prop) n :
  all_buckets Q (empty_lookup n).
Proof. apply Forall_replicate. constructor. Qed.

Lemma R_orderVector_elem ptr_t j :
  j ∈ R_orderVector ptr_t ↔ (j < length ptr_t)%nat.
Proof. unfold R_orderVector. rewrite order_by_elem, elem_of_seq. lia. Qed.

Lemma built_lookups_eq n src dst ptr_t :
  built_lookups n src dst ptr_t
  = fold_left (build_step src dst ptr_t) (R_orderVector ptr_t)
      (empty_lookup n, empty_lookup n).
Proof. reflexivity. Qed.

(** Whatever the columns hold, every bucket is ascending in time. *)
Lemma built_lookups_sorted n src dst ptr_t :
  all_buckets (λ it, time_sorted it.2) (built_lookups n src dst ptr_t).1 ∧
  all_buckets (λ it, time_sorted it.2) (built_lookups n src dst ptr_t).2.
Proof.
  rewrite built_lookups_eq. apply build_fold_sorted.
  - apply order_by_sorted.
  - apply all_buckets_empty.
  - apply all_buckets_empty.
Qed.

Lemma built_lookups_wf n src dst ptr_t :
  valid_events n src dst ptr_t →
  wf_lookup n (length ptr_t) (built_lookups n src dst ptr_t).1 ∧
  wf_lookup n (length ptr_t) (built_lookups n src dst ptr_t).2.
Proof.
  intros (Hls & Hld & Hs & Hd).
  assert (∀ j, j ∈ R_orderVector ptr_t →
            0 ≤ nth j src 0 - 1 < n ∧ 0 ≤ nth j dst 0 - 1 < n) as Hin.
  { intros j Hj%R_orderVector_elem.
    rewrite Forall_forall in Hs, Hd.
    pose proof (Hs (nth j src 0)) as H1. pose proof (Hd (nth j dst 0)) as H2.
    rewrite list_elem_of_In in H1, H2.
    specialize (H1 ltac:(apply nth_In; lia)).
    specialize (H2 ltac:(apply nth_In; lia)). lia. }
  pose proof (built_lookups_sorted n src dst ptr_t) as [S1 S2].
  rewrite built_lookups_eq in *.
  destruct (build_fold_length src dst ptr_t (R_orderVector ptr_t)
              (empty_lookup n, empty_lookup n)) as [L1 L2].
  destruct (build_fold_keys src dst ptr_t (R_orderVector ptr_t)
              (empty_lookup n, empty_lookup n)) as [K1 K2];
    [apply Forall_replicate; constructor..|].
  destruct (build_fold_all_buckets src dst ptr_t
              (λ it, 0 ≤ it.1 < n) (R_orderVector ptr_t)
              (empty_lookup n, empty_lookup n)) as [R1 R2];
    [apply all_buckets_empty..| |].
  { intros j k c Hj _ _ Hk. simpl. destruct (Hin j Hj). split; [lia|done]. }
  destruct (build_fold_all_buckets src dst ptr_t
              (λ it, Forall (λ c, 0 ≤ rowid c < Z.of_nat (length ptr_t)) it.2)
              (R_orderVector ptr_t)
              (empty_lookup n, empty_lookup n)) as [I1 I2];
    [apply all_buckets_empty..| |].
  { intros j k c Hj%R_orderVector_elem _ Hc _. simpl. split.
    - repeat constructor; lia.
    - intros v Hv. apply Forall_app. split; [done|]. repeat constructor; lia. }
  simpl in L1, L2. unfold empty_lookup in L1, L2.
  rewrite length_replicate in L1, L2.
  split; constructor; done.
Qed.

Lemma all_buckets_find (Q : Z * Contacts → Prop) data node k v :
  all_buckets Q data → OMap.find k (vec_at data node) = Some v → Q (k, v).
Proof.
  intros Hd Hf%find_elem_of. unfold vec_at in Hf.
  destruct (node <? 0); [set_solver|].
  destruct (data !! Z.to_nat node) as [m|] eqn:Hm; simpl in Hf; [|set_solver].
  pose proof (Forall_lookup_1 _ _ _ _ Hd Hm) as HQ.
  rewrite Forall_forall in HQ. auto.
Qed.

(** ** Loops *)

Lemma for_each_rel {A St : Type} (R : St → St → Prop)
    `{!Reflexive R, !Transitive R} (body : A → St → option St) l s s' :
  (∀ a s s', a ∈ l → body a s = Some s' → R s s') →
  for_each body l s = Some s' → R s s'.
Proof.
  revert s. induction l as [|a l IH]; intros s Hb; simpl.
  - by intros [= ->].
  - destruct (body a s) as [s1|] eqn:H1; [|done]. intros Hl.
    trans s1; [apply (Hb a); set_solver|].
    apply IH; [|done]. intros a' ???. apply (Hb a'). set_solver.
Qed.

Lemma for_each_inv {A St : Type} (I : St → Prop)
    (body : A → St → option St) l s s' :
  (∀ a s s', a ∈ l → body a s = Some s' → I s → I s') →
  for_each body l s = Some s' → I s → I s'.
Proof.
  revert s. induction l as [|a l IH]; intros s Hb; simpl.
  - by intros [= ->].
  - destruct (body a s) as [s1|] eqn:H1; [|done]. intros Hl Hs.
    eapply IH; [|done|].
    + intros a' ???. apply (Hb a'). set_solver.
    + eapply (Hb a); [set_solver|done..].
Qed.

Lemma for_each_total {A St : Type} (I : St → Prop)
    (body : A → St → option St) l s :
  (∀ a s, a ∈ l → I s → ∃ s', body a s = Some s' ∧ I s') →
  I s → ∃ s', for_each body l s = Some s' ∧ I s'.
Proof.
  revert s. induction l as [|a l IH]; intros s Hb Hs; simpl; [by eauto|].
  destruct (Hb a s) as (s1 & -> & Hs1); [set_solver|done|].
  apply IH; [|done]. intros a' ???. apply Hb; [set_solver|done].
Qed.

Lemma for_each_total_each {A St : Type} (I : St → Prop) (R : St → St → Prop)
    `{!Reflexive R, !Transitive R} (Q : A → St → Prop)
    (body : A → St → option St) l s :
  (∀ a s, a ∈ l → I s → ∃ s', body a s = Some s' ∧ I s' ∧ R s s' ∧ Q a s') →
  (∀ a s s', Q a s → R s s' → Q a s') →
  I s →
  ∃ s', for_each body l s = Some s' ∧ I s' ∧ R s s' ∧ ∀ a, a ∈ l → Q a s'.
Proof.
  intros Hb HQ. revert s. induction l as [|a l IH]; intros s Hs; simpl.
  { exists s. split_and!; [done..|]. intros a Ha. by apply elem_of_nil in Ha. }
  destruct (Hb a s) as (s1 & -> & Hs1 & HR1 & HQ1); [set_solver|done|].
  destruct IH with (s := s1) as (s' & Hrun & Hs' & HR' & HQ'); [|done|].
  { intros a' s0 ??. apply Hb; [set_solver|done]. }
  exists s'. split_and!; [done|done|by etrans|].
  intros a' [->|Ha']%elem_of_cons; [by eapply HQ|by apply HQ'].
Qed.

(** ** The result map of the shortest paths *)

Lemma find_update_const {V : Type} k (x : V) m :
  OMap.find k (OMap.update (λ _, x) k m) = Some x.
Proof.
  induction m as [|[k' v'] m IH]; simpl.
  - by rewrite Z.eqb_refl.
  - destruct (Z.ltb_spec k k'); simpl; [by rewrite Z.eqb_refl|].
    destruct (Z.eqb_spec k k') as [->|]; simpl; [by rewrite Z.eqb_refl|].
    destruct (Z.eqb_spec k' k); [lia|done].
Qed.

Lemma find_update_ne {V : Type} (f : option V → V) k k' m :
  k ≠ k' → OMap.find k' (OMap.update f k m) = OMap.find k' m.
Proof.
  intros Hne. induction m as [|[k1 v1] m IH]; simpl.
  - destruct (Z.eqb_spec k k'); [lia|done].
  - destruct (Z.ltb_spec k k1); simpl.
    { destruct (Z.eqb_spec k k'); [lia|done]. }
    destruct (Z.eqb_spec k k1) as [->|]; simpl.
    + destruct (Z.eqb_spec k1 k'); [lia|done].
    + by rewrite IH.
Qed.

Lemma record_path_other result first distance c k :
  k ≠ first →
  OMap.find k (record_path result first distance c) = OMap.find k result.
Proof.
  intros Hk. unfold record_path.
  destruct (OMap.find first result) as [[d r]|]; [destruct (distance <? d)|];
    try done; by apply find_update_ne.
Qed.

Lemma record_path_only_closer result first distance c :
  only_closer result (record_path result first distance c).
Proof.
  intros k d r Hk. destruct (decide (k = first)) as [->|Hne].
  - unfold record_path. rewrite Hk. destruct (Z.ltb_spec distance d).
    + rewrite find_update_const. eauto 6.
    + rewrite Hk. eauto 6.
  - rewrite record_path_other by done. eauto 6.
Qed.

#[local] Instance only_closer_refl : Reflexive only_closer.
Proof. intros m k d r Hk. eauto 6. Qed.

#[local] Instance only_closer_trans : Transitive only_closer.
Proof.
  intros m1 m2 m3 H12 H23 k d r Hk.
  destruct (H12 _ _ _ Hk) as (d2 & r2 & Hk2 & H2).
  destruct (H23 _ _ _ Hk2) as (d3 & r3 & Hk3 & H3).
  exists d3, r3. split; [done|].
  destruct H2 as [?|[= -> ->]], H3 as [?|[= -> ->]]; auto with lia.
Qed.

Lemma path_visit_qualifying self tBegin tEnd visited distance ingoing it result :
  it.1 ∉ visited →
  in_window it.2 (lower_bound it.2 0 (length it.2) tBegin) tEnd = true →
  path_visit self tBegin tEnd visited distance ingoing it result
  = let t_begin := lower_bound it.2 0 (length it.2) tBegin in
    let w := narrow ingoing it.2 t_begin
               (upper_bound it.2 t_begin (length it.2) tEnd) tBegin tEnd in
    self it.1 w.1 w.2 visited (distance + 1)
      (record_path result it.1 distance (deref it.2 t_begin)).
Proof.
  intros Hv Hw. unfold path_visit. rewrite decide_False by done.
  by rewrite Hw.
Qed.

Lemma doShortestPaths_only_closer fuel data node tBegin tEnd visited distance
    ingoing result result' :
  doShortestPaths fuel data node tBegin tEnd visited distance ingoing result
  = Some result' →
  only_closer result result'.
Proof.
  revert node tBegin tEnd visited distance result result'.
  induction fuel as [|fuel IH]; intros node tBegin tEnd visited distance
    result result'; simpl; [done|].
  apply (for_each_rel only_closer). intros it r r' _. unfold path_visit.
  case_decide; [by intros [= ->]|].
  destruct (in_window _ _ _); [|by intros [= ->]].
  intros Hr%IH. etrans; [|done]. apply record_path_only_closer.
Qed.

(** ** The window of a descent *)

Lemma partition_point_bounds p fuel (v : Contacts) first len :
  (first ≤ partition_point fuel p v first len ≤ first + len)%nat.
Proof.
  revert first len. induction fuel as [|fuel IH]; intros first len.
  - simpl. lia.
  - rewrite partition_point_S. destruct (Nat.eqb_spec len 0); [lia|].
    pose proof (Nat.div2_div len) as Hd.
    assert (Nat.div2 len < len)%nat by (rewrite Hd; apply Nat.div_lt; lia).
    destruct (p _).
    + pose proof (IH (S (first + Nat.div2 len)) (len - Nat.div2 len - 1)%nat). lia.
    + pose proof (IH first (Nat.div2 len)). lia.
Qed.

Lemma lower_bound_bounds (v : Contacts) first last val :
  (first ≤ last → first ≤ lower_bound v first last val ≤ last)%nat.
Proof.
  intros. unfold lower_bound.
  pose proof (partition_point_bounds (λ c, CompareContact_elem_val c val)
                (last - first) v first (last - first)). lia.
Qed.

Lemma upper_bound_bounds (v : Contacts) first last val :
  (first ≤ last → first ≤ upper_bound v first last val ≤ last)%nat.
Proof.
  intros. unfold upper_bound.
  pose proof (partition_point_bounds
                (λ c, negb (CompareContact_val_elem val c))
                (last - first) v first (last - first)). lia.
Qed.

(** The window handed down from a sorted bucket that holds an event of the
    window: its ends are the times of bucket events inside the window. *)
Lemma narrow_sorted (ingoing : bool) (v : Contacts) tBegin tEnd :
  time_sorted v →
  in_window v (lower_bound v 0 (length v) tBegin) tEnd = true →
  ∃ ci cj,
    first_from v tBegin = Some ci ∧ last_upto v tEnd = Some cj ∧
    narrow ingoing v (lower_bound v 0 (length v) tBegin)
      (upper_bound v (lower_bound v 0 (length v) tBegin) (length v) tEnd)
      tBegin tEnd
    = (if ingoing then (tBegin, t cj) else (t ci, tEnd)) ∧
    tBegin ≤ t ci ∧ t ci ≤ t cj ∧ t cj ≤ tEnd.
Proof.
  intros Hs Hw.
  destruct (qualifying_sorted _ _ _ Hs Hw)
    as (i & j & ci & cj & Hi & Hi' & Hj & Hj' & Hij & Hci & Hcj & Hb).
  exists ci, cj. rewrite Hi, Hj.
  split; [by rewrite first_from_scan, <-Hi'|].
  split.
  { destruct (last_upto_scan v tEnd Hs) as [->|]; [by rewrite <-Hj'|lia]. }
  split; [|done]. unfold narrow.
  by rewrite (deref_lookup _ _ _ Hci), (deref_lookup _ _ _ Hcj).
Qed.

(** ** What a turn of the trace records *)

Lemma all_buckets_vec_at (Q : Z * Contacts → Prop) data node it :
  all_buckets Q data → it ∈ vec_at data node → Q it.
Proof.
  intros Hd Hit. unfold vec_at in Hit.
  destruct (node <? 0); [set_solver|].
  destruct (data !! Z.to_nat node) as [m|] eqn:Hm; simpl in Hit; [|set_solver].
  pose proof (Forall_lookup_1 _ _ _ _ Hd Hm) as HQ.
  rewrite Forall_forall in HQ. auto.
Qed.

Lemma trace_visit_qualifying self tBegin tEnd (visited : gset Z) distance
    ingoing maxDistance (it : Z * Contacts) (res : Trace) :
  it.1 ∉ visited →
  in_window it.2 (lower_bound it.2 0 (length it.2) tBegin) tEnd = true →
  trace_visit self tBegin tEnd visited distance ingoing maxDistance it res
  = let t_begin := lower_bound it.2 0 (length it.2) tBegin in
    let t_end := upper_bound it.2 t_begin (length it.2) tEnd in
    let res1 :=
      (res.1 ++ map (λ c, rowid c + 1) (drop t_begin (take t_end it.2)),
       res.2 ++ replicate (t_end - t_begin) distance) in
    if depth_reached maxDistance distance then Some res1
    else
      let w := narrow ingoing it.2 t_begin t_end tBegin tEnd in
      self it.1 w.1 w.2 visited (distance + 1) res1.
Proof.
  intros Hv Hw. unfold trace_visit. rewrite decide_False by done.
  rewrite Hw. simpl.
  pose proof (lower_bound_bounds it.2 0 (length it.2) tBegin ltac:(lia)).
  pose proof (upper_bound_bounds it.2
    (lower_bound it.2 0 (length it.2) tBegin) (length it.2) tEnd ltac:(lia)).
  by rewrite record_range_eq by lia.
Qed.

(** ** C9: termination of the searches that carry their path *)

Lemma elem_of_identifiers n k : k ∈ identifiers n ↔ 0 ≤ k < n.
Proof. unfold identifiers. rewrite elem_of_list_to_set, elem_of_seqZ. lia. Qed.

Lemma size_identifiers n : size (identifiers n) = Z.to_nat n.
Proof.
  unfold identifiers. rewrite size_list_to_set by apply NoDup_seqZ.
  apply length_seqZ.
Qed.

(** Off the path there are fewer identifiers once a neighbour in range
    has joined it. *)
Lemma off_path_shrinks n (visited : gset Z) k :
  0 ≤ k < n → k ∉ visited →
  (size (identifiers n ∖ ({[k]} ∪ visited)) < size (identifiers n ∖ visited))%nat.
Proof.
  intros Hk Hv. apply subset_size.
  apply elem_of_identifiers in Hk. set_solver.
Qed.

Lemma off_path_bound n (visited : gset Z) :
  (size (identifiers n ∖ visited) ≤ Z.to_nat n)%nat.
Proof.
  rewrite <-size_identifiers. apply subseteq_size. set_solver.
Qed.

(** The recursion of [doShortestPaths] is no deeper than the number of
    identifiers off the path. *)
Lemma doShortestPaths_total n data fuel node tBegin tEnd (visited : gset Z)
    distance ingoing result :
  all_buckets (λ it, 0 ≤ it.1 < n) data →
  (size (identifiers n ∖ ({[node]} ∪ visited)) < fuel)%nat →
  is_Some (doShortestPaths fuel data node tBegin tEnd visited distance ingoing
             result).
Proof.
  intros Hd. revert node tBegin tEnd visited distance result.
  induction fuel as [|fuel IH]; intros node tBegin tEnd visited distance result
    Hfuel; [lia|].
  simpl.
  destruct (for_each_total (λ _, True)
    (path_visit
       (λ n t0 t1 vs d r, doShortestPaths fuel data n t0 t1 vs d ingoing r)
       tBegin tEnd ({[node]} ∪ visited) distance ingoing)
    (vec_at data node) result) as (r' & -> & _); [|done|done].
  intros it r Hit _. unfold path_visit.
  case_decide as Hv; [by eauto|].
  destruct (in_window _ _ _); [|by eauto].
  edestruct IH as [r' ->]; [|by eauto].
  pose proof (all_buckets_vec_at _ _ _ _ Hd Hit) as Hk. simpl in Hk.
  pose proof (off_path_shrinks n _ _ Hk Hv). lia.
Qed.

Lemma doTraceContacts_total n data fuel node tBegin tEnd (visited : gset Z)
    distance ingoing res maxDistance :
  all_buckets (λ it, 0 ≤ it.1 < n) data →
  (size (identifiers n ∖ ({[node]} ∪ visited)) < fuel)%nat →
  is_Some (doTraceContacts fuel data node tBegin tEnd visited distance ingoing
             res maxDistance).
Proof.
  intros Hd. revert node tBegin tEnd visited distance res.
  induction fuel as [|fuel IH]; intros node tBegin tEnd visited distance res
    Hfuel; [lia|].
  simpl.
  destruct (for_each_total (λ _, True)
    (trace_visit
       (λ n t0 t1 vs d r,
          doTraceContacts fuel data n t0 t1 vs d ingoing r maxDistance)
       tBegin tEnd ({[node]} ∪ visited) distance ingoing maxDistance)
    (vec_at data node) res) as (r' & -> & _); [|done|done].
  intros it r Hit _. unfold trace_visit.
  case_decide as Hv; [by eauto|].
  destruct (in_window _ _ _); [|by eauto].
  destruct (depth_reached _ _); [by eauto|].
  edestruct IH as [r' ->]; [|by eauto].
  pose proof (all_buckets_vec_at _ _ _ _ Hd Hit) as Hk. simpl in Hk.
  pose proof (off_path_shrinks n _ _ Hk Hv). lia.
Qed.

(** ** The visited nodes of the contact chain *)

Section visited_nodes.
Variable ingoing : bool.
Implicit Types (vn : VisitedNodes) (k node : Z).

Lemma entry_set_eq vn k e c :
  0 ≤ k < Z.of_nat (length (visitedNodes vn)) →
  entry (mkVisitedNodes c (set_entry vn k e)) k = e.
Proof.
  intros Hk. unfold entry, set_entry. simpl.
  destruct (Z.ltb_spec k 0); [lia|].
  rewrite list_lookup_insert_eq by lia. done.
Qed.

Lemma entry_set_ne vn k k' e c :
  k ≠ k' → entry (mkVisitedNodes c (set_entry vn k e)) k' = entry vn k'.
Proof.
  intros Hk. unfold entry, set_entry. simpl.
  destruct (Z.ltb_spec k' 0); [done|].
  destruct (Z.ltb_spec k 0); [done|].
  rewrite list_lookup_insert_ne by lia. done.
Qed.

Lemma set_entry_length vn k e :
  length (set_entry vn k e) = length (visitedNodes vn).
Proof. unfold set_entry. destruct (k <? 0); [done|]. apply length_insert. Qed.

Lemma Update_length vn node tBegin tEnd :
  length (visitedNodes (Update vn node tBegin tEnd ingoing))
  = length (visitedNodes vn).
Proof.
  unfold Update.
  repeat (match goal with |- context [if ?b then _ else _] => destruct b end);
    simpl; auto using set_entry_length.
Qed.

Lemma Update_entry_other vn node tBegin tEnd k :
  k ≠ node → entry (Update vn node tBegin tEnd ingoing) k = entry vn k.
Proof.
  intros Hk. unfold Update.
  repeat (match goal with |- context [if ?b then _ else _] => destruct b end);
    auto using entry_set_ne.
Qed.

Lemma Update_entry_self vn node tBegin tEnd :
  0 ≤ node < Z.of_nat (length (visitedNodes vn)) →
  (entry (Update vn node tBegin tEnd ingoing) node).1 = true ∧
  wrank ingoing tBegin tEnd
  ≤ brank ingoing (entry (Update vn node tBegin tEnd ingoing) node).2 ∧
  ((entry vn node).1 = true →
   brank ingoing (entry vn node).2
   ≤ brank ingoing (entry (Update vn node tBegin tEnd ingoing) node).2).
Proof.
  intros Hk. unfold Update, wrank, brank.
  destruct (entry vn node) as [b bound] eqn:He. simpl.
  destruct b, ingoing; simpl.
  - destruct (Z.gtb_spec tEnd bound).
    + rewrite entry_set_eq by done. simpl. lia.
    + rewrite He. simpl. lia.
  - destruct (Z.ltb_spec tBegin bound).
    + rewrite entry_set_eq by done. simpl. lia.
    + rewrite He. simpl. lia.
  - rewrite entry_set_eq by done. simpl. split_and!; [done|lia|done].
  - rewrite entry_set_eq by done. simpl. split_and!; [done|lia|done].
Qed.

Lemma Update_grows vn node tBegin tEnd :
  grows ingoing vn (Update vn node tBegin tEnd ingoing).
Proof.
  split; [apply Update_length|]. intros k Hk.
  destruct (decide (k = node)) as [->|Hne].
  - unfold Update. rewrite Hk.
    destruct (entry vn node) as [b bound] eqn:He. simpl in *. subst b.
    unfold brank. destruct ingoing.
    + destruct (Z.gtb_spec tEnd bound); [|by rewrite He].
      destruct (decide (0 ≤ node < Z.of_nat (length (visitedNodes vn)))).
      * rewrite entry_set_eq by done. simpl. lia.
      * unfold entry, set_entry in *. simpl.
        destruct (Z.ltb_spec node 0); [done|].
        rewrite list_insert_ge by lia. by rewrite He.
    + destruct (Z.ltb_spec tBegin bound); [|by rewrite He].
      destruct (decide (0 ≤ node < Z.of_nat (length (visitedNodes vn)))).
      * rewrite entry_set_eq by done. simpl. lia.
      * unfold entry, set_entry in *. simpl.
        destruct (Z.ltb_spec node 0); [done|].
        rewrite list_insert_ge by lia. by rewrite He.
  - by rewrite Update_entry_other.
Qed.

Lemma Visit_true vn k tBegin tEnd :
  Visit vn k tBegin tEnd ingoing = true ↔
  (entry vn k).1 = false
  ∨ brank ingoing (entry vn k).2 < wrank ingoing tBegin tEnd.
Proof.
  unfold Visit, brank, wrank.
  destruct (entry vn k) as [[] bound]; simpl; [|naive_solver].
  destruct ingoing.
  - destruct (Z.leb_spec tEnd bound).
    + split; [done|]. intros [?|?]; [done|lia].
    + split; [|done]. intros _. right. lia.
  - destruct (Z.geb_spec tBegin bound).
    + split; [done|]. intros [?|?]; [done|lia].
    + split; [|done]. intros _. right. lia.
Qed.

Lemma elem_of_marked vn k :
  k ∈ marked vn ↔
  (entry vn k).1 = true ∧ 0 ≤ k < Z.of_nat (length (visitedNodes vn)).
Proof. unfold marked. by rewrite elem_of_filter, elem_of_identifiers. Qed.

Lemma elem_of_open_to r vn k :
  k ∈ open_to ingoing r vn ↔
  ((entry vn k).1 = false ∨ brank ingoing (entry vn k).2 < r) ∧
  0 ≤ k < Z.of_nat (length (visitedNodes vn)).
Proof. unfold open_to. by rewrite elem_of_filter, elem_of_identifiers. Qed.

Lemma open_to_mono vn vn' r r' :
  grows ingoing vn vn' → r' ≤ r →
  open_to ingoing r' vn' ⊆ open_to ingoing r vn.
Proof.
  intros [Hl Hg] Hr k. rewrite !elem_of_open_to, Hl. intros [Hk ?].
  split; [|done].
  destruct (entry vn k).1 eqn:He; [|by left]. right.
  destruct (Hg k He) as [He' ?]. destruct Hk as [Hk|Hk]; [congruence|lia].
Qed.

Lemma open_to_bound vn r :
  (size (open_to ingoing r vn) ≤ length (visitedNodes vn))%nat.
Proof.
  trans (size (identifiers (Z.of_nat (length (visitedNodes vn))))).
  - apply subseteq_size.
    intros k. rewrite elem_of_open_to, elem_of_identifiers. tauto.
  - by rewrite size_identifiers, Nat2Z.id.
Qed.

(** A node that a window is let through to is closed to every window that
    is no further, once it has been updated with one: the recursion of
    [contactChain] has fewer nodes open at every level. *)
Lemma open_to_shrinks vn k r tBegin' tEnd' :
  k ∈ open_to ingoing r vn →
  wrank ingoing tBegin' tEnd' ≤ r →
  (size (open_to ingoing (wrank ingoing tBegin' tEnd')
           (Update vn k tBegin' tEnd' ingoing))
   < size (open_to ingoing r vn))%nat.
Proof.
  intros Hk Hr. apply subset_size.
  pose proof (open_to_mono _ _ _ _ (Update_grows vn k tBegin' tEnd') Hr) as Hsub.
  split; [done|]. intros Hsup. specialize (Hsup k Hk).
  apply elem_of_open_to in Hsup as [Hopen Hin].
  rewrite Update_length in Hin.
  destruct (Update_entry_self vn k tBegin' tEnd' Hin) as (Hm & Hb & _).
  destruct Hopen; [congruence|lia].
Qed.

Lemma marked_Update vn node tBegin tEnd :
  0 ≤ node < Z.of_nat (length (visitedNodes vn)) →
  marked (Update vn node tBegin tEnd ingoing) = {[node]} ∪ marked vn.
Proof.
  intros Hk. apply set_eq. intros k.
  rewrite elem_of_union, elem_of_singleton, !elem_of_marked, Update_length.
  destruct (decide (k = node)) as [->|Hne].
  - destruct (Update_entry_self vn node tBegin tEnd Hk) as (-> & _). naive_solver.
  - rewrite Update_entry_other by done. naive_solver.
Qed.

Lemma Update_counted vn node tBegin tEnd :
  0 ≤ node < Z.of_nat (length (visitedNodes vn)) →
  counted vn → counted (Update vn node tBegin tEnd ingoing).
Proof.
  intros Hk Hc. unfold counted in *. rewrite marked_Update by done.
  destruct (entry vn node).1 eqn:He.
  - assert (node ∈ marked vn) by by apply elem_of_marked.
    replace ({[node]} ∪ marked vn) with (marked vn) by set_solver.
    rewrite <-Hc. unfold Update, N. rewrite He.
    repeat (match goal with |- context [if ?b then _ else _] => destruct b end);
      done.
  - assert (node ∉ marked vn).
    { rewrite elem_of_marked. intros [? _]. congruence. }
    rewrite size_union by set_solver. rewrite size_singleton.
    unfold Update, N in *. rewrite He. simpl. lia.
Qed.

End visited_nodes.

(** ** C9: the recursion of the contact chain *)

#[local] Instance grows_refl ingoing : Reflexive (grows ingoing).
Proof. intros vn. split; [done|]. intros k Hk. split; [done|lia]. Qed.

#[local] Instance grows_trans ingoing : Transitive (grows ingoing).
Proof.
  intros v1 v2 v3 [L12 H12] [L23 H23]. split; [congruence|].
  intros k Hk. destruct (H12 k Hk) as [Hk2 ?]. destruct (H23 k Hk2).
  split; [done|lia].
Qed.

(** On a sorted bucket the test of the code holds exactly when the bucket
    has an event inside the window. *)
Lemma in_window_events (v : Contacts) tBegin tEnd :
  time_sorted v →
  in_window v (lower_bound v 0 (length v) tBegin) tEnd = true
  ↔ events_within v tBegin tEnd ≠ [].
Proof.
  intros Hs. split.
  - intros Hw.
    destruct (qualifying_sorted _ _ _ Hs Hw)
      as (i & j & ci & cj & Hi & Hi' & Hj & Hj' & Hij & _).
    rewrite events_within_range by done. rewrite <-Hi', <-Hj'.
    intros E%(f_equal length). rewrite length_drop, length_take_le in E; simpl in E; lia.
  - intros Hne.
    destruct (events_within v tBegin tEnd) as [|c l] eqn:E; [done|].
    assert (c ∈ events_within v tBegin tEnd) as Hc by (rewrite E; set_solver).
    apply list_elem_of_filter in Hc as [Hc [k Hk]%list_elem_of_lookup].
    rewrite lower_bound_scan by done.
    pose proof (scan_lower_le v tBegin).
    assert (scan_lower v tBegin ≤ k)%nat as Hik.
    { destruct (decide (scan_lower v tBegin ≤ k)%nat); [done|].
      pose proof (scan_lower_take v tBegin) as Hd. rewrite Forall_lookup in Hd.
      assert (t c < tBegin); [|lia].
      apply (Hd k). apply lookup_take_Some. split; [done|lia]. }
    pose proof (lookup_lt_Some _ _ _ Hk).
    destruct (lookup_lt_is_Some_2 v (scan_lower v tBegin)) as [ci Hci]; [lia|].
    pose proof (time_sorted_lookup _ _ _ _ _ Hs Hik Hci Hk).
    unfold in_window. rewrite (deref_lookup _ _ _ Hci).
    apply andb_true_iff. split.
    + apply negb_true_iff, Nat.eqb_neq. lia.
    + lia.
Qed.

Lemma grows_marked ingoing vn vn' k :
  grows ingoing vn vn' → k ∈ marked vn → k ∈ marked vn'.
Proof.
  intros [Hl Hg]. rewrite !elem_of_marked, Hl. intros [Hk ?].
  split; [|done]. by apply Hg.
Qed.

Lemma chain_descent_Some vn tBegin tEnd ingoing (it : Z * Contacts) w :
  chain_descent vn tBegin tEnd ingoing it = Some w ↔
  Visit vn it.1 tBegin tEnd ingoing = true ∧
  in_window it.2 (lower_bound it.2 0 (length it.2) tBegin) tEnd = true ∧
  w = narrow ingoing it.2 (lower_bound it.2 0 (length it.2) tBegin)
        (upper_bound it.2 (lower_bound it.2 0 (length it.2) tBegin)
           (length it.2) tEnd) tBegin tEnd.
Proof.
  unfold chain_descent.
  destruct (Visit _ _ _ _ _); [|naive_solver].
  destruct (in_window _ _ _); naive_solver.
Qed.

Lemma narrow_rank (ingoing : bool) (v : Contacts) tBegin tEnd :
  time_sorted v →
  in_window v (lower_bound v 0 (length v) tBegin) tEnd = true →
  let w := narrow ingoing v (lower_bound v 0 (length v) tBegin)
             (upper_bound v (lower_bound v 0 (length v) tBegin) (length v) tEnd)
             tBegin tEnd in
  wrank ingoing w.1 w.2 ≤ wrank ingoing tBegin tEnd.
Proof.
  intros Hs Hw.
  destruct (narrow_sorted ingoing _ _ _ Hs Hw) as (ci & cj & _ & _ & -> & Hb).
  unfold wrank. destruct ingoing; simpl; lia.
Qed.

(** With as much fuel as there are nodes open to its window, [contactChain]
    returns; the state it returns comes after the one it updated, and the
    counter still counts the marked nodes. *)
Lemma contactChain_spec n data ingoing fuel node tBegin tEnd vn :
  all_buckets (λ it, 0 ≤ it.1 < n) data →
  all_buckets (λ it, time_sorted it.2) data →
  0 ≤ node < n →
  length (visitedNodes vn) = Z.to_nat n →
  (size (open_to ingoing (wrank ingoing tBegin tEnd)
           (Update vn node tBegin tEnd ingoing)) < fuel)%nat →
  ∃ vn',
    contactChain fuel data node tBegin tEnd vn ingoing = Some vn' ∧
    grows ingoing (Update vn node tBegin tEnd ingoing) vn' ∧
    (counted vn → counted vn') ∧
    (∀ it, it ∈ vec_at data node → events_within it.2 tBegin tEnd ≠ [] →
           it.1 ∈ marked vn').
Proof.
  intros Hrange Hsorted. revert node tBegin tEnd vn.
  induction fuel as [|fuel IH]; intros node tBegin tEnd vn Hnode Hlen Hfuel;
    [lia|].
  simpl. set (vn1 := Update vn node tBegin tEnd ingoing) in *.
  destruct (for_each_total_each
    (λ s, grows ingoing vn1 s ∧ (counted vn → counted s))
    (grows ingoing)
    (λ it s, events_within it.2 tBegin tEnd ≠ [] → it.1 ∈ marked s)
    (chain_visit (λ n t0 t1 s, contactChain fuel data n t0 t1 s ingoing)
       tBegin tEnd ingoing)
    (vec_at data node) vn1) as (vn' & -> & [Hg Hc] & _ & Hall);
    [| | |by eauto].
  - intros it s Hit [Hg Hc]. unfold chain_visit.
    pose proof (all_buckets_vec_at _ _ _ _ Hrange Hit) as Hk.
    pose proof (all_buckets_vec_at _ _ _ _ Hsorted Hit) as Hs.
    simpl in Hk, Hs.
    assert (length (visitedNodes s) = Z.to_nat n) as Hls.
    { destruct Hg as [-> _]. unfold vn1. by rewrite Update_length. }
    destruct (chain_descent s tBegin tEnd ingoing it) as [w|] eqn:Hdesc.
    + apply chain_descent_Some in Hdesc as (HV & Hw & Hn).
      pose proof (narrow_rank ingoing _ _ _ Hs Hw) as Hr.
      simpl in Hr. rewrite <-Hn in Hr.
      assert (it.1 ∈ open_to ingoing (wrank ingoing tBegin tEnd) s) as Hopen.
      { apply elem_of_open_to. split; [by apply Visit_true|lia]. }
      pose proof (open_to_shrinks ingoing s it.1 _ w.1 w.2 Hopen Hr) as Hlt.
      pose proof (subseteq_size _ _
        (open_to_mono ingoing vn1 s _ _ Hg
           (Z.le_refl (wrank ingoing tBegin tEnd)))) as Hle.
      destruct (IH it.1 w.1 w.2 s) as (s' & -> & Hg' & Hc' & _);
        [done|done|lia|].
      assert (grows ingoing s s') as Hss'.
      { etrans; [apply Update_grows|done]. }
      exists s'. split_and!; [done|by etrans|tauto|done|].
      intros _. apply (grows_marked _ _ _ _ Hg'). apply elem_of_marked.
      rewrite Update_length. split; [|lia].
      apply Update_entry_self. lia.
    + exists s. split_and!; [done..|]. intros Hev%in_window_events; [|done].
      unfold chain_descent in Hdesc. rewrite Hev in Hdesc.
      destruct (Visit s it.1 tBegin tEnd ingoing) eqn:HV; [done|].
      apply elem_of_marked. split; [|lia].
      destruct (entry s it.1).1 eqn:He; [done|].
      assert (Visit s it.1 tBegin tEnd ingoing = true); [|congruence].
      apply Visit_true. by left.
  - intros it s s' Hm Hg' Hev. by eapply grows_marked; [|apply Hm].
  - split; [done|]. intros Hv. apply Update_counted; [lia|done].
Qed.

(** What one turn of each loop comes to: either it leaves without a
    recursive call, or it makes exactly one, to a neighbour that is off the
    path (that [Visit] lets through, for the contact chain), with a window
    inside the current one. *)
Lemma path_visit_cases tBegin tEnd (visited : gset Z) distance (ingoing : bool)
    (it : Z * Contacts) (result : PathMap) :
  time_sorted it.2 →
  (∃ result', ∀ self,
     path_visit self tBegin tEnd visited distance ingoing it result
     = Some result')
  ∨ ((it.1 ∉ visited) ∧ ∃ (w : Z * Z) result1,
       tBegin ≤ w.1 ∧ w.2 ≤ tEnd ∧ ∀ self,
         path_visit self tBegin tEnd visited distance ingoing it result
         = self it.1 w.1 w.2 visited (distance + 1) result1).
Proof.
  intros Hs. unfold path_visit.
  destruct (decide (it.1 ∈ visited)) as [|Hv]; [by eauto|].
  destruct (in_window _ _ _) eqn:Hw; [|by eauto].
  right. split; [done|].
  destruct (narrow_sorted ingoing _ _ _ Hs Hw) as (ci & cj & _ & _ & Hn & Hb).
  eexists _, _. split_and!; [| |done]; rewrite Hn; destruct ingoing; simpl; lia.
Qed.

Lemma trace_visit_cases tBegin tEnd (visited : gset Z) distance (ingoing : bool)
    maxDistance (it : Z * Contacts) (res : Trace) :
  time_sorted it.2 →
  (∃ res', ∀ self,
     trace_visit self tBegin tEnd visited distance ingoing maxDistance it res
     = Some res')
  ∨ ((it.1 ∉ visited) ∧ ∃ (w : Z * Z) res1,
       tBegin ≤ w.1 ∧ w.2 ≤ tEnd ∧ ∀ self,
         trace_visit self tBegin tEnd visited distance ingoing maxDistance
           it res
         = self it.1 w.1 w.2 visited (distance + 1) res1).
Proof.
  intros Hs. unfold trace_visit.
  destruct (decide (it.1 ∈ visited)) as [|Hv]; [by eauto|].
  destruct (in_window _ _ _) eqn:Hw; [|by eauto].
  destruct (depth_reached _ _); [by eauto|].
  right. split; [done|].
  destruct (narrow_sorted ingoing _ _ _ Hs Hw) as (ci & cj & _ & _ & Hn & Hb).
  eexists _, _. split_and!; [| |done]; rewrite Hn; destruct ingoing; simpl; lia.
Qed.

Lemma chain_visit_cases tBegin tEnd (ingoing : bool) (it : Z * Contacts) vn :
  time_sorted it.2 →
  (∀ self, chain_visit self tBegin tEnd ingoing it vn = Some vn)
  ∨ (Visit vn it.1 tBegin tEnd ingoing = true ∧ ∃ w : Z * Z,
       tBegin ≤ w.1 ∧ w.2 ≤ tEnd ∧ ∀ self,
         chain_visit self tBegin tEnd ingoing it vn = self it.1 w.1 w.2 vn).
Proof.
  intros Hs. unfold chain_visit.
  destruct (chain_descent vn tBegin tEnd ingoing it) as [w|] eqn:Hd;
    [|by left].
  apply chain_descent_Some in Hd as (HV & Hw & ->).
  right. split; [done|].
  destruct (narrow_sorted ingoing _ _ _ Hs Hw) as (ci & cj & _ & _ & Hn & Hb).
  eexists. split_and!; [| |done]; rewrite Hn; destruct ingoing; simpl; lia.
Qed.

(** C9. On the lookups built from event columns with identifiers in range,
    each of the three recursive searches returns, from every node in range,
    window, path or visited state, as soon as its fuel exceeds the number of
    identifiers: the recursion is never deeper than that. Every turn of
    their loops either makes no recursive call, or makes one to a
    neighbour that is not on the path (for the contact chain, one that
    [Visit] lets through, and that the call closes to this window and to
    every window inside it), with a window that lies inside the current
    one. *)
Theorem searches_terminate n src dst ptr_t data :
  valid_events n src dst ptr_t →
  data = (built_lookups n src dst ptr_t).1
  ∨ data = (built_lookups n src dst ptr_t).2 →
  (∀ fuel node tBegin tEnd (visited : gset Z) distance ingoing result,
     0 ≤ node < n → (Z.to_nat n < fuel)%nat →
     is_Some (doShortestPaths fuel data node tBegin tEnd visited distance
                ingoing result)) ∧
  (∀ fuel node tBegin tEnd (visited : gset Z) distance ingoing res maxDistance,
     0 ≤ node < n → (Z.to_nat n < fuel)%nat →
     is_Some (doTraceContacts fuel data node tBegin tEnd visited distance
                ingoing res maxDistance)) ∧
  (∀ fuel node tBegin tEnd vn ingoing,
     0 ≤ node < n → length (visitedNodes vn) = Z.to_nat n →
     (Z.to_nat n < fuel)%nat →
     is_Some (contactChain fuel data node tBegin tEnd vn ingoing)) ∧
  (∀ node it tBegin tEnd (ingoing : bool),
     it ∈ vec_at data node →
     (∀ (visited : gset Z) distance result,
        (∃ result', ∀ self,
           path_visit self tBegin tEnd visited distance ingoing it result
           = Some result')
        ∨ ((it.1 ∉ visited) ∧ ∃ (w : Z * Z) result1,
             tBegin ≤ w.1 ∧ w.2 ≤ tEnd ∧ ∀ self,
               path_visit self tBegin tEnd visited distance ingoing it result
               = self it.1 w.1 w.2 visited (distance + 1) result1)) ∧
     (∀ (visited : gset Z) distance maxDistance res,
        (∃ res', ∀ self,
           trace_visit self tBegin tEnd visited distance ingoing maxDistance
             it res
           = Some res')
        ∨ ((it.1 ∉ visited) ∧ ∃ (w : Z * Z) res1,
             tBegin ≤ w.1 ∧ w.2 ≤ tEnd ∧ ∀ self,
               trace_visit self tBegin tEnd visited distance ingoing
                 maxDistance it res
               = self it.1 w.1 w.2 visited (distance + 1) res1)) ∧
     (∀ vn,
        length (visitedNodes vn) = Z.to_nat n →
        (∀ self, chain_visit self tBegin tEnd ingoing it vn = Some vn)
        ∨ (Visit vn it.1 tBegin tEnd ingoing = true ∧ ∃ w : Z * Z,
             tBegin ≤ w.1 ∧ w.2 ≤ tEnd ∧
             (size (open_to ingoing (wrank ingoing w.1 w.2)
                      (Update vn it.1 w.1 w.2 ingoing))
              < size (open_to ingoing (wrank ingoing tBegin tEnd) vn))%nat ∧
             ∀ self,
               chain_visit self tBegin tEnd ingoing it vn
               = self it.1 w.1 w.2 vn))).
Proof.
  intros Hvalid Hdata.
  assert (wf_lookup n (length ptr_t) data) as [Hsize Hkeys Hrange Hsorted _].
  { destruct (built_lookups_wf n src dst ptr_t Hvalid).
    by destruct Hdata as [-> | ->]. }
  split_and!.
  - intros. eapply doShortestPaths_total; [done|].
    pose proof (off_path_bound n ({[node]} ∪ visited)). lia.
  - intros. eapply doTraceContacts_total; [done|].
    pose proof (off_path_bound n ({[node]} ∪ visited)). lia.
  - intros fuel node tBegin tEnd vn ingoing Hnode Hlen Hfuel.
    destruct (contactChain_spec n data ingoing fuel node tBegin tEnd vn)
      as (vn' & -> & _); [done..| |done].
    pose proof (open_to_bound ingoing
      (Update vn node tBegin tEnd ingoing) (wrank ingoing tBegin tEnd)) as Hb.
    rewrite Update_length in Hb. lia.
  - intros node it tBegin tEnd ingoing Hit.
    pose proof (all_buckets_vec_at _ _ _ _ Hsorted Hit) as Hs.
    pose proof (all_buckets_vec_at _ _ _ _ Hrange Hit) as Hk.
    simpl in Hs, Hk. split_and!.
    + intros. by apply path_visit_cases.
    + intros. by apply trace_visit_cases.
    + intros vn Hlen.
      destruct (chain_visit_cases tBegin tEnd ingoing it vn Hs)
        as [|(HV & w & H1 & H2 & Hself)]; [by left|right].
      split; [done|]. exists w. split_and!; [done..| |done].
      apply open_to_shrinks.
      * apply elem_of_open_to. split; [by apply Visit_true|lia].
      * unfold wrank. destruct ingoing; lia.
Qed.

Lemma ex_valid : valid_events 3 ex_src ex_dst ex_t.
Proof.
  split_and!; [reflexivity|reflexivity| |];
    repeat constructor; simpl; lia.
Defined.

Lemma searches_terminate_witness :
  valid_events 3 ex_src ex_dst ex_t ∧
  is_Some (doShortestPaths 4 (built_lookups 3 ex_src ex_dst ex_t).2 0 0 100 ∅ 1
             false []) ∧
  is_Some (contactChain 4 (built_lookups 3 ex_src ex_dst ex_t).2 0 0 100
             (VisitedNodes_new 3) false).
Proof.
  split; [exact ex_valid|].
  destruct (searches_terminate 3 ex_src ex_dst ex_t
              (built_lookups 3 ex_src ex_dst ex_t).2 ex_valid
              (or_intror eq_refl)) as (Hpaths & _ & Hchain & _).
  split.
  - apply Hpaths; [lia|simpl; lia].
  - apply Hchain; [lia|reflexivity|simpl; lia].
Defined.

(** ** The chain of a root *)

Lemma VisitedNodes_new_length n :
  length (visitedNodes (VisitedNodes_new n)) = Z.to_nat n.
Proof. apply length_replicate. Qed.

Lemma VisitedNodes_new_entry n k : entry (VisitedNodes_new n) k = (false, 0).
Proof.
  unfold entry, VisitedNodes_new. simpl. destruct (k <? 0); [done|].
  destruct (replicate _ _ !! _) as [e|] eqn:He; [|done].
  by apply lookup_replicate in He as [-> _].
Qed.

Lemma VisitedNodes_new_counted n : counted (VisitedNodes_new n).
Proof.
  unfold counted, N. simpl.
  replace (marked (VisitedNodes_new n)) with (∅ : gset Z); [done|].
  symmetry. apply set_eq. intros k. rewrite elem_of_marked.
  rewrite VisitedNodes_new_entry. set_solver.
Qed.

(** The chain of a root, started on fresh visited nodes as [networkSummary]
    does. *)
Lemma contactChain_root n data ingoing node tBegin tEnd :
  all_buckets (λ it, 0 ≤ it.1 < n) data →
  all_buckets (λ it, time_sorted it.2) data →
  0 ≤ node < n →
  ∃ vn',
    contactChain (search_fuel n) data node tBegin tEnd (VisitedNodes_new n)
      ingoing = Some vn' ∧
    grows ingoing (Update (VisitedNodes_new n) node tBegin tEnd ingoing) vn' ∧
    counted vn' ∧ node ∈ marked vn' ∧
    length (visitedNodes vn') = Z.to_nat n ∧
    (∀ it, it ∈ vec_at data node → events_within it.2 tBegin tEnd ≠ [] →
           it.1 ∈ marked vn').
Proof.
  intros Hrange Hsorted Hnode.
  destruct (contactChain_spec n data ingoing (search_fuel n) node tBegin tEnd
              (VisitedNodes_new n)) as (vn' & Hrun & Hg & Hc & Hall);
    [done|done|done|apply VisitedNodes_new_length| |].
  { pose proof (open_to_bound ingoing
      (Update (VisitedNodes_new n) node tBegin tEnd ingoing)
      (wrank ingoing tBegin tEnd)) as Hb.
    rewrite Update_length, VisitedNodes_new_length in Hb.
    unfold search_fuel. lia. }
  exists vn'.
  split_and!; [done|done|apply Hc, VisitedNodes_new_counted| | |done].
  - apply (grows_marked _ _ _ _ Hg). apply elem_of_marked.
    rewrite Update_length, VisitedNodes_new_length.
    split; [|lia]. apply Update_entry_self.
    rewrite VisitedNodes_new_length. lia.
  - destruct Hg as [-> _]. by rewrite Update_length, VisitedNodes_new_length.
Qed.

(** ** C3: no events *)

(** Against C3 as stated. With no events and one root, the network summary
    returns four arrays of one element each. *)
Lemma summary_of_no_events_not_empty :
  networkSummary true (IntegerVector []) (IntegerVector []) (IntegerVector [])
    (IntegerVector [1]) (IntegerVector [0]) (IntegerVector [100])
    (IntegerVector [0]) (IntegerVector [100]) (IntegerVector [1])
  = Returned (mkSummary [0] [0] [0] [0]) ∧
  inDegree (mkSummary [0] [0] [0] [0]) ≠ [].
Proof. split; [reflexivity|discriminate]. Qed.

Lemma vec_at_empty n node : vec_at (empty_lookup n) node = [].
Proof.
  unfold vec_at, empty_lookup. destruct (node <? 0); [done|].
  destruct (replicate _ _ !! _) as [m|] eqn:Hm; [|done].
  by apply lookup_replicate in Hm as [-> _].
Qed.

Lemma for_each_const {A St : Type} (body : A → St → option St) l s :
  (∀ a, a ∈ l → body a s = Some s) → for_each body l s = Some s.
Proof.
  induction l as [|a l IH]; intros Hb; simpl; [done|].
  rewrite Hb by set_solver. apply IH. intros. apply Hb. set_solver.
Qed.

Lemma check_arguments_integer src dst ptr_t root inBegin inEnd outBegin outEnd n :
  check_arguments src dst ptr_t (IntegerVector root) (IntegerVector inBegin)
    (IntegerVector inEnd) (IntegerVector outBegin) (IntegerVector outEnd)
    (IntegerVector [n]) = 0.
Proof. reflexivity. Qed.

Lemma new_lookups_Some n :
  0 ≤ n → new_lookups n = Some (empty_lookup n, empty_lookup n).
Proof. intros Hn. unfold new_lookups. by rewrite (proj2 (Z.ltb_ge n 0) Hn). Qed.

Lemma new_lookups_None n : n < 0 → new_lookups n = None.
Proof. intros Hn. unfold new_lookups. by rewrite (proj2 (Z.ltb_lt n 0) Hn). Qed.

(** The first steps of the three entry points on integer vectors and a
    count that is not negative: the lookups are sized, the arguments pass. *)
Ltac enter_with Hn :=
  simpl Rf_asInteger; rewrite (new_lookups_Some _ Hn);
  rewrite check_arguments_integer; simpl negb; cbv iota beta;
  cbn [fst snd].

Lemma built_no_events malloc_ok n :
  (buildContactsLookup malloc_ok (empty_lookup n) (empty_lookup n) [] [] []).2
  = (empty_lookup n, empty_lookup n).
Proof. by destruct malloc_ok. Qed.

Lemma networkSummary_no_events_loop fuel n root inBegin inEnd outBegin outEnd
    l acc :
  Forall (λ i, 1 ≤ nth i root 0 ≤ n) l →
  for_each
    (networkSummary_root (S fuel) n (empty_lookup n) (empty_lookup n)
       root inBegin inEnd outBegin outEnd) l acc
  = Some (mkSummary
            (inDegree acc ++ replicate (length l) 0)
            (outDegree acc ++ replicate (length l) 0)
            (ingoingContactChain acc ++ replicate (length l) 0)
            (outgoingContactChain acc ++ replicate (length l) 0)).
Proof.
  revert acc. induction l as [|i l IH]; intros acc Hl; simpl.
  - rewrite !app_nil_r. by destruct acc.
  - apply Forall_cons in Hl as [Hi Hl].
    unfold networkSummary_root at 1. simpl.
    rewrite !vec_at_empty. simpl. unfold degree. rewrite !vec_at_empty. simpl.
    assert (∀ tB tE ing,
      N (Update (VisitedNodes_new n) (nth i root 0 - 1) tB tE ing) - 1 = 0) as HN.
    { intros. unfold Update, N.
      rewrite VisitedNodes_new_entry. simpl. done. }
    rewrite !HN, IH by done. simpl.
    by rewrite <-!app_assoc.
Qed.

(** With a negative count, which is also what [Rf_asInteger] makes of
    [NULL], of an empty vector and of [NA], every entry point throws when
    it sizes its lookups, before it looks at its arguments. *)
Lemma negative_count_throws malloc_ok src dst ptr_t root inBegin inEnd
    outBegin outEnd numberOfIdentifiers maxDistance :
  Rf_asInteger numberOfIdentifiers < 0 →
  shortestPaths malloc_ok src dst ptr_t root inBegin inEnd outBegin outEnd
    numberOfIdentifiers = Throws "std::length_error" ∧
  traceContacts malloc_ok src dst ptr_t root inBegin inEnd outBegin outEnd
    numberOfIdentifiers maxDistance = Throws "std::length_error" ∧
  networkSummary malloc_ok src dst ptr_t root inBegin inEnd outBegin outEnd
    numberOfIdentifiers = Throws "std::length_error".
Proof.
  intros Hn. unfold shortestPaths, traceContacts, networkSummary.
  by rewrite (new_lookups_None _ Hn).
Qed.

(** C3, as the code has it. With no events, a number of identifiers
    that is not negative and roots in range: [shortestPaths] returns empty columns and [traceContacts] returns, for
    every root, four empty arrays, whether or not the row-id buffer could
    be allocated; [networkSummary], when the buffer is allocated, returns
    four arrays with one entry per root, every entry being [0]. None of
    the three raises an error. *)
Theorem no_events malloc_ok root inBegin inEnd outBegin outEnd n maxDistance :
  0 ≤ n →
  Forall (λ r, 1 ≤ r ≤ n) root →
  shortestPaths malloc_ok (IntegerVector []) (IntegerVector [])
    (IntegerVector []) (IntegerVector root) (IntegerVector inBegin)
    (IntegerVector inEnd) (IntegerVector outBegin) (IntegerVector outEnd)
    (IntegerVector [n])
  = Returned (mkPathColumns [] [] [], mkPathColumns [] [] []) ∧
  traceContacts malloc_ok (IntegerVector []) (IntegerVector [])
    (IntegerVector []) (IntegerVector root) (IntegerVector inBegin)
    (IntegerVector inEnd) (IntegerVector outBegin) (IntegerVector outEnd)
    (IntegerVector [n]) (IntegerVector [maxDistance])
  = Returned (replicate (4 * length root) []) ∧
  networkSummary true (IntegerVector []) (IntegerVector [])
    (IntegerVector []) (IntegerVector root) (IntegerVector inBegin)
    (IntegerVector inEnd) (IntegerVector outBegin) (IntegerVector outEnd)
    (IntegerVector [n])
  = Returned (mkSummary (replicate (length root) 0) (replicate (length root) 0)
                (replicate (length root) 0) (replicate (length root) 0)).
Proof.
  intros Hn Hroot. split_and!.
  - unfold shortestPaths. enter_with Hn.
    simpl INTEGER. rewrite built_no_events.
    rewrite for_each_const; [done|].
    intros i _. unfold shortestPaths_root, search_fuel. simpl.
    by rewrite !vec_at_empty.
  - unfold traceContacts. enter_with Hn.
    simpl INTEGER. rewrite built_no_events.
    simpl Rf_xlength. simpl fst. simpl snd.
    assert (∀ l (acc : list (list Z)),
      for_each
        (traceContacts_root (search_fuel n) (empty_lookup n) (empty_lookup n)
           root inBegin inEnd outBegin outEnd (nth 0 [maxDistance] 0)) l acc
      = Some (acc ++ replicate (4 * length l) [])) as Hloop.
    { induction l as [|i l IH]; intros acc; simpl for_each.
      - by rewrite app_nil_r.
      - unfold traceContacts_root at 1, search_fuel. simpl doTraceContacts.
        rewrite !vec_at_empty. simpl. rewrite IH. rewrite <-app_assoc.
        do 2 f_equal. simpl.
        replace (length l + S (length l + S (length l + S (length l + 0))))%nat
          with (3 + 4 * length l)%nat by lia.
        done. }
    by rewrite Hloop, length_seq.
  - unfold networkSummary. enter_with Hn. simpl INTEGER.
    unfold buildContactsLookup. simpl negb. cbv iota. simpl fst. simpl snd.
    simpl R_orderVector. simpl fold_left. simpl Z.eqb. simpl negb. cbv iota.
    simpl Rf_xlength. unfold search_fuel.
    rewrite networkSummary_no_events_loop.
    + by rewrite length_seq.
    + apply Forall_forall. intros i Hi%elem_of_seq.
      rewrite Forall_forall in Hroot. apply Hroot.
      apply list_elem_of_In, nth_In. lia.
Qed.

Lemma no_events_witness :
  0 ≤ 3 ∧ Forall (λ r, 1 ≤ r ≤ 3) [1; 3] ∧
  networkSummary true (IntegerVector []) (IntegerVector [])
    (IntegerVector []) (IntegerVector [1; 3]) (IntegerVector [0; 0])
    (IntegerVector [9; 9]) (IntegerVector [0; 0]) (IntegerVector [9; 9])
    (IntegerVector [3])
  = Returned (mkSummary [0; 0] [0; 0] [0; 0] [0; 0]).
Proof.
  assert (Forall (λ r, 1 ≤ r ≤ 3) [1; 3]) as Hroot
    by (repeat constructor; lia).
  assert (0 ≤ 3) as Hn by lia.
  split; [exact Hn|]. split; [exact Hroot|].
  destruct (no_events true [1; 3] [0; 0] [9; 9] [0; 0] [9; 9] 3 0 Hn Hroot)
    as (_ & _ & Hsummary).
  exact Hsummary.
Defined.

(** ** C10: the record ids that the searches emit *)

Lemma trace_appended_weaken (P D D' : Z → Prop) res res' :
  (∀ x, D' x → D x) → trace_appended P D' res res' → trace_appended P D res res'.
Proof.
  intros HD (rows & dists & -> & Hl & HP & HD').
  exists rows, dists. split_and!; [done..|]. by eapply Forall_impl.
Qed.

#[local] Instance trace_appended_refl P D : Reflexive (trace_appended P D).
Proof.
  intros [r d]. exists [], []. simpl. rewrite !app_nil_r. by split_and!.
Qed.

#[local] Instance trace_appended_trans P D : Transitive (trace_appended P D).
Proof.
  intros r1 r2 r3 (rows & dists & -> & Hl & HP & HD)
    (rows' & dists' & -> & Hl' & HP' & HD').
  exists (rows ++ rows'), (dists ++ dists'). simpl.
  rewrite !app_assoc, !length_app, !Forall_app. by split_and!; [|lia|..].
Qed.

Lemma doTraceContacts_appended (P : Z → Prop) data fuel node tBegin tEnd
    (visited : gset Z) distance ingoing res maxDistance res' :
  all_buckets (λ it, Forall (λ c, P (rowid c + 1)) it.2) data →
  (0 < maxDistance → distance ≤ maxDistance) →
  doTraceContacts fuel data node tBegin tEnd visited distance ingoing res
    maxDistance = Some res' →
  trace_appended P
    (λ x, distance ≤ x ∧ (0 < maxDistance → x ≤ maxDistance)) res res'.
Proof.
  intros Hd. revert node tBegin tEnd visited distance res res'.
  induction fuel as [|fuel IH];
    intros node tBegin tEnd visited distance res res' Hmax; simpl; [done|].
  apply (for_each_rel (trace_appended P _)).
  intros it r r' Hit.
  destruct (decide (it.1 ∈ {[node]} ∪ visited)) as [Hv|Hv].
  { unfold trace_visit. rewrite decide_True by done. by intros [= ->]. }
  destruct (in_window it.2 (lower_bound it.2 0 (length it.2) tBegin) tEnd)
    eqn:Hw.
  2:{ unfold trace_visit. rewrite decide_False by done. rewrite Hw.
      by intros [= ->]. }
  rewrite trace_visit_qualifying by done. simpl.
  pose proof (lower_bound_bounds it.2 0 (length it.2) tBegin ltac:(lia)) as Hi.
  pose proof (upper_bound_bounds it.2
    (lower_bound it.2 0 (length it.2) tBegin) (length it.2) tEnd ltac:(lia))
    as Hj.
  set (i := lower_bound it.2 0 (length it.2) tBegin) in *.
  set (j := upper_bound it.2 i (length it.2) tEnd) in *.
  assert (trace_appended P
            (λ x, distance ≤ x ∧ (0 < maxDistance → x ≤ maxDistance)) r
            (r.1 ++ map (λ c, rowid c + 1) (drop i (take j it.2)),
             r.2 ++ replicate (j - i) distance)) as Hrec.
  { eexists _, _. split_and!; [done| | |].
    - rewrite length_map, length_drop, length_take_le, length_replicate; lia.
    - apply Forall_fmap, Forall_drop, Forall_take.
      apply (all_buckets_vec_at _ _ _ _ Hd Hit).
    - apply Forall_replicate. split; [lia|done]. }
  destruct (depth_reached maxDistance distance) eqn:Hcut.
  - by intros [= <-].
  - intros Hrun%IH.
    + etrans; [done|]. eapply trace_appended_weaken; [|done].
      simpl. intros x [? ?]. split; [lia|done].
    + unfold depth_reached in Hcut. intros H0.
      destruct (Z.ltb_spec 0 maxDistance); [|lia].
      destruct (Z.leb_spec maxDistance distance); [done|lia].
Qed.

Lemma record_path_Forall (Q : Z * (Z * Z) → Prop) result first distance c :
  Forall Q result → Q (first, (distance, rowid c + 1)) →
  Forall Q (record_path result first distance c).
Proof.
  intros Hr Hq. unfold record_path.
  destruct (OMap.find first result) as [[d r]|]; [destruct (distance <? d)|];
    try done; by eapply update_Forall_impl.
Qed.

Lemma doShortestPaths_rowids (P : Z → Prop) data fuel node tBegin tEnd
    (visited : gset Z) distance ingoing result result' :
  all_buckets (λ it, Forall (λ c, P (rowid c + 1)) it.2) data →
  doShortestPaths fuel data node tBegin tEnd visited distance ingoing result
  = Some result' →
  Forall (λ e, P e.2.2) result → Forall (λ e, P e.2.2) result'.
Proof.
  intros Hd. revert node tBegin tEnd visited distance result result'.
  induction fuel as [|fuel IH];
    intros node tBegin tEnd visited distance result result'; simpl; [done|].
  apply (for_each_inv (Forall (λ e, P e.2.2))).
  intros it r r' Hit. unfold path_visit.
  case_decide; [by intros [= ->]|].
  destruct (in_window _ _ _) eqn:Hw; [|by intros [= ->]].
  intros Hrun Hr. eapply IH; [exact Hrun|].
  apply (record_path_Forall (λ e, P e.2.2)); [done|]. simpl.
  pose proof (lower_bound_bounds it.2 0 (length it.2) tBegin ltac:(lia)) as Hi.
  destruct (in_window_true _ _ _ Hw ltac:(lia)) as (c & Hc & _).
  rewrite (deref_lookup _ _ _ Hc).
  pose proof (all_buckets_vec_at _ _ _ _ Hd Hit) as Hb. simpl in Hb.
  rewrite Forall_lookup in Hb. eauto.
Qed.

Lemma push_paths_rowid i paths cols :
  pcRowid (push_paths i paths cols) = pcRowid cols ++ map (λ e, e.2.2) paths.
Proof.
  unfold push_paths. revert cols.
  induction paths as [|e paths IH]; intros cols; simpl.
  - by rewrite app_nil_r.
  - rewrite IH. simpl. by rewrite <-app_assoc.
Qed.

Section emitted_ids.
Variables (n : Z) (src dst ptr_t : list Z).
Hypothesis Hvalid : valid_events n src dst ptr_t.

Let len : Z := Z.of_nat (length ptr_t).

Lemma built_rowids data :
  data = (built_lookups n src dst ptr_t).1
  ∨ data = (built_lookups n src dst ptr_t).2 →
  all_buckets (λ it, 0 ≤ it.1 < n) data ∧
  all_buckets (λ it, Forall (λ c, 1 ≤ rowid c + 1 ≤ len) it.2) data.
Proof.
  intros Hdata.
  assert (wf_lookup n (length ptr_t) data) as [_ _ Hrange _ Hrow].
  { destruct (built_lookups_wf n src dst ptr_t Hvalid).
    by destruct Hdata as [-> | ->]. }
  split; [done|].
  eapply Forall_impl; [exact Hrow|]. intros m Hm.
  eapply Forall_impl; [exact Hm|]. intros it Hit.
  eapply Forall_impl; [exact Hit|]. simpl. unfold len. lia.
Qed.

Lemma doTraceContacts_root data node tBegin tEnd ingoing maxDistance :
  data = (built_lookups n src dst ptr_t).1
  ∨ data = (built_lookups n src dst ptr_t).2 →
  ∃ tr : Trace,
    doTraceContacts (search_fuel n) data node tBegin tEnd ∅ 1 ingoing ([], [])
      maxDistance = Some tr ∧
    length tr.1 = length tr.2 ∧ Forall (λ r, 1 ≤ r ≤ len) tr.1.
Proof.
  intros [Hrange Hrow]%built_rowids.
  destruct (doTraceContacts_total n data (search_fuel n) node tBegin tEnd ∅ 1
              ingoing ([], []) maxDistance) as [tr Hrun]; [done| |].
  { pose proof (off_path_bound n ({[node]} ∪ ∅)). unfold search_fuel. lia. }
  exists tr. split; [done|].
  assert (trace_appended (λ r, 1 ≤ r ≤ len) (λ _, True) ([], []) tr)
    as (rows & dists & -> & Hl & HP & _).
  { destruct (decide (0 < maxDistance → 1 ≤ maxDistance)) as [Hm|Hm]; [|lia].
    eapply trace_appended_weaken;
      [|by eapply (doTraceContacts_appended (λ r, 1 ≤ r ≤ len))].
    done. }
  done.
Qed.

Lemma traceContacts_loop root inBegin inEnd outBegin outEnd maxDistance l
    groups :
  ∃ groups',
    for_each
      (traceContacts_root (search_fuel n) (built_lookups n src dst ptr_t).1
         (built_lookups n src dst ptr_t).2 root inBegin inEnd outBegin outEnd
         maxDistance) l (concat (map trace_group groups))
    = Some (concat (map trace_group (groups ++ groups'))) ∧
    length groups' = length l ∧ Forall (trace_group_ok len) groups'.
Proof.
  revert groups. induction l as [|i l IH]; intros groups; simpl.
  - exists []. by rewrite app_nil_r.
  - unfold traceContacts_root at 1.
    destruct (doTraceContacts_root (built_lookups n src dst ptr_t).1
                (nth i root 0 - 1) (nth i inBegin 0) (nth i inEnd 0) true
                maxDistance) as (tin & -> & Hlin & Hin); [by left|].
    destruct (doTraceContacts_root (built_lookups n src dst ptr_t).2
                (nth i root 0 - 1) (nth i outBegin 0) (nth i outEnd 0) false
                maxDistance) as (tout & -> & Hlout & Hout); [by right|].
    destruct (IH (groups ++ [(tin, tout)])) as (groups' & Hrun & Hl & Hok).
    exists ((tin, tout) :: groups').
    rewrite map_app, concat_app in Hrun. simpl in Hrun.
    rewrite Hrun. rewrite <-app_assoc. simpl.
    split_and!; [done|lia|]. constructor; [by split_and!|done].
Qed.

Lemma doShortestPaths_root data node tBegin tEnd ingoing :
  data = (built_lookups n src dst ptr_t).1
  ∨ data = (built_lookups n src dst ptr_t).2 →
  ∃ paths : PathMap,
    doShortestPaths (search_fuel n) data node tBegin tEnd ∅ 1 ingoing []
    = Some paths ∧
    Forall (λ e, 1 ≤ e.2.2 ≤ len) paths.
Proof.
  intros [Hrange Hrow]%built_rowids.
  destruct (doShortestPaths_total n data (search_fuel n) node tBegin tEnd ∅ 1
              ingoing []) as [paths Hrun]; [done| |].
  { pose proof (off_path_bound n ({[node]} ∪ ∅)). unfold search_fuel. lia. }
  exists paths. split; [done|].
  by eapply (doShortestPaths_rowids (λ r, 1 ≤ r ≤ len)).
Qed.

Lemma shortestPaths_loop root inBegin inEnd outBegin outEnd l acc :
  Forall (λ r, 1 ≤ r ≤ len) (pcRowid acc.1) →
  Forall (λ r, 1 ≤ r ≤ len) (pcRowid acc.2) →
  ∃ cols,
    for_each
      (shortestPaths_root (search_fuel n) (built_lookups n src dst ptr_t).1
         (built_lookups n src dst ptr_t).2 root inBegin inEnd outBegin outEnd)
      l acc = Some cols ∧
    Forall (λ r, 1 ≤ r ≤ len) (pcRowid cols.1) ∧
    Forall (λ r, 1 ≤ r ≤ len) (pcRowid cols.2).
Proof.
  intros H1 H2.
  apply (for_each_total
           (λ cols, Forall (λ r, 1 ≤ r ≤ len) (pcRowid cols.1) ∧
                    Forall (λ r, 1 ≤ r ≤ len) (pcRowid cols.2))); [|done].
  intros i cols _ [Hc1 Hc2]. unfold shortestPaths_root.
  destruct (doShortestPaths_root (built_lookups n src dst ptr_t).1
              (nth i root 0 - 1) (nth i inBegin 0) (nth i inEnd 0) true)
    as (pin & -> & Hin); [by left|].
  destruct (doShortestPaths_root (built_lookups n src dst ptr_t).2
              (nth i root 0 - 1) (nth i outBegin 0) (nth i outEnd 0) false)
    as (pout & -> & Hout); [by right|].
  eexists. split; [done|]. simpl. rewrite !push_paths_rowid, !Forall_app.
  split_and!; [done| |done|]; by apply Forall_fmap.
Qed.

End emitted_ids.

(** C10. For a number of identifiers that is not negative and event
    columns and roots with identifiers in range, [traceContacts] returns
    one group of four arrays for every root; in
    each group the array of row ids and the array of distances of a
    direction have the same length, and every row id lies between 1 and
    the number of event rows. Every row id in the two row-id columns that
    [shortestPaths] returns lies in that range as well. *)
Theorem record_ids_in_range n src dst ptr_t root inBegin inEnd outBegin outEnd
    maxDistance :
  0 ≤ n →
  valid_events n src dst ptr_t →
  Forall (λ r, 1 ≤ r ≤ n) root →
  (∃ result,
     traceContacts true (IntegerVector src) (IntegerVector dst)
       (IntegerVector ptr_t) (IntegerVector root) (IntegerVector inBegin)
       (IntegerVector inEnd) (IntegerVector outBegin) (IntegerVector outEnd)
       (IntegerVector [n]) (IntegerVector [maxDistance]) = Returned result ∧
     trace_columns_ok (Z.of_nat (length ptr_t)) (length root) result) ∧
  (∃ cols,
     shortestPaths true (IntegerVector src) (IntegerVector dst)
       (IntegerVector ptr_t) (IntegerVector root) (IntegerVector inBegin)
       (IntegerVector inEnd) (IntegerVector outBegin) (IntegerVector outEnd)
       (IntegerVector [n]) = Returned cols ∧
     Forall (λ r, 1 ≤ r ≤ Z.of_nat (length ptr_t)) (pcRowid cols.1) ∧
     Forall (λ r, 1 ≤ r ≤ Z.of_nat (length ptr_t)) (pcRowid cols.2)).
Proof.
  intros Hn Hvalid _. split.
  - destruct (traceContacts_loop n src dst ptr_t Hvalid root inBegin inEnd
                outBegin outEnd maxDistance (seq 0 (length root)) [])
      as (groups & Hrun & Hl & Hok).
    exists (concat (map trace_group groups)). split.
    + unfold traceContacts. enter_with Hn. simpl INTEGER.
      simpl Rf_xlength. simpl nth. fold (built_lookups n src dst ptr_t).
      simpl in Hrun. by rewrite Hrun.
    + exists groups. rewrite length_seq in Hl. done.
  - destruct (shortestPaths_loop n src dst ptr_t Hvalid root inBegin inEnd
                outBegin outEnd (seq 0 (length root))
                (mkPathColumns [] [] [], mkPathColumns [] [] []))
      as (cols & Hrun & H1 & H2); [done|done|].
    exists cols. split; [|done].
    unfold shortestPaths. enter_with Hn. simpl INTEGER.
    simpl Rf_xlength. fold (built_lookups n src dst ptr_t).
    by rewrite Hrun.
Qed.

Lemma record_ids_in_range_witness :
  0 ≤ 3 ∧ valid_events 3 ex_src ex_dst ex_t ∧ Forall (λ r, 1 ≤ r ≤ 3) [1] ∧
  ∃ result,
    traceContacts true (IntegerVector ex_src) (IntegerVector ex_dst)
      (IntegerVector ex_t) (IntegerVector [1]) (IntegerVector [0])
      (IntegerVector [100]) (IntegerVector [0]) (IntegerVector [100])
      (IntegerVector [3]) (IntegerVector [0]) = Returned result ∧
    trace_columns_ok 3 1 result.
Proof.
  assert (Forall (λ r, 1 ≤ r ≤ 3) [1]) as Hroot
    by (repeat constructor; lia).
  assert (0 ≤ 3) as Hn by lia.
  split; [exact Hn|]. split; [exact ex_valid|]. split; [exact Hroot|].
  destruct (record_ids_in_range 3 ex_src ex_dst ex_t [1] [0] [100] [0] [100] 0
              Hn ex_valid Hroot) as [Htrace _].
  exact Htrace.
Defined.

(** ** C6: degree, hop 1 and chain size *)

Lemma events_within_nonempty (v : Contacts) tBegin tEnd :
  (0 < length (events_within v tBegin tEnd))%nat
  ↔ events_within v tBegin tEnd ≠ [].
Proof. destruct (events_within v tBegin tEnd); simpl; split; (done || lia). Qed.

Lemma degree_count node tBegin tEnd (m : list (Z * Contacts)) r :
  Forall (λ it, time_sorted it.2) m →
  fold_left
    (λ result it,
       if negb (node =? it.1) then
         let t_begin := lower_bound it.2 0 (length it.2) tBegin in
         if in_window it.2 t_begin tEnd then result + 1 else result
       else result) m r
  = r + Z.of_nat
          (length (filter (λ it, it.1 ≠ node ∧
                      (0 < length (events_within it.2 tBegin tEnd))%nat) m)).
Proof.
  intros Hm. revert r. induction Hm as [|it m Hs Hm IH]; intros r; simpl.
  - lia.
  - rewrite IH. rewrite filter_cons.
    pose proof (in_window_events it.2 tBegin tEnd Hs) as Hw.
    rewrite <-events_within_nonempty in Hw.
    destruct (Z.eqb_spec node it.1) as [He|He]; simpl.
    + rewrite decide_False by (intros [? _]; congruence). done.
    + destruct (in_window _ _ _).
      * rewrite decide_True by (split; [congruence|by apply Hw]). simpl. lia.
      * rewrite decide_False; [done|]. intros [_ H%Hw]. done.
Qed.

Lemma vec_at_Forall (Q : Z * Contacts → Prop) data node :
  all_buckets Q data → Forall Q (vec_at data node).
Proof.
  intros Hd. apply Forall_forall. intros it. by apply all_buckets_vec_at.
Qed.

Lemma degree_hop1 data node tBegin tEnd :
  all_buckets (λ it, time_sorted it.2) data →
  degree data node tBegin tEnd
  = Z.of_nat (length (hop1 data node tBegin tEnd)).
Proof.
  intros Hd. unfold degree, hop1.
  rewrite degree_count by by apply vec_at_Forall.
  by rewrite length_fmap.
Qed.

Lemma vec_at_keys data node :
  Forall (λ m, StronglySorted Z.lt m.*1) data →
  StronglySorted Z.lt (vec_at data node).*1.
Proof.
  intros Hd. unfold vec_at. destruct (node <? 0); [constructor|].
  destruct (data !! Z.to_nat node) as [m|] eqn:Hm; simpl; [|constructor].
  by apply (Forall_lookup_1 _ _ _ _ Hd Hm).
Qed.

Lemma StronglySorted_lt_NoDup (l : list Z) : StronglySorted Z.lt l → NoDup l.
Proof.
  induction 1 as [|x l Hl IH Hx]; constructor; [|done].
  rewrite Forall_forall in Hx. intros Hin%Hx. lia.
Qed.

Lemma hop1_NoDup data node tBegin tEnd :
  Forall (λ m, StronglySorted Z.lt m.*1) data →
  NoDup (hop1 data node tBegin tEnd).
Proof.
  intros Hd. unfold hop1.
  pose proof (StronglySorted_lt_NoDup _ (vec_at_keys data node Hd)) as Hnd.
  revert Hnd. generalize (vec_at data node). intros m.
  induction m as [|it m IH]; simpl; [constructor|].
  intros [Hit Hm]%NoDup_cons. rewrite filter_cons.
  case_decide; simpl; [|by apply IH].
  constructor; [|by apply IH].
  intros (it' & Hk & Hin%list_elem_of_filter)%list_elem_of_fmap.
  apply Hit. apply list_elem_of_fmap. exists it'. tauto.
Qed.

Lemma elem_of_hop1 data node tBegin tEnd k :
  k ∈ hop1 data node tBegin tEnd ↔
  ∃ it, it ∈ vec_at data node ∧ it.1 = k ∧ k ≠ node ∧
        events_within it.2 tBegin tEnd ≠ [].
Proof.
  unfold hop1. rewrite list_elem_of_fmap. split.
  - intros (it & -> & [[? ?%events_within_nonempty] ?]%list_elem_of_filter).
    eauto 6.
  - intros (it & ? & <- & ? & ?%events_within_nonempty).
    exists it. split; [done|]. by apply list_elem_of_filter.
Qed.

Lemma hop1_below_chain n data ingoing node tBegin tEnd :
  Forall (λ m, StronglySorted Z.lt m.*1) data →
  all_buckets (λ it, 0 ≤ it.1 < n) data →
  all_buckets (λ it, time_sorted it.2) data →
  0 ≤ node < n →
  ∃ vn',
    contactChain (search_fuel n) data node tBegin tEnd (VisitedNodes_new n)
      ingoing = Some vn' ∧
    Z.of_nat (length (hop1 data node tBegin tEnd)) ≤ N vn' - 1.
Proof.
  intros Hkeys Hrange Hsorted Hnode.
  destruct (contactChain_root n data ingoing node tBegin tEnd)
    as (vn' & Hrun & _ & Hc & Hm & _ & Hall); [done..|].
  exists vn'. split; [done|]. rewrite Hc.
  assert (list_to_set (hop1 data node tBegin tEnd) ⊆ marked vn' ∖ {[node]})
    as Hsub.
  { intros k. rewrite elem_of_list_to_set, elem_of_hop1.
    intros (it & Hit & <- & Hne & Hev). specialize (Hall it Hit Hev).
    set_solver. }
  apply subseteq_size in Hsub.
  rewrite size_list_to_set in Hsub by by apply hop1_NoDup.
  rewrite size_difference, size_singleton in Hsub by set_solver.
  assert (size (marked vn') ≠ 0%nat).
  { intros E%size_empty_inv. set_solver. }
  lia.
Qed.

Section summary.
Variables (n : Z) (ingoing outgoing : ContactsLookup).
Variables (root inBegin inEnd outBegin outEnd : list Z).
Hypothesis Hin_range : all_buckets (λ it, 0 ≤ it.1 < n) ingoing.
Hypothesis Hin_sorted : all_buckets (λ it, time_sorted it.2) ingoing.
Hypothesis Hout_range : all_buckets (λ it, 0 ≤ it.1 < n) outgoing.
Hypothesis Hout_sorted : all_buckets (λ it, time_sorted it.2) outgoing.

Lemma chain_size_Some data ing node tBegin tEnd :
  all_buckets (λ it, 0 ≤ it.1 < n) data →
  all_buckets (λ it, time_sorted it.2) data →
  0 ≤ node < n →
  ∃ vn',
    contactChain (search_fuel n) data node tBegin tEnd (VisitedNodes_new n) ing
    = Some vn' ∧
    chain_size n data node tBegin tEnd ing = Some (N vn' - 1).
Proof.
  intros Hr Hs Hnode.
  destruct (contactChain_root n data ing node tBegin tEnd)
    as (vn' & Hrun & _); [done..|].
  exists vn'. split; [done|]. unfold chain_size. by rewrite Hrun.
Qed.

(** The loop of [networkSummary] pushes, for every root, the two degrees
    and the two chain sizes of that root. *)
Lemma networkSummary_loop l acc :
  Forall (λ i, 1 ≤ nth i root 0 ≤ n) l →
  for_each
    (networkSummary_root (search_fuel n) n ingoing outgoing
       root inBegin inEnd outBegin outEnd) l acc
  = Some (mkSummary
      (inDegree acc ++
         map (λ i, degree ingoing (nth i root 0 - 1)
                     (nth i inBegin 0) (nth i inEnd 0)) l)
      (outDegree acc ++
         map (λ i, degree outgoing (nth i root 0 - 1)
                     (nth i outBegin 0) (nth i outEnd 0)) l)
      (ingoingContactChain acc ++
         map (λ i, default 0
                     (chain_size n ingoing (nth i root 0 - 1)
                        (nth i inBegin 0) (nth i inEnd 0) true)) l)
      (outgoingContactChain acc ++
         map (λ i, default 0
                     (chain_size n outgoing (nth i root 0 - 1)
                        (nth i outBegin 0) (nth i outEnd 0) false)) l)).
Proof.
  revert acc. induction l as [|i l IH]; intros acc Hl; simpl.
  - rewrite !app_nil_r. by destruct acc.
  - apply Forall_cons in Hl as [Hi Hl].
    destruct (chain_size_Some ingoing true (nth i root 0 - 1)
                (nth i inBegin 0) (nth i inEnd 0))
      as (vin & Hrin & Hcin); [done|done|lia|].
    destruct (chain_size_Some outgoing false (nth i root 0 - 1)
                (nth i outBegin 0) (nth i outEnd 0))
      as (vout & Hrout & Hcout); [done|done|lia|].
    unfold networkSummary_root at 1. rewrite Hrin, Hrout, Hcin, Hcout.
    rewrite IH by done. simpl. by rewrite <-!app_assoc.
Qed.

End summary.

Lemma networkSummary_valid n src dst ptr_t root inBegin inEnd outBegin outEnd :
  0 ≤ n →
  valid_events n src dst ptr_t →
  Forall (λ r, 1 ≤ r ≤ n) root →
  networkSummary true (IntegerVector src) (IntegerVector dst)
    (IntegerVector ptr_t) (IntegerVector root) (IntegerVector inBegin)
    (IntegerVector inEnd) (IntegerVector outBegin) (IntegerVector outEnd)
    (IntegerVector [n])
  = Returned (mkSummary
      (map (λ i, degree (built_lookups n src dst ptr_t).1 (nth i root 0 - 1)
                   (nth i inBegin 0) (nth i inEnd 0)) (seq 0 (length root)))
      (map (λ i, degree (built_lookups n src dst ptr_t).2 (nth i root 0 - 1)
                   (nth i outBegin 0) (nth i outEnd 0)) (seq 0 (length root)))
      (map (λ i, default 0
                   (chain_size n (built_lookups n src dst ptr_t).1
                      (nth i root 0 - 1) (nth i inBegin 0) (nth i inEnd 0)
                      true)) (seq 0 (length root)))
      (map (λ i, default 0
                   (chain_size n (built_lookups n src dst ptr_t).2
                      (nth i root 0 - 1) (nth i outBegin 0) (nth i outEnd 0)
                      false)) (seq 0 (length root)))).
Proof.
  intros Hn Hvalid Hroot.
  destruct (built_lookups_wf n src dst ptr_t Hvalid)
    as [[_ _ Hr1 Hs1 _] [_ _ Hr2 Hs2 _]].
  unfold networkSummary. enter_with Hn. simpl INTEGER. simpl Rf_xlength.
  simpl nth.
  change (buildContactsLookup true (empty_lookup n) (empty_lookup n)
            src dst ptr_t)
    with (0, built_lookups n src dst ptr_t).
  simpl fst. simpl snd. simpl Z.eqb. simpl negb. cbv iota.
  rewrite networkSummary_loop; [done..|].
  apply Forall_forall. intros i Hi%elem_of_seq.
  rewrite Forall_forall in Hroot. apply Hroot.
  apply list_elem_of_In, nth_In. lia.
Qed.

(** C6. On the lookups built from event columns with identifiers in range,
    for every root in range, window and direction: the degree is the
    number of distinct nodes other than the root that are reachable at
    hop 1 in the window, and that number is at most the chain size that
    the chain of the root over the same window gives. In the arrays that
    [networkSummary] returns, for a number of identifiers that is not
    negative, the degree of every root is at most its chain size, ingoing
    and outgoing. *)
Theorem degree_below_chain_size n src dst ptr_t :
  valid_events n src dst ptr_t →
  (∀ data (ingoing : bool) root tBegin tEnd,
     data = (built_lookups n src dst ptr_t).1
     ∨ data = (built_lookups n src dst ptr_t).2 →
     1 ≤ root ≤ n →
     ∃ size,
       chain_size n data (root - 1) tBegin tEnd ingoing = Some size ∧
       NoDup (hop1 data (root - 1) tBegin tEnd) ∧
       (root - 1 ∉ hop1 data (root - 1) tBegin tEnd) ∧
       degree data (root - 1) tBegin tEnd
       ≤ Z.of_nat (length (hop1 data (root - 1) tBegin tEnd)) ∧
       Z.of_nat (length (hop1 data (root - 1) tBegin tEnd)) ≤ size) ∧
  (∀ root inBegin inEnd outBegin outEnd,
     0 ≤ n →
     Forall (λ r, 1 ≤ r ≤ n) root →
     ∃ summary,
       networkSummary true (IntegerVector src) (IntegerVector dst)
         (IntegerVector ptr_t) (IntegerVector root) (IntegerVector inBegin)
         (IntegerVector inEnd) (IntegerVector outBegin) (IntegerVector outEnd)
         (IntegerVector [n]) = Returned summary ∧
       Forall2 Z.le (inDegree summary) (ingoingContactChain summary) ∧
       Forall2 Z.le (outDegree summary) (outgoingContactChain summary)).
Proof.
  intros Hvalid.
  assert (∀ data (ingoing : bool) root tBegin tEnd,
     data = (built_lookups n src dst ptr_t).1
     ∨ data = (built_lookups n src dst ptr_t).2 →
     1 ≤ root ≤ n →
     ∃ size,
       chain_size n data (root - 1) tBegin tEnd ingoing = Some size ∧
       NoDup (hop1 data (root - 1) tBegin tEnd) ∧
       (root - 1 ∉ hop1 data (root - 1) tBegin tEnd) ∧
       degree data (root - 1) tBegin tEnd
       ≤ Z.of_nat (length (hop1 data (root - 1) tBegin tEnd)) ∧
       Z.of_nat (length (hop1 data (root - 1) tBegin tEnd)) ≤ size) as Hone.
  { intros data ingoing root tBegin tEnd Hdata Hroot.
    assert (wf_lookup n (length ptr_t) data) as [_ Hkeys Hrange Hsorted _].
    { destruct (built_lookups_wf n src dst ptr_t Hvalid).
      by destruct Hdata as [-> | ->]. }
    destruct (hop1_below_chain n data ingoing (root - 1) tBegin tEnd)
      as (vn' & Hrun & Hle); [done|done|done|lia|].
    exists (N vn' - 1). split_and!.
    - unfold chain_size. by rewrite Hrun.
    - by apply hop1_NoDup.
    - rewrite elem_of_hop1. naive_solver.
    - by rewrite degree_hop1.
    - done. }
  split; [done|].
  intros root inBegin inEnd outBegin outEnd Hn Hroot.
  eexists. split; [by apply networkSummary_valid|]. simpl.
  split; apply Forall2_fmap, Forall_Forall2_diag, Forall_forall;
    intros i Hi%elem_of_seq.
  - destruct (Hone (built_lookups n src dst ptr_t).1 true (nth i root 0)
                (nth i inBegin 0) (nth i inEnd 0)) as (sz & -> & _ & _ & ? & ?);
      [by left| |simpl; lia].
    rewrite Forall_forall in Hroot. apply Hroot.
    apply list_elem_of_In, nth_In. lia.
  - destruct (Hone (built_lookups n src dst ptr_t).2 false (nth i root 0)
                (nth i outBegin 0) (nth i outEnd 0))
      as (sz & -> & _ & _ & ? & ?); [by right| |simpl; lia].
    rewrite Forall_forall in Hroot. apply Hroot.
    apply list_elem_of_In, nth_In. lia.
Qed.

Lemma degree_below_chain_size_witness :
  valid_events 3 ex_src ex_dst ex_t ∧
  ∃ size,
    chain_size 3 (built_lookups 3 ex_src ex_dst ex_t).2 0 0 100 false
    = Some size ∧
    degree (built_lookups 3 ex_src ex_dst ex_t).2 0 0 100
    ≤ Z.of_nat (length (hop1 (built_lookups 3 ex_src ex_dst ex_t).2 0 0 100)) ∧
    Z.of_nat (length (hop1 (built_lookups 3 ex_src ex_dst ex_t).2 0 0 100))
    ≤ size.
Proof.
  split; [exact ex_valid|].
  destruct (degree_below_chain_size 3 ex_src ex_dst ex_t ex_valid)
    as [Hone _].
  destruct (Hone (built_lookups 3 ex_src ex_dst ex_t).2 false 1 0 100
              (or_intror eq_refl) ltac:(lia))
    as (size & Hsize & _ & _ & Hdeg & Hhop).
  exists size. split_and!; [exact Hsize|exact Hdeg|exact Hhop].
Defined.

(** ** C7: self-loops *)

Section ordering_of_a_selection.
Variable key : nat → Z.

Lemma order_insert_map (ρ : nat → nat) j l :
  map ρ (order_insert (key ∘ ρ) j l) = order_insert key (ρ j) (map ρ l).
Proof.
  induction l as [|i l IH]; simpl; [done|].
  destruct (key (ρ j) <=? key (ρ i)); simpl; [done|]. by rewrite IH.
Qed.

Lemma order_by_map (ρ : nat → nat) l :
  map ρ (order_by (key ∘ ρ) l) = order_by key (map ρ l).
Proof.
  induction l as [|i l IH]; simpl; [done|].
  by rewrite order_insert_map, IH.
Qed.

Lemma order_insert_ext (key' : nat → Z) j l :
  key' j = key j → (∀ x, x ∈ l → key' x = key x) →
  order_insert key' j l = order_insert key j l.
Proof.
  intros Hj. induction l as [|i l IH]; intros Hl; simpl; [done|].
  rewrite Hj, (Hl i) by set_solver.
  destruct (key j <=? key i); [done|]. rewrite IH; [done|].
  intros. apply Hl. set_solver.
Qed.

Lemma order_by_ext (key' : nat → Z) l :
  (∀ x, x ∈ l → key' x = key x) → order_by key' l = order_by key l.
Proof.
  induction l as [|i l IH]; intros Hl; simpl; [done|].
  rewrite IH by (intros; apply Hl; set_solver).
  apply order_insert_ext; [apply Hl; set_solver|].
  intros x Hx%order_by_elem. apply Hl. set_solver.
Qed.

Section selection.
Context (P : nat → Prop) `{!∀ j, Decision (P j)}.

Lemma order_insert_filter_out j l :
  ¬ P j → filter P (order_insert key j l) = filter P l.
Proof.
  intros Hj. induction l as [|i l IH]; simpl.
  - by rewrite filter_cons_False.
  - destruct (key j <=? key i).
    + by rewrite filter_cons_False.
    + rewrite !filter_cons. by rewrite IH.
Qed.

Lemma order_insert_filter_in j l :
  StronglySorted (λ a b, key a ≤ key b) l → P j →
  filter P (order_insert key j l) = order_insert key j (filter P l).
Proof.
  intros Hl Hj. induction Hl as [|i l Hl IH Hi]; simpl.
  - by rewrite filter_cons_True.
  - destruct (Z.leb_spec (key j) (key i)) as [Hle|Hgt].
    + rewrite filter_cons_True by done. rewrite (filter_cons _ i).
      case_decide; simpl.
      * destruct (Z.leb_spec (key j) (key i)); [done|lia].
      * destruct (filter P l) as [|x l'] eqn:E; simpl; [done|].
        assert (x ∈ l) as Hx.
        { assert (x ∈ filter P l) as Hx by (rewrite E; set_solver).
          by apply list_elem_of_filter in Hx as [_ ?]. }
        rewrite Forall_forall in Hi. specialize (Hi x Hx).
        destruct (Z.leb_spec (key j) (key x)); [done|lia].
    + rewrite !(filter_cons _ i). case_decide; simpl.
      * destruct (Z.leb_spec (key j) (key i)); [lia|]. by rewrite IH.
      * done.
Qed.

Lemma order_by_filter l :
  filter P (order_by key l) = order_by key (filter P l).
Proof.
  induction l as [|i l IH]; simpl; [done|].
  rewrite filter_cons. case_decide; simpl.
  - rewrite order_insert_filter_in by (done || apply order_by_sorted).
    by rewrite IH.
  - by rewrite order_insert_filter_out.
Qed.

End selection.
End ordering_of_a_selection.

Lemma map_nth_seq {A : Type} (l : list A) d :
  map (λ i, nth i l d) (seq 0 (length l)) = l.
Proof.
  apply list_eq. intros i. rewrite list_lookup_fmap.
  destruct (l !! i) as [x|] eqn:Hx.
  - rewrite lookup_seq_lt by by eapply lookup_lt_Some.
    simpl. by rewrite (nth_lookup_Some _ _ _ _ Hx).
  - rewrite lookup_seq_ge; [done|]. by apply lookup_ge_None.
Qed.

Lemma nth_select_rows rows col j :
  (j < length rows)%nat →
  nth j (select_rows rows col) 0 = nth (nth j rows 0%nat) col 0.
Proof.
  intros Hj. unfold select_rows.
  destruct (lookup_lt_is_Some_2 rows j Hj) as [r Hr].
  rewrite (nth_lookup_Some rows _ _ _ Hr).
  apply nth_lookup_Some. by rewrite list_lookup_fmap, Hr.
Qed.

(** The rows of the selection, taken in the order of their times, are the
    kept rows of the whole input in the order of their times. *)
Lemma kept_rows_order src dst ptr_t :
  map (λ j, nth j (kept_rows src dst ptr_t) 0%nat)
    (R_orderVector (select_rows (kept_rows src dst ptr_t) ptr_t))
  = filter (λ j, nth j src 0 ≠ nth j dst 0) (R_orderVector ptr_t).
Proof.
  set (rows := kept_rows src dst ptr_t).
  unfold R_orderVector.
  rewrite order_by_filter. fold (kept_rows src dst ptr_t). fold rows.
  trans (order_by (λ j, nth j ptr_t 0)
           (map (λ j, nth j rows 0%nat) (seq 0 (length rows))));
    [|by rewrite map_nth_seq].
  rewrite <-order_by_map. f_equal.
  unfold select_rows at 2. rewrite length_map.
  apply order_by_ext. intros j Hj%elem_of_seq. simpl.
  apply nth_select_rows. lia.
Qed.

Section erase_and_strip.
Implicit Types (m : list (Z * Contacts)) (data : ContactsLookup).

Lemma erase_update k c m :
  map (λ it : Z * Contacts, (it.1, map erase_contact it.2))
    (OMap.update (λ o, default [] o ++ [c]) k m)
  = OMap.update (λ o, default [] o ++ [erase_contact c]) k
      (map (λ it : Z * Contacts, (it.1, map erase_contact it.2)) m).
Proof.
  induction m as [|[k' v] m IH]; simpl; [done|].
  destruct (k <? k'); simpl; [done|].
  destruct (k =? k'); simpl.
  - by rewrite map_app.
  - by rewrite IH.
Qed.

Lemma erase_push_back_at data i k c :
  erase (push_back_at data i k c)
  = push_back_at (erase data) i k (erase_contact c).
Proof.
  unfold push_back_at, erase. destruct (i <? 0); [done|].
  apply list_fmap_alter. apply Forall_forall. intros m _.
  apply erase_update.
Qed.

Lemma strip_update_self (f : option Contacts → Contacts) k m :
  filter (λ it : Z * Contacts, it.1 ≠ k) (OMap.update f k m)
  = filter (λ it : Z * Contacts, it.1 ≠ k) m.
Proof.
  induction m as [|[k' v] m IH]; simpl.
  - by rewrite filter_cons_False by (simpl; tauto).
  - destruct (Z.ltb_spec k k').
    { by rewrite filter_cons_False by (simpl; tauto). }
    destruct (Z.eqb_spec k k') as [->|].
    + by rewrite !filter_cons_False by (simpl; tauto).
    + rewrite !(filter_cons _ (k', v)). by rewrite IH.
Qed.

Lemma strip_update_other (f : option Contacts → Contacts) i k m :
  k ≠ i → StronglySorted Z.lt m.*1 →
  filter (λ it : Z * Contacts, it.1 ≠ i) (OMap.update f k m)
  = OMap.update f k (filter (λ it : Z * Contacts, it.1 ≠ i) m).
Proof.
  intros Hk. induction m as [|[k' v] m IH]; simpl; intros Hm.
  - by rewrite filter_cons_True.
  - apply StronglySorted_inv in Hm as [Hm Hk'].
    destruct (Z.ltb_spec k k') as [Hlt|Hge].
    + rewrite filter_cons_True by done.
      rewrite (filter_cons _ (k', v)). case_decide; simpl.
      * by destruct (Z.ltb_spec k k'); [|lia].
      * destruct (filter _ m) as [|[k2 v2] m2] eqn:E; simpl; [done|].
        assert (k' < k2).
        { assert ((k2, v2) ∈ filter (λ it : Z * Contacts, it.1 ≠ i) m) as Hin
            by (rewrite E; set_solver).
          apply list_elem_of_filter in Hin as [_ Hin].
          rewrite Forall_forall in Hk'. apply Hk'.
          apply list_elem_of_fmap. by exists (k2, v2). }
        by destruct (Z.ltb_spec k k2); [|lia].
    + destruct (Z.eqb_spec k k') as [->|Hne].
      * rewrite !filter_cons_True by done. simpl.
        destruct (Z.ltb_spec k' k'); [lia|]. by rewrite Z.eqb_refl.
      * rewrite !(filter_cons _ (k', v)). case_decide; simpl.
        -- destruct (Z.ltb_spec k k'); [lia|].
           destruct (Z.eqb_spec k k'); [lia|]. by rewrite IH.
        -- by apply IH.
Qed.

Lemma strip_push_back_at_self data i c :
  strip (push_back_at data i i c) = strip data.
Proof.
  unfold push_back_at, strip. destruct (Z.ltb_spec i 0); [done|].
  apply list_eq. intros j. rewrite !list_lookup_imap, list_lookup_alter.
  case_decide; [|done]. subst j.
  destruct (data !! Z.to_nat i) as [m|]; simpl; [|done].
  f_equal. rewrite Z2Nat.id by done. apply strip_update_self.
Qed.

Lemma strip_push_back_at_other data i k c :
  k ≠ i → Forall (λ m, StronglySorted Z.lt m.*1) data →
  strip (push_back_at data i k c) = push_back_at (strip data) i k c.
Proof.
  intros Hk Hd. unfold push_back_at, strip. destruct (Z.ltb_spec i 0); [done|].
  apply list_eq. intros j.
  rewrite list_lookup_imap, !list_lookup_alter, !list_lookup_imap.
  case_decide; [|done]. subst j.
  destruct (data !! Z.to_nat i) as [m|] eqn:Hm; simpl; [|done].
  f_equal. rewrite Z2Nat.id by done. apply strip_update_other; [done|].
  by apply (Forall_lookup_1 _ _ _ _ Hd Hm).
Qed.

End erase_and_strip.

Section build_without_self_loops.
Variables (src dst ptr_t : list Z).

Lemma strip_build_fold l acc :
  Forall (λ m, StronglySorted Z.lt m.*1) acc.1 →
  Forall (λ m, StronglySorted Z.lt m.*1) acc.2 →
  strip (fold_left (build_step src dst ptr_t) l acc).1
  = (fold_left (build_step src dst ptr_t)
       (filter (λ j, nth j src 0 ≠ nth j dst 0) l)
       (strip acc.1, strip acc.2)).1 ∧
  strip (fold_left (build_step src dst ptr_t) l acc).2
  = (fold_left (build_step src dst ptr_t)
       (filter (λ j, nth j src 0 ≠ nth j dst 0) l)
       (strip acc.1, strip acc.2)).2.
Proof.
  revert acc. induction l as [|j l IH]; intros acc H1 H2; simpl; [done|].
  rewrite filter_cons.
  destruct (IH (build_step src dst ptr_t acc j)) as [E1 E2];
    [by apply push_back_at_keys..|].
  rewrite E1, E2. clear E1 E2. unfold build_step at 2 3 5 6. simpl.
  case_decide as Hj; simpl.
  - unfold build_step at 3 4. simpl.
    rewrite !strip_push_back_at_other by (done || lia). done.
  - assert (nth j src 0 = nth j dst 0) as -> by (destruct (decide (nth j src 0 = nth j dst 0)); tauto).
    by rewrite !strip_push_back_at_self.
Qed.

Lemma erase_build_fold src' dst' ptr_t' (ρ : nat → nat) l acc acc' :
  (∀ j, j ∈ l →
     nth j src' 0 = nth (ρ j) src 0 ∧ nth j dst' 0 = nth (ρ j) dst 0 ∧
     nth j ptr_t' 0 = nth (ρ j) ptr_t 0) →
  erase acc'.1 = erase acc.1 → erase acc'.2 = erase acc.2 →
  erase (fold_left (build_step src' dst' ptr_t') l acc').1
  = erase (fold_left (build_step src dst ptr_t) (map ρ l) acc).1 ∧
  erase (fold_left (build_step src' dst' ptr_t') l acc').2
  = erase (fold_left (build_step src dst ptr_t) (map ρ l) acc).2.
Proof.
  revert acc acc'. induction l as [|j l IH]; intros acc acc' Hl E1 E2; simpl;
    [done|].
  apply IH.
  - intros. apply Hl. set_solver.
  - unfold build_step. simpl. rewrite !erase_push_back_at, E1.
    destruct (Hl j) as (-> & -> & ->); [set_solver|]. done.
  - unfold build_step. simpl. rewrite !erase_push_back_at, E2.
    destruct (Hl j) as (-> & -> & ->); [set_solver|]. done.
Qed.

Lemma strip_empty n : strip (empty_lookup n) = empty_lookup n.
Proof.
  unfold strip, empty_lookup. apply list_eq. intros i.
  rewrite list_lookup_imap.
  destruct (replicate _ _ !! i) as [m|] eqn:Hm; simpl; [|done].
  by apply lookup_replicate in Hm as [-> _].
Qed.

(** Up to the row ids, the lookups built from the input without its
    self-loops are the lookups built from the whole input without the
    bucket that each node has for itself. *)
Lemma built_without_self_loops n :
  erase (built_lookups n
           (select_rows (kept_rows src dst ptr_t) src)
           (select_rows (kept_rows src dst ptr_t) dst)
           (select_rows (kept_rows src dst ptr_t) ptr_t)).1
  = erase (strip (built_lookups n src dst ptr_t).1) ∧
  erase (built_lookups n
           (select_rows (kept_rows src dst ptr_t) src)
           (select_rows (kept_rows src dst ptr_t) dst)
           (select_rows (kept_rows src dst ptr_t) ptr_t)).2
  = erase (strip (built_lookups n src dst ptr_t).2).
Proof.
  set (rows := kept_rows src dst ptr_t).
  rewrite !built_lookups_eq.
  destruct (strip_build_fold (R_orderVector ptr_t)
              (empty_lookup n, empty_lookup n)) as [S1 S2];
    [apply Forall_replicate; constructor..|].
  simpl in S1, S2. rewrite strip_empty in S1, S2. rewrite S1, S2.
  rewrite <-kept_rows_order. fold rows.
  apply erase_build_fold; [|done..].
  intros j Hj%R_orderVector_elem.
  unfold select_rows in Hj. rewrite length_map in Hj. fold rows in Hj.
  by rewrite !nth_select_rows.
Qed.

End build_without_self_loops.

Lemma for_each_fmap {A B St : Type} (g : A → B) (body : B → St → option St)
    l s :
  for_each body (g <$> l) s = for_each (λ a, body (g a)) l s.
Proof.
  revert s. induction l as [|a l IH]; intros s; simpl; [done|].
  destruct (body (g a) s); [apply IH|done].
Qed.

Lemma for_each_ext {A St : Type} (body1 body2 : A → St → option St) l s :
  (∀ a s, a ∈ l → body1 a s = body2 a s) →
  for_each body1 l s = for_each body2 l s.
Proof.
  revert s. induction l as [|a l IH]; intros s Hb; simpl; [done|].
  rewrite Hb by set_solver. destruct (body2 a s); [|done].
  apply IH. intros. apply Hb. set_solver.
Qed.

(** A loop may skip the elements at which the body does nothing. *)
Lemma for_each_filter {A St : Type} (I : St → Prop) (P : A → Prop)
    `{!∀ a, Decision (P a)} (body1 body2 : A → St → option St) l s :
  (∀ a s, a ∈ l → I s → P a → body1 a s = body2 a s) →
  (∀ a s, a ∈ l → I s → ¬ P a → body2 a s = Some s) →
  (∀ a s s', a ∈ l → I s → body2 a s = Some s' → I s') →
  I s → for_each body1 (filter P l) s = for_each body2 l s.
Proof.
  revert s. induction l as [|a l IH]; intros s H1 H2 H3 Hs; simpl; [done|].
  assert (∀ s', I s' → for_each body1 (filter P l) s' = for_each body2 l s')
    as IH'.
  { intros s' Hs'. apply IH; [| | |done].
    - intros. apply H1; [set_solver|done..].
    - intros. apply H2; [set_solver|done..].
    - intros a' ???. apply H3. set_solver. }
  rewrite filter_cons. case_decide as Ha; simpl.
  - rewrite H1 by (done || set_solver).
    destruct (body2 a s) as [s1|] eqn:Hb; [|done].
    apply IH'. eapply H3; [|done..]. set_solver.
  - rewrite (H2 a s) by (done || set_solver). by apply IH'.
Qed.

Section searches_forget_row_ids.

Lemma deref_erase v i : t (deref (map erase_contact v) i) = t (deref v i).
Proof.
  unfold deref. change (map erase_contact v) with (erase_contact <$> v).
  rewrite list_lookup_fmap. by destruct (v !! i).
Qed.

Lemma partition_point_erase (q : Z → bool) fuel v first len :
  partition_point fuel (λ c, q (t c)) (map erase_contact v) first len
  = partition_point fuel (λ c, q (t c)) v first len.
Proof.
  revert first len. induction fuel as [|fuel IH]; intros first len; [done|].
  rewrite !partition_point_S, deref_erase, !IH. done.
Qed.

Lemma lower_bound_erase v first last val :
  lower_bound (map erase_contact v) first last val
  = lower_bound v first last val.
Proof. apply (partition_point_erase (λ x, x <? val)). Qed.

Lemma upper_bound_erase v first last val :
  upper_bound (map erase_contact v) first last val
  = upper_bound v first last val.
Proof. apply (partition_point_erase (λ x, negb (val <? x))). Qed.

Lemma in_window_erase v i tEnd :
  in_window (map erase_contact v) i tEnd = in_window v i tEnd.
Proof. unfold in_window. by rewrite length_map, deref_erase. Qed.

Lemma narrow_erase ingoing v i j tBegin tEnd :
  narrow ingoing (map erase_contact v) i j tBegin tEnd
  = narrow ingoing v i j tBegin tEnd.
Proof. unfold narrow. by rewrite !deref_erase. Qed.

Lemma chain_descent_erase vn tBegin tEnd ingoing (it : Z * Contacts) :
  chain_descent vn tBegin tEnd ingoing (it.1, map erase_contact it.2)
  = chain_descent vn tBegin tEnd ingoing it.
Proof.
  unfold chain_descent. simpl.
  by rewrite length_map, !lower_bound_erase, !upper_bound_erase,
    in_window_erase, narrow_erase.
Qed.

Lemma vec_at_erase data node :
  vec_at (erase data) node
  = (λ it : Z * Contacts, (it.1, map erase_contact it.2)) <$> vec_at data node.
Proof.
  unfold vec_at, erase. destruct (node <? 0); [done|].
  change (map ?f data) with (f <$> data). rewrite list_lookup_fmap.
  by destruct (data !! Z.to_nat node).
Qed.

Lemma contactChain_erase fuel data node tBegin tEnd vn ingoing :
  contactChain fuel (erase data) node tBegin tEnd vn ingoing
  = contactChain fuel data node tBegin tEnd vn ingoing.
Proof.
  revert node tBegin tEnd vn. induction fuel as [|fuel IH];
    intros node tBegin tEnd vn; [done|].
  simpl. rewrite vec_at_erase, for_each_fmap.
  apply for_each_ext. intros it s _. unfold chain_visit.
  rewrite chain_descent_erase. simpl.
  destruct (chain_descent s tBegin tEnd ingoing it); [apply IH|done].
Qed.

Lemma degree_erase data node tBegin tEnd :
  degree (erase data) node tBegin tEnd = degree data node tBegin tEnd.
Proof.
  unfold degree. rewrite vec_at_erase. generalize 0.
  induction (vec_at data node) as [|it m IH]; intros r; simpl; [done|].
  by rewrite length_map, lower_bound_erase, in_window_erase, IH.
Qed.

End searches_forget_row_ids.

Section searches_skip_self_loops.

Lemma vec_at_strip data node :
  vec_at (strip data) node
  = filter (λ it : Z * Contacts, it.1 ≠ node) (vec_at data node).
Proof.
  unfold vec_at, strip. destruct (Z.ltb_spec node 0); [done|].
  rewrite list_lookup_imap.
  destruct (data !! Z.to_nat node) as [m|]; simpl; [|done].
  by rewrite Z2Nat.id.
Qed.

Lemma degree_strip data node tBegin tEnd :
  degree (strip data) node tBegin tEnd = degree data node tBegin tEnd.
Proof.
  unfold degree. rewrite vec_at_strip. generalize 0.
  induction (vec_at data node) as [|it m IH]; intros r; simpl; [done|].
  rewrite filter_cons. case_decide as Hit; simpl.
  - by rewrite IH.
  - destruct (Z.eqb_spec node it.1); [|congruence]. simpl. apply IH.
Qed.

Lemma contactChain_grows fuel data node tBegin tEnd vn ingoing vn' :
  contactChain fuel data node tBegin tEnd vn ingoing = Some vn' →
  grows ingoing (Update vn node tBegin tEnd ingoing) vn'.
Proof.
  revert node tBegin tEnd vn vn'. induction fuel as [|fuel IH];
    intros node tBegin tEnd vn vn'; simpl; [done|].
  apply (for_each_rel (grows ingoing)). intros it s s' _. unfold chain_visit.
  destruct (chain_descent s tBegin tEnd ingoing it); [|by intros [= ->]].
  intros Hrun%IH. etrans; [apply Update_grows|done].
Qed.

(** After its [Update], a node is closed to its own window: the bucket it
    has for itself is never descended into. *)
Lemma chain_descent_self ingoing vn s node tBegin tEnd (it : Z * Contacts) :
  0 ≤ node < Z.of_nat (length (visitedNodes vn)) →
  grows ingoing (Update vn node tBegin tEnd ingoing) s →
  it.1 = node →
  chain_descent s tBegin tEnd ingoing it = None.
Proof.
  intros Hnode [_ Hg] Hit. unfold chain_descent.
  destruct (Visit s it.1 tBegin tEnd ingoing) eqn:HV; [|done].
  apply Visit_true in HV. rewrite Hit in HV.
  destruct (Update_entry_self ingoing vn node tBegin tEnd Hnode)
    as (Hm & Hb & _).
  destruct (Hg node Hm) as [Hm' Hb'].
  destruct HV; [congruence|lia].
Qed.

Lemma contactChain_strip n data ingoing fuel node tBegin tEnd vn :
  all_buckets (λ it, 0 ≤ it.1 < n) data →
  0 ≤ node < n → length (visitedNodes vn) = Z.to_nat n →
  contactChain fuel (strip data) node tBegin tEnd vn ingoing
  = contactChain fuel data node tBegin tEnd vn ingoing.
Proof.
  intros Hrange. revert node tBegin tEnd vn. induction fuel as [|fuel IH];
    intros node tBegin tEnd vn Hnode Hlen; [done|].
  simpl. rewrite vec_at_strip.
  apply (for_each_filter
           (grows ingoing (Update vn node tBegin tEnd ingoing))).
  - intros it s Hit Hg _. unfold chain_visit.
    destruct (chain_descent s tBegin tEnd ingoing it); [|done].
    apply IH.
    + apply (all_buckets_vec_at _ _ _ _ Hrange Hit).
    + destruct Hg as [-> _]. by rewrite Update_length.
  - intros it s Hit Hg Hself. unfold chain_visit.
    rewrite (chain_descent_self ingoing vn s node); [done|lia|done|].
    destruct (decide (it.1 = node)); [done|tauto].
  - intros it s s' Hit Hg. unfold chain_visit.
    destruct (chain_descent s tBegin tEnd ingoing it); [|by intros [= <-]].
    intros Hrun%contactChain_grows.
    etrans; [done|]. etrans; [apply Update_grows|done].
  - done.
Qed.

End searches_skip_self_loops.

(** C7. For a number of identifiers that is not negative, event columns
    with identifiers in range and roots in range, [networkSummary]
    returns the same degrees and the same chain sizes on
    the input from which every self-loop event has been removed as on the
    whole input. *)
Theorem self_loops_do_not_count n src dst ptr_t root inBegin inEnd outBegin
    outEnd :
  0 ≤ n →
  valid_events n src dst ptr_t →
  Forall (λ r, 1 ≤ r ≤ n) root →
  ∃ summary,
    networkSummary true (IntegerVector src) (IntegerVector dst)
      (IntegerVector ptr_t) (IntegerVector root) (IntegerVector inBegin)
      (IntegerVector inEnd) (IntegerVector outBegin) (IntegerVector outEnd)
      (IntegerVector [n]) = Returned summary ∧
    networkSummary true
      (IntegerVector (select_rows (kept_rows src dst ptr_t) src))
      (IntegerVector (select_rows (kept_rows src dst ptr_t) dst))
      (IntegerVector (select_rows (kept_rows src dst ptr_t) ptr_t))
      (IntegerVector root) (IntegerVector inBegin) (IntegerVector inEnd)
      (IntegerVector outBegin) (IntegerVector outEnd) (IntegerVector [n])
    = Returned summary.
Proof.
  intros Hn Hvalid Hroot. eexists. split; [by apply networkSummary_valid|].
  set (rows := kept_rows src dst ptr_t).
  assert (valid_events n (select_rows rows src) (select_rows rows dst)
            (select_rows rows ptr_t)) as Hvalid'.
  { destruct Hvalid as (Hls & Hld & Hs & Hd).
    unfold valid_events, select_rows. rewrite !length_map.
    split_and!; [done..| |].
    - apply Forall_fmap, Forall_forall.
      intros j [_ Hj%elem_of_seq]%list_elem_of_filter. simpl.
      rewrite Forall_forall in Hs. apply Hs, list_elem_of_In, nth_In. lia.
    - apply Forall_fmap, Forall_forall.
      intros j [_ Hj%elem_of_seq]%list_elem_of_filter. simpl.
      rewrite Forall_forall in Hd. apply Hd, list_elem_of_In, nth_In. lia. }
  rewrite networkSummary_valid by done.
  destruct (built_without_self_loops src dst ptr_t n) as [E1 E2].
  fold rows in E1, E2.
  destruct (built_lookups_wf n src dst ptr_t Hvalid)
    as [[_ _ Hr1 _ _] [_ _ Hr2 _ _]].
  assert (∀ i, i ∈ seq 0 (length root) → 0 ≤ nth i root 0 - 1 < n) as Hnode.
  { intros i Hi%elem_of_seq. rewrite Forall_forall in Hroot.
    pose proof (Hroot (nth i root 0)) as H.
    rewrite list_elem_of_In in H. specialize (H ltac:(apply nth_In; lia)).
    lia. }
  f_equal. f_equal; apply map_ext_in; intros i Hi%list_elem_of_In.
  - rewrite <-degree_erase, E1, degree_erase. apply degree_strip.
  - rewrite <-degree_erase, E2, degree_erase. apply degree_strip.
  - unfold chain_size.
    rewrite <-contactChain_erase, E1, contactChain_erase.
    rewrite (contactChain_strip n);
      [done|done|by apply Hnode|apply VisitedNodes_new_length].
  - unfold chain_size.
    rewrite <-contactChain_erase, E2, contactChain_erase.
    rewrite (contactChain_strip n);
      [done|done|by apply Hnode|apply VisitedNodes_new_length].
Qed.

Lemma self_loops_do_not_count_witness :
  0 ≤ 3 ∧ valid_events 3 [1; 2; 2; 3] [2; 2; 3; 3] [10; 15; 20; 25] ∧
  Forall (λ r, 1 ≤ r ≤ 3) [1; 2] ∧
  ∃ summary,
    networkSummary true (IntegerVector [1; 2; 2; 3])
      (IntegerVector [2; 2; 3; 3]) (IntegerVector [10; 15; 20; 25])
      (IntegerVector [1; 2]) (IntegerVector [0; 0])
      (IntegerVector [100; 100]) (IntegerVector [0; 0])
      (IntegerVector [100; 100]) (IntegerVector [3]) = Returned summary ∧
    networkSummary true (IntegerVector [1; 2]) (IntegerVector [2; 3])
      (IntegerVector [10; 20]) (IntegerVector [1; 2]) (IntegerVector [0; 0])
      (IntegerVector [100; 100]) (IntegerVector [0; 0])
      (IntegerVector [100; 100]) (IntegerVector [3]) = Returned summary.
Proof.
  assert (valid_events 3 [1; 2; 2; 3] [2; 2; 3; 3] [10; 15; 20; 25])
    as Hvalid.
  { split_and!; [reflexivity|reflexivity| |]; repeat constructor; simpl; lia. }
  assert (Forall (λ r, 1 ≤ r ≤ 3) [1; 2]) as Hroot
    by (repeat constructor; lia).
  assert (0 ≤ 3) as Hn by lia.
  split; [exact Hn|]. split; [exact Hvalid|]. split; [exact Hroot|].
  exact (self_loops_do_not_count 3 [1; 2; 2; 3] [2; 2; 3; 3] [10; 15; 20; 25]
           [1; 2] [0; 0] [100; 100] [0; 0] [100; 100] Hn Hvalid Hroot).
Defined.

(** ** The searches, one level at a time *)

Lemma events_within_first_last (v : Contacts) tBegin tEnd :
  events_within v tBegin tEnd ≠ [] →
  is_Some (first_from v tBegin) ∧ is_Some (last_upto v tEnd).
Proof.
  intros Hne.
  destruct (events_within v tBegin tEnd) as [|c l] eqn:E; [done|].
  assert (c ∈ events_within v tBegin tEnd) as Hc by (rewrite E; set_solver).
  apply list_elem_of_filter in Hc as [Hc Hin].
  unfold first_from, last_upto. split.
  - destruct (filter (λ c, tBegin ≤ t c) v) as [|a l'] eqn:F; [|by eexists].
    assert (c ∈ filter (λ c, tBegin ≤ t c) v) as Hf
      by (apply list_elem_of_filter; split; [lia|done]).
    rewrite F in Hf. by apply elem_of_nil in Hf.
  - destruct (filter (λ c, t c ≤ tEnd) v) as [|a l'] eqn:F.
    + assert (c ∈ filter (λ c, t c ≤ tEnd) v) as Hf
        by (apply list_elem_of_filter; split; [lia|done]).
      rewrite F in Hf. by apply elem_of_nil in Hf.
    + rewrite last_cons. destruct (last l'); by eexists.
Qed.

Lemma child_window_None ingoing (v : Contacts) tBegin tEnd :
  child_window ingoing v tBegin tEnd = None ↔ events_within v tBegin tEnd = [].
Proof.
  unfold child_window. split.
  - destruct (events_within v tBegin tEnd) as [|c l] eqn:E; [done|].
    destruct (events_within_first_last v tBegin tEnd) as [[a ->] [b ->]];
      [by rewrite E|].
    by destruct ingoing.
  - by intros ->.
Qed.

(** The tests and the searches of the code on a sorted bucket, in the words
    of the specification. *)
Lemma child_window_code ingoing (v : Contacts) tBegin tEnd :
  time_sorted v →
  (if in_window v (lower_bound v 0 (length v) tBegin) tEnd
   then Some (narrow ingoing v (lower_bound v 0 (length v) tBegin)
                (upper_bound v (lower_bound v 0 (length v) tBegin)
                   (length v) tEnd) tBegin tEnd)
   else None)
  = child_window ingoing v tBegin tEnd.
Proof.
  intros Hs.
  destruct (in_window v (lower_bound v 0 (length v) tBegin) tEnd) eqn:Hw.
  - destruct (narrow_sorted ingoing _ _ _ Hs Hw)
      as (ci & cj & Hci & Hcj & -> & _).
    apply in_window_events in Hw; [|done]. unfold child_window.
    destruct (events_within v tBegin tEnd); [done|].
    rewrite Hci, Hcj. by destruct ingoing.
  - symmetry. apply child_window_None.
    destruct (events_within v tBegin tEnd) as [|c l] eqn:E; [done|].
    assert (in_window v (lower_bound v 0 (length v) tBegin) tEnd = true)
      as Hw'; [|congruence].
    apply in_window_events; [done|]. by rewrite E.
Qed.

Lemma first_from_code (v : Contacts) tBegin tEnd :
  time_sorted v →
  in_window v (lower_bound v 0 (length v) tBegin) tEnd = true →
  first_from v tBegin = Some (deref v (lower_bound v 0 (length v) tBegin)).
Proof.
  intros Hs Hw.
  destruct (qualifying_sorted _ _ _ Hs Hw)
    as (i & j & ci & cj & Hi & Hi' & Hj & Hj' & Hij & Hci & Hcj & Hb).
  rewrite Hi, (deref_lookup _ _ _ Hci). by rewrite first_from_scan, <-Hi'.
Qed.

Lemma child_window_inside ingoing (v : Contacts) tBegin tEnd w :
  time_sorted v →
  child_window ingoing v tBegin tEnd = Some w →
  tBegin ≤ w.1 ∧ w.1 ≤ w.2 ∧ w.2 ≤ tEnd.
Proof.
  intros Hs Hw. rewrite <-child_window_code in Hw by done.
  destruct (in_window v (lower_bound v 0 (length v) tBegin) tEnd) eqn:Hin;
    [|done].
  destruct (narrow_sorted ingoing _ _ _ Hs Hin) as (ci & cj & _ & _ & Hn & Hb).
  rewrite Hn in Hw. injection Hw as <-. destruct ingoing; simpl; lia.
Qed.

Lemma gate_open_Visit vn k tBegin tEnd ingoing :
  Visit vn k tBegin tEnd ingoing = gate_open vn k tBegin tEnd ingoing.
Proof.
  unfold Visit, gate_open. destruct (entry vn k) as [[] bound]; simpl; [|done].
  destruct ingoing.
  - destruct (Z.leb_spec tEnd bound), (Z.ltb_spec bound tEnd); (done || lia).
  - destruct (Z.geb_spec tBegin bound), (Z.ltb_spec tBegin bound); (done || lia).
Qed.

Lemma path_visit_level self tBegin tEnd (visited : gset Z) distance ingoing
    (it : Z * Contacts) (result : PathMap) :
  time_sorted it.2 →
  path_visit self tBegin tEnd visited distance ingoing it result
  = if decide (it.1 ∈ visited) then Some result
    else match child_window ingoing it.2 tBegin tEnd,
               first_from it.2 tBegin with
         | Some w, Some c =>
             self it.1 w.1 w.2 visited (distance + 1)
               (record_path result it.1 distance c)
         | _, _ => Some result
         end.
Proof.
  intros Hs. unfold path_visit. case_decide; [done|].
  rewrite <-child_window_code by done.
  destruct (in_window _ _ _) eqn:Hw; [|done].
  by rewrite (first_from_code _ _ _ Hs Hw).
Qed.

Lemma trace_visit_level self tBegin tEnd (visited : gset Z) distance ingoing
    maxDistance (it : Z * Contacts) (res : Trace) :
  time_sorted it.2 →
  trace_visit self tBegin tEnd visited distance ingoing maxDistance it res
  = if decide (it.1 ∈ visited) then Some res
    else match child_window ingoing it.2 tBegin tEnd with
         | Some w =>
             let events := events_within it.2 tBegin tEnd in
             let recorded :=
               (res.1 ++ map (λ c, rowid c + 1) events,
                res.2 ++ replicate (length events) distance) in
             if decide (0 < maxDistance ≤ distance) then Some recorded
             else self it.1 w.1 w.2 visited (distance + 1) recorded
         | None => Some res
         end.
Proof.
  intros Hs. destruct (decide (it.1 ∈ visited)) as [Hv|Hv].
  { unfold trace_visit. by rewrite decide_True. }
  rewrite <-child_window_code by done.
  destruct (in_window it.2 _ tEnd) eqn:Hw.
  - rewrite trace_visit_qualifying by done. simpl.
    destruct (qualifying_sorted _ _ _ Hs Hw)
      as (i & j & ci & cj & Hi & Hi' & Hj & Hj' & Hij & Hci & Hcj & Hb).
    rewrite Hi, Hj.
    assert (events_within it.2 tBegin tEnd = drop i (take j it.2)) as Hev.
    { rewrite events_within_range by done. by rewrite <-Hi', <-Hj'. }
    rewrite Hev.
    replace (length (drop i (take j it.2))) with (j - i)%nat
      by (rewrite length_drop, length_take_le; lia).
    unfold depth_reached.
    destruct (Z.ltb_spec 0 maxDistance), (Z.leb_spec maxDistance distance);
      simpl; case_decide; (done || lia).
  - unfold trace_visit. rewrite decide_False by done. by rewrite Hw.
Qed.

Lemma chain_visit_level self tBegin tEnd ingoing (it : Z * Contacts) vn :
  time_sorted it.2 →
  chain_visit self tBegin tEnd ingoing it vn
  = match child_window ingoing it.2 tBegin tEnd with
    | Some w =>
        if gate_open vn it.1 tBegin tEnd ingoing
        then self it.1 w.1 w.2 vn else Some vn
    | None => Some vn
    end.
Proof.
  intros Hs. unfold chain_visit, chain_descent.
  rewrite <-child_window_code, gate_open_Visit by done.
  destruct (gate_open _ _ _ _ _), (in_window _ _ _); done.
Qed.

Section levels.
Variable data : ContactsLookup.
Hypothesis Hsorted : all_buckets (λ it, time_sorted it.2) data.

Lemma doShortestPaths_level fuel node tBegin tEnd (visited : gset Z) distance
    ingoing result :
  doShortestPaths (S fuel) data node tBegin tEnd visited distance ingoing result
  = for_each
      (λ it result,
         if decide (it.1 ∈ {[node]} ∪ visited) then Some result
         else match child_window ingoing it.2 tBegin tEnd,
                    first_from it.2 tBegin with
              | Some w, Some c =>
                  doShortestPaths fuel data it.1 w.1 w.2 ({[node]} ∪ visited)
                    (distance + 1) ingoing (record_path result it.1 distance c)
              | _, _ => Some result
              end)
      (vec_at data node) result.
Proof.
  simpl. apply for_each_ext. intros it r Hit.
  apply path_visit_level, (all_buckets_vec_at _ _ _ _ Hsorted Hit).
Qed.

Lemma doTraceContacts_level fuel node tBegin tEnd (visited : gset Z) distance
    ingoing res maxDistance :
  doTraceContacts (S fuel) data node tBegin tEnd visited distance ingoing res
    maxDistance
  = for_each
      (λ it res,
         if decide (it.1 ∈ {[node]} ∪ visited) then Some res
         else match child_window ingoing it.2 tBegin tEnd with
              | Some w =>
                  let events := events_within it.2 tBegin tEnd in
                  let recorded :=
                    (res.1 ++ map (λ c, rowid c + 1) events,
                     res.2 ++ replicate (length events) distance) in
                  if decide (0 < maxDistance ≤ distance) then Some recorded
                  else doTraceContacts fuel data it.1 w.1 w.2
                         ({[node]} ∪ visited) (distance + 1) ingoing recorded
                         maxDistance
              | None => Some res
              end)
      (vec_at data node) res.
Proof.
  simpl. apply for_each_ext. intros it r Hit.
  apply trace_visit_level, (all_buckets_vec_at _ _ _ _ Hsorted Hit).
Qed.

Lemma contactChain_level fuel node tBegin tEnd vn ingoing :
  contactChain (S fuel) data node tBegin tEnd vn ingoing
  = for_each
      (λ it vn,
         match child_window ingoing it.2 tBegin tEnd with
         | Some w =>
             if gate_open vn it.1 tBegin tEnd ingoing
             then contactChain fuel data it.1 w.1 w.2 vn ingoing
             else Some vn
         | None => Some vn
         end)
      (vec_at data node) (Update vn node tBegin tEnd ingoing).
Proof.
  simpl. apply for_each_ext. intros it r Hit.
  apply chain_visit_level, (all_buckets_vec_at _ _ _ _ Hsorted Hit).
Qed.

End levels.

(** ** The searches that carry their path, run *)

Lemma Forall2_map_replicate {A : Type} (Q : Z → Z → Prop) (f : A → Z)
    (l : list A) d :
  (∀ c, c ∈ l → Q (f c) d) → Forall2 Q (map f l) (replicate (length l) d).
Proof.
  induction l as [|a l IH]; intros H; simpl; constructor.
  - apply H. set_solver.
  - apply IH. intros. apply H. set_solver.
Qed.

Lemma elem_of_zip_map_replicate {A : Type} (f : A → Z) (l : list A) (d : Z) c :
  c ∈ l → (f c, d) ∈ zip (map f l) (replicate (length l) d).
Proof.
  induction l as [|a l IH]; simpl; [by intros ?%elem_of_nil|].
  intros [->|?]%elem_of_cons; [left|right; auto].
Qed.

(** A loop whose turns append row ids and distances. *)
Lemma for_each_appends {A : Type} (body : A → Trace → option Trace)
    (Cause : Z → Z → Prop) (Cov : A → list (Z * Z) → Prop) l res :
  (∀ a res, a ∈ l →
     ∃ rows dists,
       body a res = Some (res.1 ++ rows, res.2 ++ dists) ∧
       Forall2 Cause rows dists ∧ Cov a (zip rows dists)) →
  (∀ a ps ps1 ps2, Cov a ps → Cov a (ps1 ++ ps ++ ps2)) →
  ∃ rows dists,
    for_each body l res = Some (res.1 ++ rows, res.2 ++ dists) ∧
    Forall2 Cause rows dists ∧ ∀ a, a ∈ l → Cov a (zip rows dists).
Proof.
  intros Hb Hmono. revert res. induction l as [|a l IH]; intros res; simpl.
  { exists [], []. rewrite !app_nil_r. split_and!; [by destruct res|done|].
    intros a Ha. by apply elem_of_nil in Ha. }
  destruct (Hb a res) as (rows1 & dists1 & -> & HC1 & Hcov1); [set_solver|].
  destruct IH with (res := (res.1 ++ rows1, res.2 ++ dists1))
    as (rows2 & dists2 & -> & HC2 & Hcov2).
  { intros a' res' Ha'. apply Hb. set_solver. }
  exists (rows1 ++ rows2), (dists1 ++ dists2). simpl.
  rewrite !app_assoc. split_and!; [done|by apply Forall2_app|].
  rewrite zip_with_app by by eapply Forall2_length.
  intros a' [->|Ha']%elem_of_cons.
  - specialize (Hmono a _ [] (zip rows2 dists2) Hcov1). done.
  - specialize (Hmono a' _ (zip rows1 dists1) [] (Hcov2 a' Ha')).
    by rewrite app_nil_r in Hmono.
Qed.

#[local] Instance entries_from_refl found : Reflexive (entries_from found).
Proof. intros m k. by left. Qed.

#[local] Instance entries_from_trans found : Transitive (entries_from found).
Proof.
  intros m1 m2 m3 H12 H23 k.
  destruct (H23 k) as [E23|(it & tB & tE & d & c & Hf & Hk & Hc & E3 & Hlt)].
  - destruct (H12 k) as [E12|(it & tB & tE & d & c & Hf & Hk & Hc & E2 & Hlt)].
    + left. congruence.
    + right. exists it, tB, tE, d, c. split_and!; [done..|congruence|done].
  - right. exists it, tB, tE, d, c. split_and!; [done..|].
    intros d0 r0 E1.
    destruct (H12 k) as [E12|(it' & tB' & tE' & d' & c' & _ & _ & _ & E2 & Hlt')].
    + apply (Hlt d0 r0). congruence.
    + specialize (Hlt _ _ E2). specialize (Hlt' _ _ E1). lia.
Qed.

Lemma entries_from_impl (found found' : Z * Contacts → Z → Z → Z → Prop) m m' :
  (∀ it tB tE d, found it tB tE d → found' it tB tE d) →
  entries_from found m m' → entries_from found' m m'.
Proof.
  intros Hf H k.
  destruct (H k) as [?|(it & tB & tE & d & c & ? & ?)]; [by left|right].
  exists it, tB, tE, d, c. split; [by apply Hf|done].
Qed.

Lemma entries_from_le found m m' k d d1 r1 :
  entries_from found m m' →
  OMap.find k m = Some (d1, r1) → d1 ≤ d →
  ∃ d' r', OMap.find k m' = Some (d', r') ∧ d' ≤ d.
Proof.
  intros H E Hd.
  destruct (H k) as [E'|(it & tB & tE & d2 & c & _ & _ & _ & E' & Hlt)].
  - exists d1, r1. split; [congruence|done].
  - exists d2, (rowid c + 1). split; [done|].
    specialize (Hlt _ _ E). lia.
Qed.

Lemma entries_from_only_closer found m m' :
  entries_from found m m' → only_closer m m'.
Proof.
  intros H k d r E.
  destruct (H k) as [E'|(it & tB & tE & d2 & c & _ & _ & _ & E' & Hlt)].
  - exists d, r. split; [congruence|by right].
  - exists d2, (rowid c + 1). split; [done|]. left. by eapply Hlt.
Qed.

Lemma record_path_find result first distance c :
  ∃ d r, OMap.find first (record_path result first distance c) = Some (d, r)
         ∧ d ≤ distance.
Proof.
  unfold record_path.
  destruct (OMap.find first result) as [[d0 r0]|] eqn:E.
  - destruct (Z.ltb_spec distance d0).
    + rewrite find_update_const. eexists _, _. split; [done|lia].
    + rewrite E. eexists _, _. split; [done|lia].
  - rewrite find_update_const. eexists _, _. split; [done|lia].
Qed.

Section runs.
Variable n : Z.
Variable data : ContactsLookup.
Variable ingoing : bool.
Hypothesis Hrange : all_buckets (λ it, 0 ≤ it.1 < n) data.
Hypothesis Hsorted : all_buckets (λ it, time_sorted it.2) data.

Lemma doTraceContacts_run maxDistance fuel node tBegin tEnd (visited : gset Z)
    distance res :
  (size (identifiers n ∖ ({[node]} ∪ visited)) < fuel)%nat →
  ∃ rows dists,
    doTraceContacts fuel data node tBegin tEnd visited distance ingoing res
      maxDistance
    = Some (res.1 ++ rows, res.2 ++ dists) ∧
    Forall2
      (λ r d, ∃ it tB tE c,
         discovers data ingoing maxDistance node tBegin tEnd visited distance
           it tB tE d ∧
         c ∈ events_within it.2 tB tE ∧ r = rowid c + 1)
      rows dists ∧
    (∀ it tB tE d c,
       discovers data ingoing maxDistance node tBegin tEnd visited distance
         it tB tE d →
       c ∈ events_within it.2 tB tE →
       (rowid c + 1, d) ∈ zip rows dists).
Proof.
  revert node tBegin tEnd visited distance res.
  induction fuel as [|fuel IH]; intros node tBegin tEnd visited distance res
    Hfuel; [lia|].
  rewrite doTraceContacts_level by done.
  set (vs := {[node]} ∪ visited) in *.
  match goal with |- context [for_each ?b _ _] => set (body := b) end.
  destruct (for_each_appends body
    (λ r d, ∃ it tB tE c,
       discovers data ingoing maxDistance node tBegin tEnd visited distance
         it tB tE d ∧
       c ∈ events_within it.2 tB tE ∧ r = rowid c + 1)
    (λ it ps,
       (it.1 ∉ vs) →
       (∀ c, c ∈ events_within it.2 tBegin tEnd →
             (rowid c + 1, distance) ∈ ps) ∧
       (∀ w it' tB tE d c,
          child_window ingoing it.2 tBegin tEnd = Some w →
          (0 < maxDistance → distance < maxDistance) →
          discovers data ingoing maxDistance it.1 w.1 w.2 vs (distance + 1)
            it' tB tE d →
          c ∈ events_within it'.2 tB tE → (rowid c + 1, d) ∈ ps))
    (vec_at data node) res) as (rows & dists & Hrun & Hcause & Hcov).
  - intros it r Hit. unfold body.
    pose proof (all_buckets_vec_at _ _ _ _ Hrange Hit) as Hk. simpl in Hk.
    destruct (decide (it.1 ∈ vs)) as [Hv|Hv].
    { exists [], []. rewrite !app_nil_r. split_and!; [by destruct r|done|done]. }
    destruct (child_window ingoing it.2 tBegin tEnd) as [w|] eqn:Hw.
    2:{ exists [], []. rewrite !app_nil_r.
        split_and!; [by destruct r|done|]. intros _.
        apply child_window_None in Hw. rewrite Hw. split; [|done].
        intros c Hc. by apply elem_of_nil in Hc. }
    assert (events_within it.2 tBegin tEnd ≠ []) as Hne.
    { intros E. apply (child_window_None ingoing) in E. congruence. }
    assert (Forall2
      (λ r d, ∃ it tB tE c,
         discovers data ingoing maxDistance node tBegin tEnd visited distance
           it tB tE d ∧
         c ∈ events_within it.2 tB tE ∧ r = rowid c + 1)
      (map (λ c, rowid c + 1) (events_within it.2 tBegin tEnd))
      (replicate (length (events_within it.2 tBegin tEnd)) distance)) as Hhere.
    { apply Forall2_map_replicate. intros c Hc.
      exists it, tBegin, tEnd, c. split_and!; [|done..].
      by apply discovers_here. }
    simpl. destruct (decide (0 < maxDistance ≤ distance)) as [Hcap|Hcap].
    + eexists _, _. split_and!; [done|done|]. intros _. split.
      * intros c Hc. by apply (elem_of_zip_map_replicate (λ c, rowid c + 1)).
      * intros; lia.
    + destruct (IH it.1 w.1 w.2 vs (distance + 1)
        (r.1 ++ map (λ c, rowid c + 1) (events_within it.2 tBegin tEnd),
         r.2 ++ replicate (length (events_within it.2 tBegin tEnd)) distance))
        as (rows1 & dists1 & -> & Hc1 & Hcov1).
      { pose proof (off_path_shrinks n _ _ Hk Hv). unfold vs in *. lia. }
      simpl. rewrite <-!app_assoc.
      eexists _, _. split_and!; [done| |].
      * apply Forall2_app; [done|].
        eapply Forall2_impl; [done|].
        intros r0 d0 (it' & tB & tE & c & Hd & Hc & ->).
        exists it', tB, tE, c. split_and!; [|done..].
        eapply discovers_on; [done|done|done|lia|done].
      * intros _.
        rewrite zip_with_app
          by (rewrite length_map, length_replicate; done).
        split.
        -- intros c Hc. apply elem_of_app. left.
           by apply (elem_of_zip_map_replicate (λ c, rowid c + 1)).
        -- intros w' it' tB tE d c [= <-] _ Hd Hc.
           apply elem_of_app. right. by eapply Hcov1.
  - intros it ps ps1 ps2 H Hv. destruct (H Hv) as [H1 H2]. split.
    + intros c Hc. rewrite !elem_of_app. auto.
    + intros. rewrite !elem_of_app. right. left. by eapply H2.
  - exists rows, dists. split_and!; [done|done|].
    intros it tB tE d c Hd Hc. inversion Hd; subst.
    + by apply (Hcov it).
    + match goal with H : child_window _ _ _ _ = Some _ |- _ =>
        eapply (Hcov _ ltac:(eassumption) ltac:(eassumption)); [exact H|..]
      end; done.
Qed.

Lemma doShortestPaths_run fuel node tBegin tEnd (visited : gset Z) distance
    result :
  (size (identifiers n ∖ ({[node]} ∪ visited)) < fuel)%nat →
  ∃ result',
    doShortestPaths fuel data node tBegin tEnd visited distance ingoing result
    = Some result' ∧
    entries_from
      (discovers data ingoing 0 node tBegin tEnd visited distance)
      result result' ∧
    (∀ it tB tE d,
       discovers data ingoing 0 node tBegin tEnd visited distance it tB tE d →
       ∃ d' r', OMap.find it.1 result' = Some (d', r') ∧ d' ≤ d).
Proof.
  revert node tBegin tEnd visited distance result.
  induction fuel as [|fuel IH]; intros node tBegin tEnd visited distance result
    Hfuel; [lia|].
  rewrite doShortestPaths_level by done.
  set (vs := {[node]} ∪ visited) in *.
  set (found := discovers data ingoing 0 node tBegin tEnd visited distance).
  match goal with |- context [for_each ?b _ _] => set (body := b) end.
  destruct (for_each_total_each
    (λ _, True) (entries_from found)
    (λ it s,
       (it.1 ∉ vs) →
       (events_within it.2 tBegin tEnd ≠ [] →
        ∃ d' r', OMap.find it.1 s = Some (d', r') ∧ d' ≤ distance) ∧
       (∀ w it' tB tE d,
          child_window ingoing it.2 tBegin tEnd = Some w →
          discovers data ingoing 0 it.1 w.1 w.2 vs (distance + 1)
            it' tB tE d →
          ∃ d' r', OMap.find it'.1 s = Some (d', r') ∧ d' ≤ d))
    body (vec_at data node) result) as (result' & Hrun & _ & Hfrom & Hcov);
    [| |done|].
  - intros it r Hit _. unfold body.
    pose proof (all_buckets_vec_at _ _ _ _ Hrange Hit) as Hk. simpl in Hk.
    destruct (decide (it.1 ∈ vs)) as [Hv|Hv].
    { exists r. split_and!; [done|done|done|done]. }
    destruct (child_window ingoing it.2 tBegin tEnd) as [w|] eqn:Hw.
    2:{ exists r. split_and!; [done|done|done|]. intros _.
        apply child_window_None in Hw. by split. }
    assert (events_within it.2 tBegin tEnd ≠ []) as Hne.
    { intros E. apply (child_window_None ingoing) in E. congruence. }
    destruct (events_within_first_last _ _ _ Hne) as [[c Hc] _]. rewrite Hc.
    assert (entries_from found r (record_path r it.1 distance c)) as Hrec.
    { intros k. destruct (decide (k = it.1)) as [->|Hne'].
      - unfold record_path.
        destruct (OMap.find it.1 r) as [[d0 r0]|] eqn:E.
        + destruct (Z.ltb_spec distance d0); [|by left]. right.
          exists it, tBegin, tEnd, distance, c.
          rewrite find_update_const.
          split_and!; [by apply discovers_here|done..|].
          intros ?? [= <- <-]. done.
        + right. exists it, tBegin, tEnd, distance, c.
          rewrite find_update_const.
          split_and!; [by apply discovers_here|done..].
      - left. by apply record_path_other. }
    destruct (IH it.1 w.1 w.2 vs (distance + 1)
                (record_path r it.1 distance c))
      as (r2 & -> & Hfrom2 & Hcov2).
    { pose proof (off_path_shrinks n _ _ Hk Hv). unfold vs in *. lia. }
    assert (entries_from found (record_path r it.1 distance c) r2) as Hchild.
    { eapply entries_from_impl; [|done]. intros it' tB tE d Hd.
      eapply discovers_on; [done|done|done|lia|done]. }
    exists r2. split_and!; [done|done|by etrans|]. intros _. split.
    + intros _.
      destruct (record_path_find r it.1 distance c) as (d1 & r1 & E1 & Hd1).
      by eapply entries_from_le.
    + intros w' it' tB tE d [= <-] Hd. by eapply Hcov2.
  - intros it s s' HQ Hss' Hv. destruct (HQ Hv) as [H1 H2]. split.
    + intros Hne. destruct (H1 Hne) as (d1 & r1 & E1 & Hd1).
      by eapply entries_from_le.
    + intros w it' tB tE d Hw Hd.
      destruct (H2 w it' tB tE d Hw Hd) as (d1 & r1 & E1 & Hd1).
      by eapply entries_from_le.
  - exists result'. split_and!; [done|done|].
    intros it tB tE d Hd. inversion Hd; subst.
    + by apply (Hcov it).
    + match goal with H : child_window _ _ _ _ = Some _ |- _ =>
        eapply (Hcov _ ltac:(eassumption) ltac:(eassumption)); [exact H|done]
      end.
Qed.

End runs.

Lemma narrowing_valid : valid_events 3 narrowing_src narrowing_dst narrowing_t.
Proof.
  split_and!; [reflexivity|reflexivity| |];
    repeat constructor; simpl; lia.
Defined.

Lemma built_wf_either n src dst ptr_t data :
  valid_events n src dst ptr_t →
  data = (built_lookups n src dst ptr_t).1
  ∨ data = (built_lookups n src dst ptr_t).2 →
  wf_lookup n (length ptr_t) data.
Proof.
  intros Hvalid Hdata. destruct (built_lookups_wf n src dst ptr_t Hvalid).
  by destruct Hdata as [-> | ->].
Qed.

(** ** C5: the window of a descent *)

(** C5. On the lookups built from event columns with identifiers in range,
    one level of each recursive search is the loop over the neighbour
    buckets of the node in which every recursive call receives the window
    [child_window] of the bucket, and a bucket that hands down no window
    gets no call. That window is, ingoing, [tBegin] with the time of the
    last event of the bucket with [t <= tEnd]; outgoing, the time of the
    first event of the bucket with [t >= tBegin] with [tEnd]; it lies
    inside the window of the call. *)
Theorem descent_window n src dst ptr_t data (ingoing : bool) :
  valid_events n src dst ptr_t →
  data = (built_lookups n src dst ptr_t).1
  ∨ data = (built_lookups n src dst ptr_t).2 →
  (∀ fuel node tBegin tEnd (visited : gset Z) distance result,
     doShortestPaths (S fuel) data node tBegin tEnd visited distance ingoing
       result
     = for_each
         (λ it result,
            if decide (it.1 ∈ {[node]} ∪ visited) then Some result
            else match child_window ingoing it.2 tBegin tEnd,
                       first_from it.2 tBegin with
                 | Some w, Some c =>
                     doShortestPaths fuel data it.1 w.1 w.2
                       ({[node]} ∪ visited) (distance + 1) ingoing
                       (record_path result it.1 distance c)
                 | _, _ => Some result
                 end)
         (vec_at data node) result) ∧
  (∀ fuel node tBegin tEnd (visited : gset Z) distance res maxDistance,
     doTraceContacts (S fuel) data node tBegin tEnd visited distance ingoing
       res maxDistance
     = for_each
         (λ it res,
            if decide (it.1 ∈ {[node]} ∪ visited) then Some res
            else match child_window ingoing it.2 tBegin tEnd with
                 | Some w =>
                     let events := events_within it.2 tBegin tEnd in
                     let recorded :=
                       (res.1 ++ map (λ c, rowid c + 1) events,
                        res.2 ++ replicate (length events) distance) in
                     if decide (0 < maxDistance ≤ distance) then Some recorded
                     else doTraceContacts fuel data it.1 w.1 w.2
                            ({[node]} ∪ visited) (distance + 1) ingoing
                            recorded maxDistance
                 | None => Some res
                 end)
         (vec_at data node) res) ∧
  (∀ fuel node tBegin tEnd vn,
     contactChain (S fuel) data node tBegin tEnd vn ingoing
     = for_each
         (λ it vn,
            match child_window ingoing it.2 tBegin tEnd with
            | Some w =>
                if gate_open vn it.1 tBegin tEnd ingoing
                then contactChain fuel data it.1 w.1 w.2 vn ingoing
                else Some vn
            | None => Some vn
            end)
         (vec_at data node) (Update vn node tBegin tEnd ingoing)) ∧
  (∀ node it tBegin tEnd,
     it ∈ vec_at data node →
     (child_window ingoing it.2 tBegin tEnd = None
      ↔ events_within it.2 tBegin tEnd = []) ∧
     ∀ w, child_window ingoing it.2 tBegin tEnd = Some w →
       (if ingoing
        then ∃ c, last_upto it.2 tEnd = Some c ∧ w = (tBegin, t c)
        else ∃ c, first_from it.2 tBegin = Some c ∧ w = (t c, tEnd)) ∧
       tBegin ≤ w.1 ∧ w.1 ≤ w.2 ∧ w.2 ≤ tEnd).
Proof.
  intros Hvalid Hdata.
  destruct (built_wf_either _ _ _ _ _ Hvalid Hdata) as [_ _ _ Hsorted _].
  split_and!.
  - intros. by apply doShortestPaths_level.
  - intros. by apply doTraceContacts_level.
  - intros. by apply contactChain_level.
  - intros node it tBegin tEnd Hit.
    pose proof (all_buckets_vec_at _ _ _ _ Hsorted Hit) as Hs. simpl in Hs.
    split; [apply child_window_None|].
    intros w Hw. split; [|by eapply child_window_inside].
    unfold child_window in Hw.
    destruct (events_within it.2 tBegin tEnd) as [|e l]; [done|].
    destruct ingoing.
    + destruct (last_upto it.2 tEnd) as [c|]; [|done].
      injection Hw as <-. by exists c.
    + destruct (first_from it.2 tBegin) as [c|]; [|done].
      injection Hw as <-. by exists c.
Qed.

Lemma descent_window_witness :
  valid_events 3 narrowing_src narrowing_dst narrowing_t ∧
  doTraceContacts 3 (built_lookups 3 narrowing_src narrowing_dst narrowing_t).2
    0 6 100 ∅ 1 false ([], []) 0
  = Some ([1; 3], [1; 2]).
Proof.
  split; [exact narrowing_valid|].
  destruct (descent_window 3 narrowing_src narrowing_dst narrowing_t
              (built_lookups 3 narrowing_src narrowing_dst narrowing_t).2
              false narrowing_valid (or_intror eq_refl))
    as (_ & Htrace & _).
  rewrite Htrace. reflexivity.
Defined.

(** ** C2: revisits of the contact chain and the chain size *)

Lemma Update_entry vn k tBegin tEnd ingoing :
  0 ≤ k < Z.of_nat (length (visitedNodes vn)) →
  entry (Update vn k tBegin tEnd ingoing) k
  = (true,
     if (entry vn k).1
     then if ingoing then Z.max (entry vn k).2 tEnd
          else Z.min (entry vn k).2 tBegin
     else if ingoing then tEnd else tBegin).
Proof.
  intros Hk. unfold Update.
  destruct (entry vn k) as [[] bound] eqn:E; simpl.
  - destruct ingoing.
    + destruct (Z.gtb_spec tEnd bound).
      * rewrite entry_set_eq by done. f_equal. lia.
      * rewrite E. f_equal. lia.
    + destruct (Z.ltb_spec tBegin bound).
      * rewrite entry_set_eq by done. f_equal. lia.
      * rewrite E. f_equal. lia.
  - by rewrite entry_set_eq.
Qed.

Lemma gate_open_marked vn k bound tBegin tEnd ingoing :
  entry vn k = (true, bound) →
  gate_open vn k tBegin tEnd ingoing = true
  ↔ if ingoing then bound < tEnd else tBegin < bound.
Proof.
  intros E. unfold gate_open. rewrite E. simpl.
  destruct ingoing; [apply Z.ltb_lt|apply Z.ltb_lt].
Qed.

(** Against C2 as stated. The ingoing chain of root 1 over [0, 100] on the
    three events: the root's first neighbour, node 1 (zero-based), is
    explored with the window [0, 50] and records the bound 50; the second
    neighbour, node 2, is entered with the window [0, 60]; its loop finds
    node 1 visited with bound 50 and, because the end 60 of its own window
    is later than 50, descends into node 1 again, with the narrowed window
    [0, 10], whose end is not later than the recorded bound: a
    re-exploration that does not extend the bound. Over [20, 100] the same
    loop finds the same gate open (60 is later than 50) and makes no
    descent, the bucket having no event from 20 on. *)
Lemma revisit_without_extension :
  (built_lookups 3 revisit_src revisit_dst revisit_t).1 = revisit_ingoing ∧
  (contactChain 3 revisit_ingoing 1 0 50
     (Update (VisitedNodes_new 3) 0 0 100 true) true
   = Some (mkVisitedNodes 2 [(true, 100); (true, 50); (false, 0)]) ∧
   Update (mkVisitedNodes 2 [(true, 100); (true, 50); (false, 0)]) 2 0 60 true
   = mkVisitedNodes 3 [(true, 100); (true, 50); (true, 60)] ∧
   chain_descent (mkVisitedNodes 3 [(true, 100); (true, 50); (true, 60)])
     0 60 true (1, [mkContact 2 1 10]) = Some (0, 10) ∧
   ¬ (10 > 50)) ∧
  (contactChain 3 revisit_ingoing 1 20 50
     (Update (VisitedNodes_new 3) 0 20 100 true) true
   = Some (mkVisitedNodes 2 [(true, 100); (true, 50); (false, 0)]) ∧
   Update (mkVisitedNodes 2 [(true, 100); (true, 50); (false, 0)]) 2 20 60 true
   = mkVisitedNodes 3 [(true, 100); (true, 50); (true, 60)] ∧
   Visit (mkVisitedNodes 3 [(true, 100); (true, 50); (true, 60)]) 1 20 60 true
   = true ∧
   chain_descent (mkVisitedNodes 3 [(true, 100); (true, 50); (true, 60)])
     20 60 true (1, [mkContact 2 1 10]) = None).
Proof. split_and!; [reflexivity..|lia|reflexivity|reflexivity|reflexivity|reflexivity]. Qed.

(** C2, as the code has it. On the lookups built from event columns with
    identifiers in range, one level of [contactChain] records the window
    of the call at the node and then, for every neighbour bucket, descends
    if and only if the bucket has an event inside the window of the call
    and the gate is open: the neighbour is not marked or, when it is
    marked with the bound [bound], the window of the calling node reaches
    beyond it (ingoing: [bound < tEnd]; outgoing: [tBegin < bound]);
    otherwise the branch is pruned and the state is left as it is. The
    gate does not look at the window of the new call: it is open whenever
    that window would move the bound, and it can be open when it would
    not. A descent records at the neighbour the later end (ingoing) or
    the earlier beginning (outgoing) of the bound and the window handed
    down. For every root in range the chain returns, the root is marked,
    and the counter [N] is the number of marked nodes, so that the chain
    size [N - 1] is the number of marked nodes other than the root. *)
Theorem chain_revisits_and_size n src dst ptr_t data (ingoing : bool) :
  valid_events n src dst ptr_t →
  data = (built_lookups n src dst ptr_t).1
  ∨ data = (built_lookups n src dst ptr_t).2 →
  (∀ fuel node tBegin tEnd vn,
     contactChain (S fuel) data node tBegin tEnd vn ingoing
     = for_each
         (λ it vn,
            match child_window ingoing it.2 tBegin tEnd with
            | Some w =>
                if gate_open vn it.1 tBegin tEnd ingoing
                then contactChain fuel data it.1 w.1 w.2 vn ingoing
                else Some vn
            | None => Some vn
            end)
         (vec_at data node) (Update vn node tBegin tEnd ingoing)) ∧
  (∀ node it vn tBegin tEnd,
     it ∈ vec_at data node →
     (child_window ingoing it.2 tBegin tEnd = None
      ↔ events_within it.2 tBegin tEnd = []) ∧
     ((entry vn it.1).1 = false →
      gate_open vn it.1 tBegin tEnd ingoing = true) ∧
     ∀ bound,
       entry vn it.1 = (true, bound) →
       (gate_open vn it.1 tBegin tEnd ingoing = true
        ↔ if ingoing then bound < tEnd else tBegin < bound) ∧
       (∀ w, child_window ingoing it.2 tBegin tEnd = Some w →
             (if ingoing then bound < w.2 else w.1 < bound) →
             gate_open vn it.1 tBegin tEnd ingoing = true)) ∧
  (∀ vn k tBegin tEnd,
     0 ≤ k < n → length (visitedNodes vn) = Z.to_nat n →
     entry (Update vn k tBegin tEnd ingoing) k
     = (true,
        if (entry vn k).1
        then if ingoing then Z.max (entry vn k).2 tEnd
             else Z.min (entry vn k).2 tBegin
        else if ingoing then tEnd else tBegin) ∧
     N (Update vn k tBegin tEnd ingoing)
     = (if (entry vn k).1 then N vn else N vn + 1) ∧
     ∀ k', k' ≠ k → entry (Update vn k tBegin tEnd ingoing) k' = entry vn k') ∧
  (∀ root tBegin tEnd,
     1 ≤ root ≤ n →
     ∃ vn',
       contactChain (search_fuel n) data (root - 1) tBegin tEnd
         (VisitedNodes_new n) ingoing = Some vn' ∧
       root - 1 ∈ marked vn' ∧
       N vn' - 1 = Z.of_nat (size (marked vn' ∖ {[root - 1]}))).
Proof.
  intros Hvalid Hdata.
  destruct (built_wf_either _ _ _ _ _ Hvalid Hdata)
    as [Hsize Hkeys Hrange Hsorted _].
  split_and!.
  - intros. by apply contactChain_level.
  - intros node it vn tBegin tEnd Hit.
    pose proof (all_buckets_vec_at _ _ _ _ Hsorted Hit) as Hs. simpl in Hs.
    split_and!; [apply child_window_None| |].
    { intros E. unfold gate_open. by rewrite E. }
    intros bound E. split; [by apply gate_open_marked|].
    intros w Hw Hext. apply (gate_open_marked _ _ bound); [done|].
    pose proof (child_window_inside _ _ _ _ _ Hs Hw).
    destruct ingoing; lia.
  - intros vn k tBegin tEnd Hk Hlen. split_and!.
    + apply Update_entry. lia.
    + unfold Update, N. destruct (entry vn k).1; [|done].
      repeat (match goal with |- context [if ?b then _ else _] => destruct b end);
        done.
    + intros k' Hk'. by apply Update_entry_other.
  - intros root tBegin tEnd Hroot.
    destruct (contactChain_root n data ingoing (root - 1) tBegin tEnd)
      as (vn' & Hrun & _ & Hc & Hm & _); [done|done|lia|].
    exists vn'. split_and!; [done..|].
    rewrite Hc. rewrite size_difference by set_solver.
    rewrite size_singleton.
    assert (size (marked vn') ≠ 0%nat).
    { intros E%size_empty_inv. set_solver. }
    lia.
Qed.

Lemma revisit_valid : valid_events 3 revisit_src revisit_dst revisit_t.
Proof.
  split_and!; [reflexivity|reflexivity| |]; repeat constructor; simpl; lia.
Defined.

Lemma chain_revisits_and_size_witness :
  valid_events 3 revisit_src revisit_dst revisit_t ∧
  contactChain 4 (built_lookups 3 revisit_src revisit_dst revisit_t).1
    0 0 100 (VisitedNodes_new 3) true
  = Some (mkVisitedNodes 3 [(true, 100); (true, 50); (true, 60)]) ∧
  ∃ vn',
    contactChain 4 (built_lookups 3 revisit_src revisit_dst revisit_t).1
      0 0 100 (VisitedNodes_new 3) true = Some vn' ∧
    N vn' - 1 = Z.of_nat (size (marked vn' ∖ {[0]})).
Proof.
  split; [exact revisit_valid|].
  destruct (chain_revisits_and_size 3 revisit_src revisit_dst revisit_t
              (built_lookups 3 revisit_src revisit_dst revisit_t).1 true
              revisit_valid (or_introl eq_refl)) as (Hlevel & _ & _ & Hsize).
  split.
  - rewrite Hlevel. reflexivity.
  - destruct (Hsize 1 0 100 ltac:(lia)) as (vn' & Hrun & _ & HN).
    exists vn'. split; [exact Hrun|exact HN].
Defined.

(** ** C4: what the trace records *)

Lemma Forall2_right {A B : Type} (P : A → B → Prop) (Q : B → Prop) l k :
  Forall2 P l k → (∀ x y, P x y → Q y) → Forall Q k.
Proof. induction 1; intros HQ; constructor; eauto. Qed.

Lemma discovers_distance data ingoing maxDistance node tBegin tEnd
    (visited : gset Z) distance it tB tE d :
  discovers data ingoing maxDistance node tBegin tEnd visited distance
    it tB tE d →
  distance ≤ d ∧ (0 < maxDistance → distance ≤ maxDistance → d ≤ maxDistance).
Proof. induction 1; split; lia. Qed.

(** C4. On the lookups built from event columns with identifiers in range,
    one level of [doTraceContacts] is the loop over the neighbour buckets
    of the node that, at every bucket of a neighbour off the path with an
    event inside the window, appends the row id (one-based) of every event
    of the bucket with [tBegin <= t <= tEnd], in bucket order, each with
    the current distance, and then descends with the distance plus one,
    unless [maxDistance] is positive and the distance has reached it: then
    the events are recorded and there is no descent. With fuel above the
    number of identifiers the search returns; what it appends is, pair by
    pair, the row id of an event in the window of a discovered bucket with
    the distance of the discovery, and every such pair is appended. When
    [maxDistance] is positive no appended distance exceeds it; when it
    is [0] the discoveries have no limit. *)
Theorem trace_records_window n src dst ptr_t data (ingoing : bool) maxDistance :
  valid_events n src dst ptr_t →
  data = (built_lookups n src dst ptr_t).1
  ∨ data = (built_lookups n src dst ptr_t).2 →
  (∀ fuel node tBegin tEnd (visited : gset Z) distance res,
     doTraceContacts (S fuel) data node tBegin tEnd visited distance ingoing
       res maxDistance
     = for_each
         (λ it res,
            if decide (it.1 ∈ {[node]} ∪ visited) then Some res
            else match child_window ingoing it.2 tBegin tEnd with
                 | Some w =>
                     let events := events_within it.2 tBegin tEnd in
                     let recorded :=
                       (res.1 ++ map (λ c, rowid c + 1) events,
                        res.2 ++ replicate (length events) distance) in
                     if decide (0 < maxDistance ≤ distance) then Some recorded
                     else doTraceContacts fuel data it.1 w.1 w.2
                            ({[node]} ∪ visited) (distance + 1) ingoing
                            recorded maxDistance
                 | None => Some res
                 end)
         (vec_at data node) res) ∧
  (∀ fuel node tBegin tEnd (visited : gset Z) distance res,
     (Z.to_nat n < fuel)%nat →
     ∃ rows dists,
       doTraceContacts fuel data node tBegin tEnd visited distance ingoing res
         maxDistance
       = Some (res.1 ++ rows, res.2 ++ dists) ∧
       Forall2
         (λ r d, ∃ it tB tE c,
            discovers data ingoing maxDistance node tBegin tEnd visited
              distance it tB tE d ∧
            c ∈ events_within it.2 tB tE ∧ r = rowid c + 1)
         rows dists ∧
       (∀ it tB tE d c,
          discovers data ingoing maxDistance node tBegin tEnd visited distance
            it tB tE d →
          c ∈ events_within it.2 tB tE →
          (rowid c + 1, d) ∈ zip rows dists) ∧
       Forall (λ d, distance ≤ d) dists ∧
       (0 < maxDistance → distance ≤ maxDistance →
        Forall (λ d, d ≤ maxDistance) dists)).
Proof.
  intros Hvalid Hdata.
  destruct (built_wf_either _ _ _ _ _ Hvalid Hdata)
    as [Hsize Hkeys Hrange Hsorted _].
  split.
  - intros. by apply doTraceContacts_level.
  - intros fuel node tBegin tEnd visited distance res Hfuel.
    destruct (doTraceContacts_run n data ingoing Hrange Hsorted maxDistance
                fuel node tBegin tEnd visited distance res)
      as (rows & dists & Hrun & Hcause & Hcov).
    { pose proof (off_path_bound n ({[node]} ∪ visited)). lia. }
    exists rows, dists. split_and!; [done..| |].
    + eapply Forall2_right; [exact Hcause|].
      intros r d (it & tB & tE & c & Hd%discovers_distance & _). simpl. lia.
    + intros H0 Hle. eapply Forall2_right; [exact Hcause|].
      intros r d (it & tB & tE & c & Hd%discovers_distance & _). simpl. lia.
Qed.

Lemma trace_records_window_witness :
  valid_events 3 narrowing_src narrowing_dst narrowing_t ∧
  (Z.to_nat 3 < 4)%nat ∧
  ∃ rows dists,
    doTraceContacts 4
      (built_lookups 3 narrowing_src narrowing_dst narrowing_t).2
      0 6 100 ∅ 1 false ([], []) 1
    = Some (rows, dists) ∧
    (1, 1) ∈ zip rows dists ∧ Forall (λ d, d ≤ 1) dists.
Proof.
  split; [exact narrowing_valid|].
  assert (Z.to_nat 3 < 4)%nat as Hfuel by (simpl; lia).
  split; [exact Hfuel|].
  destruct (trace_records_window 3 narrowing_src narrowing_dst narrowing_t
              (built_lookups 3 narrowing_src narrowing_dst narrowing_t).2
              false 1 narrowing_valid (or_intror eq_refl)) as [_ Hrun].
  destruct (Hrun 4%nat 0 6 100 ∅ 1 ([], []) Hfuel)
    as (rows & dists & Hres & _ & Hcov & _ & Hcap).
  exists rows, dists. split_and!.
  - exact Hres.
  - apply (Hcov (1, [mkContact 0 1 10]) 6 100 1 (mkContact 0 1 10)).
    + apply discovers_here.
      * vm_compute. apply list_elem_of_here.
      * apply (bool_decide_unpack _). vm_compute. exact I.
      * vm_compute. discriminate.
    + vm_compute. apply list_elem_of_here.
  - apply Hcap; lia.
Defined.

(** ** C1: the result map of the shortest paths *)

(** C1. On the lookups built from event columns with identifiers in range,
    one level of [doShortestPaths] is the loop over the neighbour buckets
    of the node that, at every bucket of a neighbour off the path with an
    event inside the window, stores the entry of the neighbour and then
    descends with the distance plus one. The entry is stored from the
    current distance and the first event [c] of the bucket with
    [t >= tBegin]: a neighbour without an entry gets
    [(distance, rowid c + 1)]; an entry [(d, r)] is replaced by
    [(distance, rowid c + 1)] when [distance < d] and the whole map is left
    as it is when [d <= distance]; the entries of the other nodes are not
    touched. With fuel above the number of identifiers the search
    returns; every node it discovers has an entry in the map returned,
    with a distance no larger than that of any of its discoveries; and
    every entry of the map returned is the one the map had before, or the
    pair of a discovery with a strictly smaller distance. Started for a
    root as [shortestPaths] starts it, on an empty map at distance 1, the
    search returns a map whose keys are the discovered nodes, each with
    the least distance of its discoveries and the row id of the first
    event, in its window, of a discovery at that distance. *)
Theorem shortest_path_entries n src dst ptr_t data (ingoing : bool) :
  valid_events n src dst ptr_t →
  data = (built_lookups n src dst ptr_t).1
  ∨ data = (built_lookups n src dst ptr_t).2 →
  (∀ fuel node tBegin tEnd (visited : gset Z) distance result,
     doShortestPaths (S fuel) data node tBegin tEnd visited distance ingoing
       result
     = for_each
         (λ it result,
            if decide (it.1 ∈ {[node]} ∪ visited) then Some result
            else match child_window ingoing it.2 tBegin tEnd,
                       first_from it.2 tBegin with
                 | Some w, Some c =>
                     doShortestPaths fuel data it.1 w.1 w.2
                       ({[node]} ∪ visited) (distance + 1) ingoing
                       (record_path result it.1 distance c)
                 | _, _ => Some result
                 end)
         (vec_at data node) result) ∧
  (∀ result k distance c,
     (OMap.find k result = None →
      OMap.find k (record_path result k distance c)
      = Some (distance, rowid c + 1)) ∧
     (∀ d r, OMap.find k result = Some (d, r) → distance < d →
      OMap.find k (record_path result k distance c)
      = Some (distance, rowid c + 1)) ∧
     (∀ d r, OMap.find k result = Some (d, r) → d ≤ distance →
      record_path result k distance c = result) ∧
     (∀ k', k' ≠ k →
      OMap.find k' (record_path result k distance c) = OMap.find k' result)) ∧
  (∀ fuel node tBegin tEnd (visited : gset Z) distance result,
     (Z.to_nat n < fuel)%nat →
     ∃ result',
       doShortestPaths fuel data node tBegin tEnd visited distance ingoing
         result
       = Some result' ∧
       (∀ it tB tE d,
          discovers data ingoing 0 node tBegin tEnd visited distance
            it tB tE d →
          ∃ d' r', OMap.find it.1 result' = Some (d', r') ∧ d' ≤ d) ∧
       entries_from
         (discovers data ingoing 0 node tBegin tEnd visited distance)
         result result' ∧
       only_closer result result') ∧
  (∀ root tBegin tEnd,
     ∃ paths,
       doShortestPaths (search_fuel n) data (root - 1) tBegin tEnd ∅ 1 ingoing
         []
       = Some paths ∧
       ∀ k,
         match OMap.find k paths with
         | Some (d, r) =>
             (∃ it tB tE c,
                discovers data ingoing 0 (root - 1) tBegin tEnd ∅ 1
                  it tB tE d ∧
                it.1 = k ∧ first_from it.2 tB = Some c ∧ r = rowid c + 1) ∧
             (∀ it tB tE d',
                discovers data ingoing 0 (root - 1) tBegin tEnd ∅ 1
                  it tB tE d' →
                it.1 = k → d ≤ d')
         | None =>
             ∀ it tB tE d,
               discovers data ingoing 0 (root - 1) tBegin tEnd ∅ 1
                 it tB tE d →
               it.1 ≠ k
         end).
Proof.
  intros Hvalid Hdata.
  destruct (built_wf_either _ _ _ _ _ Hvalid Hdata)
    as [Hsize Hkeys Hrange Hsorted _].
  split_and!.
  - intros. by apply doShortestPaths_level.
  - intros result k distance c. unfold record_path. split_and!.
    + intros ->. apply find_update_const.
    + intros d r -> Hd. destruct (Z.ltb_spec distance d); [|lia].
      apply find_update_const.
    + intros d r -> Hd. by destruct (Z.ltb_spec distance d); [lia|].
    + intros k' Hk'. by apply record_path_other.
  - intros fuel node tBegin tEnd visited distance result Hfuel.
    destruct (doShortestPaths_run n data ingoing Hrange Hsorted
                fuel node tBegin tEnd visited distance result)
      as (result' & Hrun & Hfrom & Hcov).
    { pose proof (off_path_bound n ({[node]} ∪ visited)). lia. }
    exists result'. split_and!; [done..|].
    by eapply entries_from_only_closer.
  - intros root tBegin tEnd.
    destruct (doShortestPaths_run n data ingoing Hrange Hsorted
                (search_fuel n) (root - 1) tBegin tEnd ∅ 1 [])
      as (paths & Hrun & Hfrom & Hcov).
    { pose proof (off_path_bound n ({[root - 1]} ∪ ∅)).
      unfold search_fuel. lia. }
    exists paths. split; [done|]. intros k.
    destruct (OMap.find k paths) as [[d r]|] eqn:E.
    + split.
      * destruct (Hfrom k) as [E'|(it & tB & tE & d0 & c & Hd & Hk & Hc & E' & _)].
        { rewrite E in E'. done. }
        rewrite E in E'. injection E' as -> ->.
        by exists it, tB, tE, c.
      * intros it tB tE d' Hd Hk.
        destruct (Hcov it tB tE d' Hd) as (d1 & r1 & E1 & Hle).
        rewrite Hk, E in E1. injection E1 as <- <-. done.
    + intros it tB tE d Hd Hk.
      destruct (Hcov it tB tE d Hd) as (d1 & r1 & E1 & _).
      rewrite Hk, E in E1. done.
Qed.

Lemma shortest_path_entries_witness :
  valid_events 3 ex_src ex_dst ex_t ∧ (Z.to_nat 3 < 4)%nat ∧
  ∃ result',
    doShortestPaths 4 (built_lookups 3 ex_src ex_dst ex_t).2 0 0 100 ∅ 1
      false [] = Some result' ∧
    ∃ d' r', OMap.find 2 result' = Some (d', r') ∧ d' ≤ 1.
Proof.
  split; [exact ex_valid|].
  assert (Z.to_nat 3 < 4)%nat as Hfuel by (simpl; lia).
  split; [exact Hfuel|].
  destruct (shortest_path_entries 3 ex_src ex_dst ex_t
              (built_lookups 3 ex_src ex_dst ex_t).2 false ex_valid
              (or_intror eq_refl)) as (_ & _ & Hrun & _).
  destruct (Hrun 4%nat 0 0 100 ∅ 1 [] Hfuel)
    as (result' & Hres & Hcov & _).
  exists result'. split; [exact Hres|].
  apply (Hcov (2, [mkContact 2 2 5]) 0 100 1).
  apply discovers_here.
  - vm_compute. apply list_elem_of_further, list_elem_of_here.
  - apply (bool_decide_unpack _). vm_compute. exact I.
  - vm_compute. discriminate.
Defined.

(** ** C8: the buckets, sorted, searched and only read *)

Lemma for_each_fold {A St : Type} (body : A → St → option St)
    (g : St → A → St) l s :
  (∀ a s, a ∈ l → body a s = Some (g s a)) →
  for_each body l s = Some (fold_left g l s).
Proof.
  revert s. induction l as [|a l IH]; intros s Hb; simpl; [done|].
  rewrite Hb by set_solver. apply IH. intros. apply Hb. set_solver.
Qed.

Lemma fold_left_app_concat {A B : Type} (g : A → list B) l acc :
  fold_left (λ acc a, acc ++ g a) l acc = acc ++ concat (map g l).
Proof.
  revert acc. induction l as [|a l IH]; intros acc; simpl.
  - by rewrite app_nil_r.
  - by rewrite IH, <-app_assoc.
Qed.

Section entry_points.
Variables (n : Z) (src dst ptr_t : list Z).
Variables (root inBegin inEnd outBegin outEnd : list Z).
Hypothesis Hn : 0 ≤ n.
Hypothesis Hvalid : valid_events n src dst ptr_t.

(** [shortestPaths] pushes, for every root, the entries of the two maps
    that [doShortestPaths] fills on the two lookups as they were built. *)
Lemma shortestPaths_valid :
  shortestPaths true (IntegerVector src) (IntegerVector dst)
    (IntegerVector ptr_t) (IntegerVector root) (IntegerVector inBegin)
    (IntegerVector inEnd) (IntegerVector outBegin) (IntegerVector outEnd)
    (IntegerVector [n])
  = Returned
      (fold_left
         (λ cols i,
            (push_paths i
               (default []
                  (doShortestPaths (search_fuel n)
                     (built_lookups n src dst ptr_t).1 (nth i root 0 - 1)
                     (nth i inBegin 0) (nth i inEnd 0) ∅ 1 true []))
               cols.1,
             push_paths i
               (default []
                  (doShortestPaths (search_fuel n)
                     (built_lookups n src dst ptr_t).2 (nth i root 0 - 1)
                     (nth i outBegin 0) (nth i outEnd 0) ∅ 1 false []))
               cols.2))
         (seq 0 (length root))
         (mkPathColumns [] [] [], mkPathColumns [] [] [])).
Proof.
  unfold shortestPaths. enter_with Hn. simpl INTEGER. simpl Rf_xlength.
  fold (built_lookups n src dst ptr_t).
  erewrite for_each_fold; [done|].
  intros i cols _. unfold shortestPaths_root.
  destruct (doShortestPaths_root n src dst ptr_t Hvalid
              (built_lookups n src dst ptr_t).1 (nth i root 0 - 1)
              (nth i inBegin 0) (nth i inEnd 0) true) as (pin & -> & _);
    [by left|].
  destruct (doShortestPaths_root n src dst ptr_t Hvalid
              (built_lookups n src dst ptr_t).2 (nth i root 0 - 1)
              (nth i outBegin 0) (nth i outEnd 0) false) as (pout & -> & _);
    [by right|].
  done.
Qed.

(** [traceContacts] returns, for every root, the two traces that
    [doTraceContacts] gives on the two lookups as they were built. *)
Lemma traceContacts_valid maxDistance :
  traceContacts true (IntegerVector src) (IntegerVector dst)
    (IntegerVector ptr_t) (IntegerVector root) (IntegerVector inBegin)
    (IntegerVector inEnd) (IntegerVector outBegin) (IntegerVector outEnd)
    (IntegerVector [n]) (IntegerVector [maxDistance])
  = Returned
      (concat
         (map
            (λ i,
               trace_group
                 (default ([], [])
                    (doTraceContacts (search_fuel n)
                       (built_lookups n src dst ptr_t).1 (nth i root 0 - 1)
                       (nth i inBegin 0) (nth i inEnd 0) ∅ 1 true ([], [])
                       maxDistance),
                  default ([], [])
                    (doTraceContacts (search_fuel n)
                       (built_lookups n src dst ptr_t).2 (nth i root 0 - 1)
                       (nth i outBegin 0) (nth i outEnd 0) ∅ 1 false ([], [])
                       maxDistance)))
            (seq 0 (length root)))).
Proof.
  unfold traceContacts. enter_with Hn. simpl INTEGER. simpl Rf_xlength.
  simpl nth. fold (built_lookups n src dst ptr_t).
  rewrite (for_each_fold _
    (λ acc i,
       acc ++ trace_group
         (default ([], [])
            (doTraceContacts (search_fuel n)
               (built_lookups n src dst ptr_t).1 (nth i root 0 - 1)
               (nth i inBegin 0) (nth i inEnd 0) ∅ 1 true ([], [])
               maxDistance),
          default ([], [])
            (doTraceContacts (search_fuel n)
               (built_lookups n src dst ptr_t).2 (nth i root 0 - 1)
               (nth i outBegin 0) (nth i outEnd 0) ∅ 1 false ([], [])
               maxDistance)))).
  - by rewrite fold_left_app_concat.
  - intros i acc _. unfold traceContacts_root.
    destruct (doTraceContacts_root n src dst ptr_t Hvalid
                (built_lookups n src dst ptr_t).1 (nth i root 0 - 1)
                (nth i inBegin 0) (nth i inEnd 0) true maxDistance)
      as (tin & -> & _); [by left|].
    destruct (doTraceContacts_root n src dst ptr_t Hvalid
                (built_lookups n src dst ptr_t).2 (nth i root 0 - 1)
                (nth i outBegin 0) (nth i outEnd 0) false maxDistance)
      as (tout & -> & _); [by right|].
    done.
Qed.

End entry_points.

(** C8. After [buildContactsLookup], in the ingoing and in the outgoing
    lookup, the bucket of every node and neighbour is non-decreasing in
    timestamp, and on it [std::lower_bound] for any [tBegin] stops at the
    position where the linear scan for the first event with [t >= tBegin]
    stops. The searches only read the lookups: they take them as
    arguments, hand them unchanged to their recursive calls and return
    results, never a lookup; and what each entry point returns is, root
    by root, what the searches give on the two lookups as they were
    built, whatever the roots searched before. *)
Theorem buckets_sorted_and_searched n src dst ptr_t :
  (∀ data node neighbour v,
     data = (built_lookups n src dst ptr_t).1
     ∨ data = (built_lookups n src dst ptr_t).2 →
     OMap.find neighbour (vec_at data node) = Some v →
     time_sorted v ∧
     ∀ tBegin, lower_bound v 0 (length v) tBegin = scan_lower v tBegin) ∧
  (∀ root inBegin inEnd outBegin outEnd maxDistance,
     0 ≤ n → valid_events n src dst ptr_t → Forall (λ r, 1 ≤ r ≤ n) root →
     shortestPaths true (IntegerVector src) (IntegerVector dst)
       (IntegerVector ptr_t) (IntegerVector root) (IntegerVector inBegin)
       (IntegerVector inEnd) (IntegerVector outBegin) (IntegerVector outEnd)
       (IntegerVector [n])
     = Returned
         (fold_left
            (λ cols i,
               (push_paths i
                  (default []
                     (doShortestPaths (search_fuel n)
                        (built_lookups n src dst ptr_t).1 (nth i root 0 - 1)
                        (nth i inBegin 0) (nth i inEnd 0) ∅ 1 true []))
                  cols.1,
                push_paths i
                  (default []
                     (doShortestPaths (search_fuel n)
                        (built_lookups n src dst ptr_t).2 (nth i root 0 - 1)
                        (nth i outBegin 0) (nth i outEnd 0) ∅ 1 false []))
                  cols.2))
            (seq 0 (length root))
            (mkPathColumns [] [] [], mkPathColumns [] [] [])) ∧
     traceContacts true (IntegerVector src) (IntegerVector dst)
       (IntegerVector ptr_t) (IntegerVector root) (IntegerVector inBegin)
       (IntegerVector inEnd) (IntegerVector outBegin) (IntegerVector outEnd)
       (IntegerVector [n]) (IntegerVector [maxDistance])
     = Returned
         (concat
            (map
               (λ i,
                  trace_group
                    (default ([], [])
                       (doTraceContacts (search_fuel n)
                          (built_lookups n src dst ptr_t).1 (nth i root 0 - 1)
                          (nth i inBegin 0) (nth i inEnd 0) ∅ 1 true ([], [])
                          maxDistance),
                     default ([], [])
                       (doTraceContacts (search_fuel n)
                          (built_lookups n src dst ptr_t).2 (nth i root 0 - 1)
                          (nth i outBegin 0) (nth i outEnd 0) ∅ 1 false
                          ([], []) maxDistance)))
               (seq 0 (length root)))) ∧
     networkSummary true (IntegerVector src) (IntegerVector dst)
       (IntegerVector ptr_t) (IntegerVector root) (IntegerVector inBegin)
       (IntegerVector inEnd) (IntegerVector outBegin) (IntegerVector outEnd)
       (IntegerVector [n])
     = Returned (mkSummary
         (map (λ i, degree (built_lookups n src dst ptr_t).1 (nth i root 0 - 1)
                      (nth i inBegin 0) (nth i inEnd 0)) (seq 0 (length root)))
         (map (λ i, degree (built_lookups n src dst ptr_t).2 (nth i root 0 - 1)
                      (nth i outBegin 0) (nth i outEnd 0)) (seq 0 (length root)))
         (map (λ i, default 0
                      (chain_size n (built_lookups n src dst ptr_t).1
                         (nth i root 0 - 1) (nth i inBegin 0) (nth i inEnd 0)
                         true)) (seq 0 (length root)))
         (map (λ i, default 0
                      (chain_size n (built_lookups n src dst ptr_t).2
                         (nth i root 0 - 1) (nth i outBegin 0) (nth i outEnd 0)
                         false)) (seq 0 (length root))))).
Proof.
  split.
  - intros data node neighbour v Hdata Hv.
    assert (time_sorted v) as Hs.
    { destruct (built_lookups_sorted n src dst ptr_t) as [S1 S2].
      destruct Hdata as [-> | ->].
      - apply (all_buckets_find _ _ _ _ _ S1 Hv).
      - apply (all_buckets_find _ _ _ _ _ S2 Hv). }
    split; [done|]. intros tBegin. by apply lower_bound_scan.
  - intros root inBegin inEnd outBegin outEnd maxDistance Hn Hvalid Hroot.
    split_and!.
    + by apply shortestPaths_valid.
    + by apply traceContacts_valid.
    + by apply networkSummary_valid.
Qed.

Lemma ties_valid : valid_events 2 ties_src ties_dst ties_t.
Proof.
  split_and!; [reflexivity|reflexivity| |]; repeat constructor; simpl; lia.
Defined.

Lemma buckets_sorted_and_searched_witness :
  OMap.find 1 (vec_at (built_lookups 2 ties_src ties_dst ties_t).2 0)
  = Some [mkContact 1 1 10; mkContact 3 1 10; mkContact 2 1 20;
          mkContact 0 1 30] ∧
  time_sorted [mkContact 1 1 10; mkContact 3 1 10; mkContact 2 1 20;
               mkContact 0 1 30] ∧
  (∀ tBegin,
     lower_bound [mkContact 1 1 10; mkContact 3 1 10; mkContact 2 1 20;
                  mkContact 0 1 30] 0 4 tBegin
     = scan_lower [mkContact 1 1 10; mkContact 3 1 10; mkContact 2 1 20;
                   mkContact 0 1 30] tBegin) ∧
  0 ≤ 2 ∧ valid_events 2 ties_src ties_dst ties_t ∧
  Forall (λ r, 1 ≤ r ≤ 2) [1; 1] ∧
  traceContacts true (IntegerVector ties_src) (IntegerVector ties_dst)
    (IntegerVector ties_t) (IntegerVector [1; 1]) (IntegerVector [0; 0])
    (IntegerVector [100; 100]) (IntegerVector [15; 0])
    (IntegerVector [25; 100]) (IntegerVector [2]) (IntegerVector [0])
  = Returned [[]; []; [3]; [1]; []; []; [2; 4; 3; 1]; [1; 1; 1; 1]].
Proof.
  assert (OMap.find 1 (vec_at (built_lookups 2 ties_src ties_dst ties_t).2 0)
          = Some [mkContact 1 1 10; mkContact 3 1 10; mkContact 2 1 20;
                  mkContact 0 1 30]) as Hfind by (vm_compute; reflexivity).
  assert (0 ≤ 2) as Hn by lia.
  assert (Forall (λ r, 1 ≤ r ≤ 2) [1; 1]) as Hroot
    by (repeat constructor; lia).
  destruct (buckets_sorted_and_searched 2 ties_src ties_dst ties_t)
    as [Hbucket Hentry].
  destruct (Hbucket (built_lookups 2 ties_src ties_dst ties_t).2 0 1 _
              (or_intror eq_refl) Hfind) as [Hsorted Hsearch].
  destruct (Hentry [1; 1] [0; 0] [100; 100] [15; 0] [25; 100] 0 Hn ties_valid
              Hroot) as (_ & Htrace & _).
  split_and!; [exact Hfind|exact Hsorted|exact Hsearch|exact Hn|
               exact ties_valid|exact Hroot|].
  rewrite Htrace. reflexivity.
Defined.
